(** * midish real-time core: pools, timeouts, tracks, frame states, transport

    A shallow embedding of the C sources (pool.c, timo.c, track.c, state.c,
    mux.c) and the properties stated about them.  Pointers are modelled as
    addresses into explicit stores, [unsigned] as [Z] reduced modulo [2^32],
    [unsigned long] as [Z] reduced modulo [2^64] (LP64), and the fatal
    [panic()] path as a separate outcome. *)

From Stdlib Require Import ZArith Lia List Bool.
From stdpp Require Import gmap list.
Import ListNotations.
Open Scope Z_scope.

(** ** Outcomes of a call

    [Done a]    the call returns [a];
    [Panic]     the call reaches [panic()] (the process aborts);
    [Undefined] the call reads storage that was never written or follows
                a NULL pointer;
    [Diverge]   a loop of the call does not exit within the number of
                iterations granted to it; a function with a loop either
                takes that number as its [fuel] or computes one that is
                enough for every run in which the loop exits. *)
Inductive outcome (A : Type) : Type :=
| Done (a : A)
| Panic
| Undefined
| Diverge.
Arguments Done {A} a.
Arguments Panic {A}.
Arguments Undefined {A}.
Arguments Diverge {A}.

Definition bind {A B : Type} (x : outcome A) (f : A -> outcome B) : outcome B :=
  match x with
  | Done a => f a
  | Panic => Panic
  | Undefined => Undefined
  | Diverge => Diverge
  end.

Notation "'let*' x ':=' c1 'in' c2" := (bind c1 (fun x => c2))
  (at level 10, x name, c1 at level 100, c2 at level 200).

(** C integer types. *)
Definition UINT_MOD : Z := 2 ^ 32.
Definition ULONG_MOD : Z := 2 ^ 64.
Definition wrap32 (x : Z) : Z := x mod UINT_MOD.
Definition wrap64 (x : Z) : Z := x mod ULONG_MOD.
(** Conversion of an [unsigned] to [int] (two's complement). *)
Definition to_int (x : Z) : Z :=
  if wrap32 x <? 2 ^ 31 then wrap32 x else wrap32 x - UINT_MOD.

(** * pool.c *)
Module Pool.
Local Open Scope Z_scope.

(** [sizeof(struct poolent)] and [sizeof(unsigned)]. *)
Definition sizeof_poolent : Z := 8.
Definition sizeof_unsigned : Z := 4.

(** [struct pool].  [data] is the memory block: it maps the byte offset of
    an entry to the link word ([struct poolent.next]) stored there; an
    offset without binding was never written.  [None] is NULL. *)
Record pool : Type := mkpool {
  data : gmap Z (option Z);
  first : option Z;
  itemnum : Z;
  itemsize : Z
}.

(** The rounding of the item size at the head of [pool_init]. *)
Definition round_itemsize (sz : Z) : Z :=
  let sz := if sz <? sizeof_poolent then sizeof_poolent else sz in
  Z.land (wrap32 (sz + (sizeof_unsigned - 1))) (Z.lnot (sizeof_unsigned - 1)).

(** The loop of [pool_init]: [i] entries remain, [p] is the cursor. *)
Fixpoint pool_init_loop (i : nat) (p : Z) (o : pool) : pool :=
  match i with
  | O => o
  | S i' =>
      pool_init_loop i' (p + itemsize o)
        (mkpool (<[p := first o]> (data o)) (Some p)
                (wrap32 (itemnum o + 1)) (itemsize o))
  end.

Definition pool_init (sz num : Z) : pool :=
  pool_init_loop (Z.to_nat num) 0 (mkpool ∅ None num (round_itemsize sz)).

(** [pool_new]: unlink the head of the free list. *)
Definition pool_new (o : pool) : outcome (pool * Z) :=
  match first o with
  | None => Panic
  | Some e =>
      match data o !! e with
      | Some nx => Done (mkpool (data o) nx (itemnum o) (itemsize o), e)
      | None => Undefined
      end
  end.

(** [pool_del]: link the entry at the head of the free list. *)
Definition pool_del (o : pool) (p : Z) : pool :=
  mkpool (<[p := first o]> (data o)) (Some p) (itemnum o) (itemsize o).

(** ** Client programs

    A client acquires entries, releases entries it holds and writes into
    entries it holds (the payload shares its storage with the link word).
    Entries held are named by their position in the list of live entries,
    most recently acquired first. *)
Inductive op : Type :=
| Acquire
| Release (k : nat)
| Store (k : nat) (w : option Z).

Definition exec_op (c : op) (st : pool * list Z) : outcome (pool * list Z) :=
  let '(o, live) := st in
  match c with
  | Acquire =>
      let* r := pool_new o in Done (fst r, snd r :: live)
  | Release k =>
      match live !! k with
      | Some p => Done (pool_del o p, delete k live)
      | None => Undefined
      end
  | Store k w =>
      match live !! k with
      | Some p => Done (mkpool (<[p := w]> (data o)) (first o)
                               (itemnum o) (itemsize o), live)
      | None => Undefined
      end
  end.

Fixpoint exec (prog : list op) (st : pool * list Z) : outcome (pool * list Z) :=
  match prog with
  | [] => Done st
  | c :: prog' => let* st' := exec_op c st in exec prog' st'
  end.

(** [fits cap n prog]: starting with [n] live entries, the client only
    names entries it holds and never holds more than [cap] entries. *)
Fixpoint fits (cap n : nat) (prog : list op) : bool :=
  match prog with
  | [] => true
  | Acquire :: r => (n <? cap)%nat && fits cap (S n) r
  | Release k :: r => (k <? n)%nat && fits cap (pred n) r
  | Store k _ :: r => (k <? n)%nat && fits cap n r
  end.

(** The free list as a list of offsets: [chain m h l] holds when following
    the link words of [m] from [h] visits exactly [l] and ends at NULL. *)
Fixpoint chain (m : gmap Z (option Z)) (h : option Z) (l : list Z) : Prop :=
  match l with
  | [] => h = None
  | p :: l' => h = Some p /\ exists nx, m !! p = Some nx /\ chain m nx l'
  end.

(** Offsets of the entries of a pool of [n] items of size [s]. *)
Definition slots (s : Z) (n : nat) : list Z :=
  map (fun i => Z.of_nat i * s) (seq 0 n).

(** The invariant of an execution: the free list and the live entries
    partition the entries of the pool. *)
Definition pool_inv (s : Z) (cap : nat) (st : pool * list Z) : Prop :=
  exists fl, chain (data (fst st)) (first (fst st)) fl /\
             fl ++ snd st ≡ₚ slots s cap.

(** [n] calls of [pool_new] in a row, with the entries they return, the
    first call first. *)
Fixpoint pool_news (n : nat) (o : pool) : outcome (pool * list Z) :=
  match n with
  | O => Done (o, [])
  | S n' =>
      let* r := pool_new o in
      let* r' := pool_news n' (fst r) in
      Done (fst r', snd r :: snd r')
  end.

End Pool.

(** * timo.c *)
Module Timo.

(** [struct timo].  The callback is named by a number; [next] is the link
    of the queue, [None] being NULL. *)
Record timo : Type := mktimo {
  cb : Z;
  arg : Z;
  set : Z;
  val : Z;
  next : option nat
}.

(** The globals [timo_queue] and [timo_abstime], the storage of the
    [struct timo] objects by address, and the calls [cb(arg)] made so far,
    oldest first. *)
Record machine : Type := mkmachine {
  timo_queue : option nat;
  timo_abstime : Z;
  store : gmap nat timo;
  fired : list (Z * Z)
}.

(** What the body of a callback does to the timeout machinery, for
    instance re-arming its own timeout. *)
Definition handler : Type := Z -> Z -> machine -> outcome machine.

(** A callback that leaves the timeouts alone. *)
Definition plain : handler := fun _ _ m => Done m.

Definition get (m : machine) (a : nat) : outcome timo :=
  match store m !! a with
  | Some t => Done t
  | None => Undefined
  end.

Definition put (m : machine) (a : nat) (t : timo) : machine :=
  mkmachine (timo_queue m) (timo_abstime m) (<[a := t]> (store m)) (fired m).

(** A [struct timo **]: the queue head or the [next] field of a timeout. *)
Inductive loc : Type :=
| LQueue
| LNext (a : nat).

Definition load (m : machine) (i : loc) : outcome (option nat) :=
  match i with
  | LQueue => Done (timo_queue m)
  | LNext a => let* t := get m a in Done (next t)
  end.

Definition save (m : machine) (i : loc) (p : option nat) : outcome machine :=
  match i with
  | LQueue => Done (mkmachine p (timo_abstime m) (store m) (fired m))
  | LNext a =>
      let* t := get m a in
      Done (put m a (mktimo (cb t) (arg t) (set t) (val t) p))
  end.

(** [timo_set]; the fields [val] and [next] of a structure that was never
    written hold whatever [blank] holds. *)
Definition blank : timo := mktimo 0 0 0 0 None.

Definition timo_set (o : nat) (c a : Z) (m : machine) : machine :=
  let t := default blank (store m !! o) in
  put m o (mktimo c a 0 (val t) (next t)).

(** The [for] loop of [timo_add], from the cursor [i]: the result is the
    place where the new timeout is linked. *)
Fixpoint timo_add_scan (n : nat) (m : machine) (v : Z) (i : loc) : outcome loc :=
  let* p := load m i in
  match p with
  | None => Done i
  | Some a =>
      let* t := get m a in
      let diff := to_int (val t - v) in
      if 0 <? diff then Done i
      else match n with
           | O => Diverge
           | S n' => timo_add_scan n' m v (LNext a)
           end
  end.

(** [timo_add].  A queue without cycle has at most [size (store m)]
    elements, which bounds the scan. *)
Definition timo_add (o : nat) (delta : Z) (m : machine) : outcome machine :=
  let v := wrap32 (timo_abstime m + delta) in
  let* i := timo_add_scan (size (store m)) m v LQueue in
  let* t := get m o in
  let m := put m o (mktimo (cb t) (arg t) 1 (val t) (next t)) in
  let* t := get m o in
  let m := put m o (mktimo (cb t) (arg t) (set t) v (next t)) in
  let* p := load m i in
  let* t := get m o in
  let m := put m o (mktimo (cb t) (arg t) (set t) (val t) p) in
  save m i (Some o).

(** The [for] loop of [timo_del]. *)
Fixpoint timo_del_scan (n : nat) (m : machine) (o : nat) (i : loc) : outcome machine :=
  let* p := load m i in
  match p with
  | None => Done m
  | Some a =>
      if Nat.eqb a o then
        let* t := get m o in
        let* m := save m i (next t) in
        let* t := get m o in
        Done (put m o (mktimo (cb t) (arg t) 0 (val t) (next t)))
      else match n with
           | O => Diverge
           | S n' => timo_del_scan n' m o (LNext a)
           end
  end.

Definition timo_del (o : nat) (m : machine) : outcome machine :=
  timo_del_scan (size (store m)) m o LQueue.

(** The [while] loop of [timo_update]; callbacks may re-arm timeouts, so
    the number of iterations is a parameter. *)
Fixpoint timo_update_loop (h : handler) (fuel : nat) (m : machine) : outcome machine :=
  match timo_queue m with
  | None => Done m
  | Some a =>
      let* t := get m a in
      let diff := to_int (val t - timo_abstime m) in
      if 0 <? diff then Done m
      else match fuel with
           | O => Diverge
           | S fuel' =>
               let m := mkmachine (next t) (timo_abstime m) (store m) (fired m) in
               let* t := get m a in
               let m := put m a (mktimo (cb t) (arg t) 0 (val t) (next t)) in
               let* t := get m a in
               let m := mkmachine (timo_queue m) (timo_abstime m) (store m)
                                  (fired m ++ [(cb t, arg t)]) in
               let* m := h (cb t) (arg t) m in
               timo_update_loop h fuel' m
           end
  end.

Definition timo_update (h : handler) (fuel : nat) (delta : Z) (m : machine) : outcome machine :=
  timo_update_loop h fuel
    (mkmachine (timo_queue m) (wrap32 (timo_abstime m + delta)) (store m) (fired m)).

(** [timo_init], over an empty storage. *)
Definition timo_init : machine := mkmachine None 0 ∅ [].

(** Two timeouts, at the addresses 1 and 2 with the callbacks 1 and 2,
    scheduled [d1] and [d2] units after the time [t0], the second one
    first when [swap] is set, and followed by one update of [delta]
    units. *)
Definition two_timeouts (t0 d1 d2 delta : Z) (swap : bool) (fuel : nat)
  : outcome machine :=
  let m := mkmachine None t0 ∅ [] in
  let m := timo_set 1 1 10 m in
  let m := timo_set 2 2 20 m in
  let* m := if swap then timo_add 2 d2 m else timo_add 1 d1 m in
  let* m := if swap then timo_add 1 d1 m else timo_add 2 d2 m in
  timo_update plain fuel delta m.

(** The queue as a list: [qseg st h l q] holds when following the [next]
    links of the storage [st] from the pointer [h] visits the timeouts at
    the addresses [l], in this order, and arrives at the pointer [q]. *)
Fixpoint qseg (st : gmap nat timo) (h : option nat) (l : list nat)
    (q : option nat) : Prop :=
  match l with
  | [] => h = q
  | a :: l' => h = Some a /\ exists t, st !! a = Some t /\ qseg st (next t) l' q
  end.

(** [queue_is m l]: [timo_queue] holds the timeouts at the addresses [l],
    the head first, and ends in NULL. *)
Definition queue_is (m : machine) (l : list nat) : Prop :=
  qseg (store m) (timo_queue m) l None.

(** The expiry of the timeout at [a], and the test [diff > 0] of timo.c on
    it: whether it lies after the instant [v]. *)
Definition val_at (m : machine) (a : nat) : Z :=
  val (default blank (store m !! a)).
Definition after (m : machine) (v : Z) (a : nat) : bool :=
  0 <? to_int (val_at m a - v).

(** [same_timeout m m' a]: the timeout at [a] has in [m'] the callback,
    argument, flag and expiry it has in [m]. *)
Definition same_timeout (m m' : machine) (a : nat) : Prop :=
  exists t t', store m !! a = Some t /\ store m' !! a = Some t' /\
               cb t' = cb t /\ arg t' = arg t /\ set t' = set t /\
               val t' = val t.

(** The callback of a periodic timeout: it schedules the timeout at the
    address [o] again, [period] units ahead. *)
Definition rearm (o : nat) (period : Z) : handler :=
  fun _ _ m => timo_add o period m.

(** The time left before the timeout at [a] expires, as the 32-bit clock
    counts it. *)
Definition remaining (m : machine) (a : nat) : Z :=
  wrap32 (val_at m a - timo_abstime m).

(** A list of numbers in which no element is followed by a smaller one. *)
Fixpoint ascending (l : list Z) : Prop :=
  match l with
  | [] => True
  | x :: l' => Forall (Z.le x) l' /\ ascending l'
  end.

(** [ordered m l]: the timeouts [l] expire in this order, none of them
    [2^31] units ahead or more. *)
Definition ordered (m : machine) (l : list nat) : Prop :=
  ascending (map (remaining m) l) /\
  Forall (fun a => remaining m a < 2 ^ 31) l.

(** The place the scan of [timo_add] or [timo_del] stands at after it
    went past the timeouts [l1], starting from the place [i]. *)
Definition loc_after (i : loc) (l1 : list nat) : loc :=
  match last l1 with
  | None => i
  | Some a => LNext a
  end.

(** The call [cb(arg)] of the timeout at [a]. *)
Definition call_of (m : machine) (a : nat) : Z * Z :=
  (cb (default blank (store m !! a)), arg (default blank (store m !! a))).

(** The flag [set] of the timeout at [a]. *)
Definition set_at (m : machine) (a : nat) : Z :=
  set (default blank (store m !! a)).

(** A queue of two timeouts, at the addresses 1 and 2, due 500 and 1500
    units after the time [2^32 - 1000], the second one beyond the wrap of
    the clock; the timeout at the address 3 is not scheduled. *)
Definition sample_machine : machine :=
  mkmachine (Some 1%nat) (2 ^ 32 - 1000)
    (<[1%nat := mktimo 1 10 1 (wrap32 (2 ^ 32 - 1000 + 500)) (Some 2%nat)]>
     (<[2%nat := mktimo 2 20 1 (wrap32 (2 ^ 32 - 1000 + 1500)) None]>
      (<[3%nat := mktimo 3 30 0 0 None]> ∅))) [].

End Timo.

(** * state.c *)
Module State.

(** Modelled from the spec: the command tags of ev.h, which is not among
    the sources; the spec lists note-on, note-off, key aftertouch, channel
    aftertouch, program change, 7-bit controller, 14-bit controller, pitch
    bend, NRPN, RPN, tempo, time signature, the sysex pattern slots and
    null.  The names are those state.c, track.c and mux.c use. *)
Inductive evcmd : Type :=
| EV_NULL | EV_TEMPO | EV_TIMESIG | EV_NRPN | EV_RPN | EV_XCTL
| EV_NOFF | EV_NON | EV_KAT | EV_CTL | EV_PC | EV_CAT | EV_BEND
| EV_PAT (slot : nat).

(** [struct ev]: command, device, channel and the two values ([v0] is the
    note or controller number, [v1] the velocity or value). *)
Record ev : Type := mkev {
  cmd : evcmd;
  dev : Z;
  ch : Z;
  v0 : Z;
  v1 : Z
}.

(** Modelled from the spec: the macro [EV_ISNOTE] of ev.h; the note family
    is note-on, note-off and key aftertouch. *)
Definition EV_ISNOTE (e : ev) : bool :=
  match cmd e with
  | EV_NON | EV_NOFF | EV_KAT => true
  | _ => false
  end.

(** Modelled from the spec: the phase bits of ev.h, a 3-bit mask
    {FIRST, NEXT, LAST}. *)
Definition EV_PHASE_FIRST : Z := 1.
Definition EV_PHASE_NEXT : Z := 2.
Definition EV_PHASE_LAST : Z := 4.

(** The flags of state.h. *)
Definition STATE_NEW : Z := 1.
Definition STATE_CHANGED : Z := 2.
Definition STATE_BOGUS : Z := 4.
Definition STATE_NESTED : Z := 8.

(** [struct state], without the links (a statelist is a Rocq list below)
    and without the fields [nevents], [tag], [tic] and [pos] that state.c
    never touches. *)
Record state : Type := mkstate {
  st_ev : ev;
  phase : Z;
  flags : Z
}.

(** [struct statelist]: [first] is the chain of states from the head. *)
Record statelist : Type := mkstatelist {
  first : list state;
  changed : Z;
  serial : Z
}.

(** [x & mask] as a truth value. *)
Definition has (x mask : Z) : bool := negb (Z.land x mask =? 0).

(** [state_new] and [state_del] on the number of free entries of
    [state_pool]: [pool_new] panics when none is left. *)
Definition state_new (free : nat) : outcome nat :=
  match free with
  | O => Panic
  | S n => Done n
  end.

Definition state_del (free : nat) : nat := S free.

(** What a freshly acquired entry holds before its fields are assigned. *)
Definition stale : state := mkstate (mkev EV_NULL 0 0 0 0) 0 0.

(** [state_copyev]. *)
Definition state_copyev (st : state) (e : ev) (ph : Z) : state :=
  mkstate e ph (Z.lor (flags st) STATE_CHANGED).

(** [state_restore]: the count returned and the event written to [rev],
    if any. *)
Definition state_restore (st : state) : outcome (Z * option ev) :=
  if has (flags st) STATE_BOGUS then Done (0, None)
  else if EV_ISNOTE (st_ev st) then Panic
  else if has (phase st) EV_PHASE_LAST && negb (has (phase st) EV_PHASE_FIRST)
       then Done (0, None)
  else Done (1, Some (st_ev st)).

(** [statelist_init], given the value of the counter [state_serial]. *)
Definition statelist_init (state_serial : Z) : statelist :=
  mkstatelist [] 0 state_serial.

Section WithEv.
(** [ev_phase] and [ev_match] are defined in ev.c, which is not among the
    sources: the functions of state.c are given for any such pair. *)
Variable ev_phase : ev -> Z.
Variable ev_match : ev -> ev -> bool.

(** [state_match]. *)
Definition state_match (st : state) (e : ev) : bool := ev_match (st_ev st) e.

(** [statelist_lookup]: the position of the first matching state. *)
Fixpoint statelist_lookup (l : list state) (e : ev) : option nat :=
  match l with
  | [] => None
  | st :: l' =>
      if state_match st e then Some O
      else S <$> statelist_lookup l' e
  end.

(** The first loop of [statelist_update], from the state [st] at the head
    of [l]: matching states that are terminated or bogus are unlinked and
    freed; the loop breaks at the first other matching state, whose NEW
    flag it clears.  The result is what remains of [l], the free count
    and the position of the state the loop stopped at, [None] when it ran
    to the end of the list. *)
Fixpoint update_scan (l : list state) (free : nat) (e : ev)
  : list state * nat * option nat :=
  match l with
  | [] => ([], free, None)
  | st :: l' =>
      if state_match st e then
        if negb (phase st =? EV_PHASE_LAST) && negb (has (flags st) STATE_BOGUS)
        then (mkstate (st_ev st) (phase st)
                      (Z.land (flags st) (Z.lnot STATE_NEW)) :: l',
              free, Some O)
        else update_scan l' (state_del free) e
      else
        let '(r, free', found) := update_scan l' free e in
        (st :: r, free', S <$> found)
  end.

(** [statelist_update].  The state returned is named by its position in
    the resulting list. *)
Definition statelist_update (o : statelist) (free : nat) (e : ev)
  : outcome (statelist * nat * nat) :=
  let ph := ev_phase e in
  let '(l, free, found) := update_scan (first o) free e in
  let* r1 :=
    match found with
    | Some i => Done (l, free, i)
    | None =>
        let* free := state_new free in
        Done (mkstate (st_ev stale) (phase stale) STATE_NEW :: l, free, O)
    end in
  let '(l, free, i) := r1 in
  match l !! i with
  | None => Undefined
  | Some st =>
      let* r2 :=
        if ph =? EV_PHASE_FIRST then
          if negb (flags st =? STATE_NEW) then
            let* free := state_new free in
            Done (mkstate (st_ev stale) (phase stale)
                          (Z.lor STATE_NEW STATE_NESTED) :: l, free, O, ph)
          else Done (l, free, i, ph)
        else if (ph =? EV_PHASE_NEXT) || (ph =? EV_PHASE_LAST) then
          if flags st =? STATE_NEW then
            Done (<[i := mkstate (st_ev st) (phase st)
                                 (Z.lor (flags st) STATE_BOGUS)]> l, free, i,
                  Z.land (Z.lor ph EV_PHASE_FIRST) (Z.lnot EV_PHASE_NEXT))
          else Done (l, free, i, ph)
        else if ph =? Z.lor EV_PHASE_FIRST EV_PHASE_NEXT then
          Done (l, free, i,
                Z.land ph (if flags st =? STATE_NEW
                           then Z.lnot EV_PHASE_NEXT
                           else Z.lnot EV_PHASE_FIRST))
        else if ph =? Z.lor EV_PHASE_FIRST EV_PHASE_LAST then
          Done (l, free, i, ph)
        else Panic in
      let '(l, free, i, ph) := r2 in
      Done (mkstatelist (alter (fun st => state_copyev st e ph) i l)
                        1 (serial o),
            free, i)
  end.

(** A stream of events fed to [statelist_update]. *)
Fixpoint statelist_updates (evs : list ev) (o : statelist) (free : nat)
  : outcome (statelist * nat) :=
  match evs with
  | [] => Done (o, free)
  | e :: evs' =>
      let* r := statelist_update o free e in
      statelist_updates evs' (fst (fst r)) (snd (fst r))
  end.

End WithEv.

(** [i->flags &= ~STATE_CHANGED]. *)
Definition clear_changed (i : state) : state :=
  mkstate (st_ev i) (phase i) (Z.land (flags i) (Z.lnot STATE_CHANGED)).

(** The loop of [statelist_outdate]. *)
Fixpoint outdate_loop (l : list state) (free : nat) : list state * nat :=
  match l with
  | [] => ([], free)
  | i :: l' =>
      if phase i =? EV_PHASE_LAST then outdate_loop l' (state_del free)
      else
        let '(r, free') := outdate_loop l' free in
        (clear_changed i :: r, free')
  end.

(** [statelist_outdate]. *)
Definition statelist_outdate (o : statelist) (free : nat) : statelist * nat :=
  if changed o =? 0 then (o, free)
  else
    let '(l, free') := outdate_loop (first o) free in
    (mkstatelist l 0 (serial o), free').

(** Modelled from the spec: [ev_phase] of ev.c.  The spec fixes note-on as
    FIRST, key aftertouch as NEXT and note-off as LAST, and calls program
    change, plain controllers, tempo and time signature stateless, that is
    FIRST+LAST.  For the commands whose phase depends on the value carried
    (channel aftertouch, pitch bend, 14-bit controllers) the spec gives no
    rule; they get the stateless phase here and nothing below evaluates
    them. *)
Definition ev_phase_spec (e : ev) : Z :=
  match cmd e with
  | EV_NON => EV_PHASE_FIRST
  | EV_KAT => EV_PHASE_NEXT
  | EV_NOFF => EV_PHASE_LAST
  | _ => Z.lor EV_PHASE_FIRST EV_PHASE_LAST
  end.

Definition evcmd_eqb (a b : evcmd) : bool :=
  match a, b with
  | EV_NULL, EV_NULL | EV_TEMPO, EV_TEMPO | EV_TIMESIG, EV_TIMESIG
  | EV_NRPN, EV_NRPN | EV_RPN, EV_RPN | EV_XCTL, EV_XCTL
  | EV_NOFF, EV_NOFF | EV_NON, EV_NON | EV_KAT, EV_KAT
  | EV_CTL, EV_CTL | EV_PC, EV_PC | EV_CAT, EV_CAT | EV_BEND, EV_BEND => true
  | EV_PAT m, EV_PAT n => Nat.eqb m n
  | _, _ => false
  end.

(** Modelled from the spec: [ev_match] of ev.c.  Two events match when
    they have the same key: for the note family the device, the channel
    and the note number; for controllers the command, the device, the
    channel and the controller number; for the other voice events the
    command, the device and the channel; for tempo and time signature the
    command alone. *)
Definition ev_match_spec (a b : ev) : bool :=
  if EV_ISNOTE a then
    EV_ISNOTE b && (dev a =? dev b) && (ch a =? ch b) && (v0 a =? v0 b)
  else
    evcmd_eqb (cmd a) (cmd b) &&
    match cmd a with
    | EV_TEMPO | EV_TIMESIG | EV_NULL => true
    | EV_CTL | EV_XCTL | EV_NRPN | EV_RPN =>
        (dev a =? dev b) && (ch a =? ch b) && (v0 a =? v0 b)
    | EV_PAT _ => dev a =? dev b
    | _ => (dev a =? dev b) && (ch a =? ch b)
    end.

(** Sample events on device 0, channel 0. *)
Definition note_on (n v : Z) : ev := mkev EV_NON 0 0 n v.
Definition note_off (n v : Z) : ev := mkev EV_NOFF 0 0 n v.
Definition key_at (n v : Z) : ev := mkev EV_KAT 0 0 n v.

(** The list after note 60 and then note 61 were switched on. *)
Definition two_notes : statelist :=
  mkstatelist
    [mkstate (note_on 61 100) EV_PHASE_FIRST (Z.lor STATE_NEW STATE_CHANGED);
     mkstate (note_on 60 100) EV_PHASE_FIRST (Z.lor STATE_NEW STATE_CHANGED)]
    1 0.

(** The list after note 60 was switched on and off. *)
Definition note_done : statelist :=
  mkstatelist [mkstate (note_off 60 0) EV_PHASE_LAST STATE_CHANGED] 1 0.

(** [statelist_add]: the state becomes the head of the list. *)
Definition statelist_add (o : statelist) (st : state) : statelist :=
  mkstatelist (st :: first o) (changed o) (serial o).

(** [statelist_rm] of the state at the position [i]; the state is not
    freed. *)
Definition statelist_rm (o : statelist) (i : nat) : statelist :=
  mkstatelist (delete i (first o)) (changed o) (serial o).

(** The loop of [statelist_dup] over the states of the source that are
    left: each is copied into a fresh entry (event, phase and flags) that
    is added to [o]. *)
Fixpoint dup_loop (src : list state) (o : statelist) (free : nat)
  : outcome (statelist * nat) :=
  match src with
  | [] => Done (o, free)
  | i :: src' =>
      let* free := state_new free in
      dup_loop src' (statelist_add o (mkstate (st_ev i) (phase i) (flags i)))
               free
  end.

(** [statelist_dup], given the value of the counter [state_serial]. *)
Definition statelist_dup (state_serial : Z) (src : statelist) (free : nat)
  : outcome (statelist * nat) :=
  dup_loop (first src) (statelist_init state_serial) free.

(** The loop of [statelist_empty] over the states that are left: the
    state at hand, which is the head of what remains of the list, is
    unlinked and freed. *)
Fixpoint empty_loop (l : list state) (o : statelist) (free : nat)
  : statelist * nat :=
  match l with
  | [] => (o, free)
  | _ :: l' => empty_loop l' (statelist_rm o 0) (state_del free)
  end.

(** [statelist_empty]. *)
Definition statelist_empty (o : statelist) (free : nat) : statelist * nat :=
  empty_loop (first o) o free.

(** The loop of [statelist_done]; [log] collects the events reported as
    unterminated frames. *)
Fixpoint done_loop (l : list state) (o : statelist) (free : nat)
    (log : list ev) : statelist * nat * list ev :=
  match l with
  | [] => (o, free, log)
  | i :: l' =>
      let log :=
        if negb (has (phase i) EV_PHASE_LAST) &&
           negb (evcmd_eqb (cmd (st_ev i)) EV_CTL)
        then log ++ [st_ev i] else log in
      done_loop l' (statelist_rm o 0) (state_del free) log
  end.

(** [statelist_done]. *)
Definition statelist_done (o : statelist) (free : nat)
  : statelist * nat * list ev :=
  done_loop (first o) o free [].

(** The five phases an event can have. *)
Definition valid_phase (ph : Z) : bool :=
  (ph =? EV_PHASE_FIRST) || (ph =? EV_PHASE_NEXT) || (ph =? EV_PHASE_LAST) ||
  (ph =? Z.lor EV_PHASE_FIRST EV_PHASE_NEXT) ||
  (ph =? Z.lor EV_PHASE_FIRST EV_PHASE_LAST).

(** A state that stands for a frame which can still take events: it is
    neither terminated nor bogus. *)
Definition open_state (s : state) : bool :=
  negb (phase s =? EV_PHASE_LAST) && negb (has (flags s) STATE_BOGUS).

(** The list [two_notes] after a key aftertouch for note 60. *)
Definition two_notes_touched : statelist :=
  mkstatelist
    [mkstate (note_on 61 100) EV_PHASE_FIRST (Z.lor STATE_NEW STATE_CHANGED);
     mkstate (key_at 60 30) EV_PHASE_NEXT STATE_CHANGED]
    1 0.

End State.

(** * track.c *)
Module Track.
Import State.

(** A [struct seqev *]: the sentinel [&o->eot], inline in the track, or an
    entry of [seqev_pool] at an address. *)
Inductive sptr : Type :=
| Eot
| Node (a : nat).

(** A [struct seqev **]: [&o->first] or the [next] field of an event. *)
Inductive slot : Type :=
| SFirst
| SNext (p : sptr).

(** [struct seqev] (track.h): delta, event and the two links; a NULL
    [next] is [None]. *)
Record seqev : Type := mkseqev {
  delta : Z;
  sev : ev;
  next : option sptr;
  prev : slot
}.

(** [struct track], that is the sentinel [eot] and the pointer [first],
    together with the storage of the pool entries. *)
Record track : Type := mktrack {
  eot : seqev;
  first : option sptr;
  heap : gmap nat seqev
}.

Definition set_delta (s : seqev) (d : Z) : seqev :=
  mkseqev d (sev s) (next s) (prev s).
Definition set_next (s : seqev) (n : option sptr) : seqev :=
  mkseqev (delta s) (sev s) n (prev s).
Definition set_prev (s : seqev) (p : slot) : seqev :=
  mkseqev (delta s) (sev s) (next s) p.

(** Reading and writing the structure a pointer refers to. *)
Definition rd (t : track) (p : sptr) : outcome seqev :=
  match p with
  | Eot => Done (eot t)
  | Node a =>
      match heap t !! a with
      | Some s => Done s
      | None => Undefined
      end
  end.

Definition wr (t : track) (p : sptr) (s : seqev) : track :=
  match p with
  | Eot => mktrack s (first t) (heap t)
  | Node a => mktrack (eot t) (first t) (<[a := s]> (heap t))
  end.

(** [*sl = v]. *)
Definition store_slot (t : track) (sl : slot) (v : option sptr) : outcome track :=
  match sl with
  | SFirst => Done (mktrack (eot t) v (heap t))
  | SNext p => let* s := rd t p in Done (wr t p (set_next s v))
  end.

(** [track_init], over a given storage. *)
Definition track_init (h : gmap nat seqev) : track :=
  mktrack (mkseqev 0 (mkev EV_NULL 0 0 0 0) None SFirst) (Some Eot) h.

(** [seqev_ins]. *)
Definition seqev_ins (pos se : sptr) (t : track) : outcome track :=
  let* p := rd t pos in
  let* s := rd t se in
  let t := wr t se (set_delta s (delta p)) in
  let* p := rd t pos in
  let t := wr t pos (set_delta p 0) in
  let* s := rd t se in
  let t := wr t se (set_next s (Some pos)) in
  let* p := rd t pos in
  let* s := rd t se in
  let t := wr t se (set_prev s (prev p)) in
  let* s := rd t se in
  let* t := store_slot t (prev s) (Some se) in
  let* p := rd t pos in
  Done (wr t pos (set_prev p (SNext se))).

(** [seqev_rm]; [debug] tells whether TRACK_DEBUG is defined. *)
Definition seqev_rm (debug : bool) (pos : sptr) (t : track) : outcome track :=
  let* p := rd t pos in
  if debug && evcmd_eqb (cmd (sev p)) EV_NULL then Panic
  else
    match next p with
    | None => Undefined
    | Some n =>
        let* nx := rd t n in
        let t := wr t n (set_delta nx (wrap32 (delta nx + delta p))) in
        let* p := rd t pos in
        let t := wr t pos (set_delta p 0) in
        let* p := rd t pos in
        let* t := store_slot t (prev p) (next p) in
        let* p := rd t pos in
        match next p with
        | None => Undefined
        | Some n =>
            let* nx := rd t n in
            Done (wr t n (set_prev nx (prev p)))
        end
    end.

(** The traversal [for (i = o->first; i != NULL; i = i->next)] shared by
    [track_numev], [track_numtic] and [track_dump], with the events it
    visits.  A chain without cycle visits at most the pool entries of
    the storage and the sentinel. *)
Fixpoint walk (n : nat) (t : track) (i : option sptr) : outcome (list sptr) :=
  match i with
  | None => Done []
  | Some p =>
      match n with
      | O => Diverge
      | S n' =>
          let* s := rd t p in
          let* r := walk n' t (next s) in
          Done (p :: r)
      end
  end.

Definition track_walk (t : track) : outcome (list sptr) :=
  walk (S (size (heap t))) t (first t).

(** [track_numtic]. *)
Fixpoint numtic_loop (n : nat) (t : track) (i : option sptr) (ntics : Z)
  : outcome Z :=
  match i with
  | None => Done ntics
  | Some p =>
      match n with
      | O => Diverge
      | S n' =>
          let* s := rd t p in
          numtic_loop n' t (next s) (wrap32 (ntics + delta s))
      end
  end.

Definition track_numtic (t : track) : outcome Z :=
  numtic_loop (S (size (heap t))) t (first t) 0.

(** ** The shape of a track

    A track is described by the list of its events before the sentinel,
    each with its address, delta and event, and by the delta of the
    sentinel. *)
Definition item : Type := nat * Z * ev.
Definition addrs (l : list item) : list nat := map (fun x => fst (fst x)) l.
Definition deltas (l : list item) : list Z := map (fun x => snd (fst x)) l.

(** The pointer to the first event of [l], the sentinel if there is none. *)
Definition head_ptr (l : list item) : sptr :=
  match l with
  | [] => Eot
  | (a, _, _) :: _ => Node a
  end.

(** [lseg t sl p l sl' q]: starting at the pointer [p] held by the slot
    [sl], the events of [l] follow each other, every [prev] naming the
    slot that holds the pointer to its event; the last slot [sl'] holds
    [q]. *)
Fixpoint lseg (t : track) (sl : slot) (p : option sptr) (l : list item)
    (sl' : slot) (q : option sptr) : Prop :=
  match l with
  | [] => p = q /\ sl = sl'
  | (a, d, e) :: l' =>
      p = Some (Node a) /\
      exists s, heap t !! a = Some s /\ delta s = d /\ sev s = e /\
                prev s = sl /\ lseg t (SNext (Node a)) (next s) l' sl' q
  end.

(** [seg t sl p l de]: a segment that ends in the sentinel, which is last
    (its [next] is NULL), is linked back to the last slot and has delta
    [de]. *)
Definition seg (t : track) (sl : slot) (p : option sptr) (l : list item)
    (de : Z) : Prop :=
  exists sl', lseg t sl p l sl' (Some Eot) /\
              next (eot t) = None /\ prev (eot t) = sl' /\ delta (eot t) = de.

(** [is_track t l de]: from [first] the events of [l] follow each other
    at distinct addresses and end in the sentinel. *)
Definition is_track (t : track) (l : list item) (de : Z) : Prop :=
  NoDup (addrs l) /\ seg t SFirst (first t) l de.

(** The delta of the event [head_ptr l] points to. *)
Definition head_delta (l : list item) (de : Z) : Z :=
  match l with
  | [] => de
  | (_, d, _) :: _ => d
  end.

(** The list after the delta of its first event was set to [d]. *)
Definition set_head (d : Z) (l : list item) : list item :=
  match l with
  | [] => []
  | (a, _, e) :: l' => (a, d, e) :: l'
  end.

(** The delta of the sentinel after the delta of the event [head_ptr l]
    points to was set to [d]. *)
Definition eot_delta (l : list item) (d de : Z) : Z :=
  match l with
  | [] => d
  | _ => de
  end.

(** The list after the delta [d] was added to its first event. *)
Definition bump (d : Z) (l : list item) : list item :=
  set_head (wrap32 (head_delta l 0 + d)) l.

(** The list after the delta of its first event was cleared. *)
Definition zero (l : list item) : list item := set_head 0 l.

(** The total the loop of [track_numtic] computes on such a track. *)
Definition total (l : list item) (de : Z) : Z :=
  wrap32 (fold_right Z.add 0 (deltas l) + de).

(** A track with two notes, at addresses 1 and 2; address 3 holds an
    event that is not linked yet. *)
Definition sample_heap : gmap nat seqev :=
  <[1%nat := mkseqev 10 (note_on 60 100) (Some (Node 2)) SFirst]>
  (<[2%nat := mkseqev 20 (note_off 60 0) (Some Eot) (SNext (Node 1))]>
  (<[3%nat := mkseqev 0 (note_on 64 90) None SFirst]> ∅)).

Definition sample_track : track :=
  mktrack (mkseqev 30 (mkev EV_NULL 0 0 0 0) None (SNext (Node 2)))
          (Some (Node 1)) sample_heap.

Definition sample_items : list item :=
  [(1%nat, 10, note_on 60 100); (2%nat, 20, note_off 60 0)].

(** [track_isempty]. *)
Definition track_isempty (t : track) : outcome bool :=
  match first t with
  | None => Undefined
  | Some p =>
      let* s := rd t p in
      Done (evcmd_eqb (cmd (sev s)) EV_NULL && (delta s =? 0))
  end.

(** [track_chomp]. *)
Definition track_chomp (t : track) : track :=
  wr t Eot (set_delta (eot t) 0).

(** [track_shift]. *)
Definition track_shift (ntics : Z) (t : track) : outcome track :=
  match first t with
  | None => Undefined
  | Some p =>
      let* s := rd t p in
      Done (wr t p (set_delta s (wrap32 (delta s + ntics))))
  end.

(** [seqev_avail]. *)
Definition seqev_avail (pos : sptr) (t : track) : outcome bool :=
  let* s := rd t pos in
  Done (negb (evcmd_eqb (cmd (sev s)) EV_NULL)).

(** The loop [for (i = o->first; i != NULL; i = i->next)] with a body that
    updates a counter from the delta and the event at hand. *)
Fixpoint for_events (body : Z -> ev -> Z -> Z) (n : nat) (t : track)
    (i : option sptr) (acc : Z) : outcome Z :=
  match i with
  | None => Done acc
  | Some p =>
      match n with
      | O => Diverge
      | S n' =>
          let* s := rd t p in
          for_events body n' t (next s) (body (delta s) (sev s) acc)
      end
  end.

(** [track_numev]. *)
Definition track_numev (t : track) : outcome Z :=
  for_events (fun _ _ n => wrap32 (n + 1)) (S (size (heap t))) t (first t) 0.

(** [track_evcnt]. *)
Definition track_evcnt (c : evcmd) (t : track) : outcome Z :=
  for_events (fun _ e cnt => if evcmd_eqb (cmd e) c then wrap32 (cnt + 1)
                             else cnt)
             (S (size (heap t))) t (first t) 0.

(** [seqev_del] on an event of a track: the entry goes back to
    [seqev_pool] and what it held is lost.  The second component lists
    the entries given back so far, oldest first. *)
Definition seqev_del (a : nat) (st : track * list nat) : track * list nat :=
  (mktrack (eot (fst st)) (first (fst st)) (delete a (heap (fst st))),
   snd st ++ [a]).

(** The loop [for (i = o->first; i != &o->eot; i = inext)] of
    [track_clear] and [track_done]. *)
Fixpoint clear_loop (n : nat) (i : option sptr) (st : track * list nat)
  : outcome (track * list nat) :=
  match i with
  | None => Undefined
  | Some Eot => Done st
  | Some (Node a) =>
      match n with
      | O => Diverge
      | S n' =>
          let* s := rd (fst st) (Node a) in
          clear_loop n' (next s) (seqev_del a st)
      end
  end.

(** [track_clear]. *)
Definition track_clear (st : track * list nat) : outcome (track * list nat) :=
  let* st := clear_loop (size (heap (fst st))) (first (fst st)) st in
  let t := wr (fst st) Eot (set_delta (eot (fst st)) 0) in
  let t := wr t Eot (set_prev (eot t) SFirst) in
  Done (mktrack (eot t) (Some Eot) (heap t), snd st).

(** [track_done], without TRACK_DEBUG. *)
Definition track_done (st : track * list nat) : outcome (track * list nat) :=
  clear_loop (size (heap (fst st))) (first (fst st)) st.

(** The number of events of [l] with the command [c]. *)
Definition count_cmd (c : evcmd) (l : list item) : nat :=
  length (List.filter (fun x => evcmd_eqb (cmd (snd x)) c) l).

End Track.

(** * mux.c *)
Module Mux.

(** Modelled from the spec: the phase constants of mux.h, which is not
    among the sources.  They are numbered in the order of the cycle of the
    timer, STARTWAIT, START, FIRST_TIC, NEXT_TIC, STOP, on which the
    comparisons of mux.c rely ("any phase at or past START" is
    [MUX_START <= phase], "not stopped" is [phase < MUX_STOP]). *)
Definition MUX_STARTWAIT : Z := 0.
Definition MUX_START : Z := 1.
Definition MUX_FIRST : Z := 2.
Definition MUX_NEXT : Z := 3.
Definition MUX_STOP : Z := 4.

(** Constants of mux.c, defs.h and mididev.h. *)
Definition MUX_START_DELAY : Z := 24000000 / 3.
Definition TEMPO_TO_USEC24 (tempo tpb : Z) : Z := 60 * 24000000 / (tempo * tpb).
Definition DEFAULT_TEMPO : Z := 120.
Definition DEFAULT_TPB : Z := 24.
Definition DEFAULT_TPU : Z := 96.
Definition DEFAULT_USEC24 : Z := TEMPO_TO_USEC24 DEFAULT_TEMPO DEFAULT_TPB.
Definition LOC_MTC : Z := 1.
Definition MIDIDEV_OSENSTO : Z := 250 * 24 * 1000.
Definition MIDIDEV_ISENSTO : Z := 350 * 24 * 1000.

Definition mmc_start : list Z := [0xf0; 0x7f; 0x7f; 0x06; 0x02; 0xf7].
Definition mmc_stop : list Z := [0xf0; 0x7f; 0x7f; 0x06; 0x01; 0xf7].

(** [struct mididev], as far as mux.c reads and writes it.  [imtc_timo]
    is [imtc.timo]; [out] is the stream of bytes handed to the device,
    oldest first. *)
Record mididev : Type := mkdev {
  unit : Z;
  ticrate : Z;
  ticdelta : Z;
  sendclk : Z;
  sendmmc : Z;
  isensto : Z;
  osensto : Z;
  imtc_timo : Z;
  out : list Z
}.

Definition set_ticdelta (d : mididev) (v : Z) : mididev :=
  mkdev (unit d) (ticrate d) v (sendclk d) (sendmmc d) (isensto d)
        (osensto d) (imtc_timo d) (out d).
Definition set_isensto (d : mididev) (v : Z) : mididev :=
  mkdev (unit d) (ticrate d) (ticdelta d) (sendclk d) (sendmmc d) v
        (osensto d) (imtc_timo d) (out d).
Definition set_osensto (d : mididev) (v : Z) : mididev :=
  mkdev (unit d) (ticrate d) (ticdelta d) (sendclk d) (sendmmc d) (isensto d)
        v (imtc_timo d) (out d).
Definition set_imtc_timo (d : mididev) (v : Z) : mididev :=
  mkdev (unit d) (ticrate d) (ticdelta d) (sendclk d) (sendmmc d) (isensto d)
        (osensto d) v (out d).

(** Modelled from the spec: the output routines of mididev.c, which is
    not among the sources.  Each hands the device the bytes of the MIDI
    1.0 message the spec names: clock 0xF8, start 0xFA, stop 0xFC, active
    sensing 0xFE, or the raw bytes given; flushing does not change the
    stream of bytes handed over. *)
Definition mididev_sendraw (d : mididev) (buf : list Z) : mididev :=
  mkdev (unit d) (ticrate d) (ticdelta d) (sendclk d) (sendmmc d) (isensto d)
        (osensto d) (imtc_timo d) (out d ++ buf).
Definition mididev_puttic (d : mididev) : mididev := mididev_sendraw d [0xf8].
Definition mididev_putstart (d : mididev) : mididev := mididev_sendraw d [0xfa].
Definition mididev_putstop (d : mididev) : mididev := mididev_sendraw d [0xfc].
Definition mididev_putack (d : mididev) : mididev := mididev_sendraw d [0xfe].
Definition mididev_flush (d : mididev) : mididev := d.

(** The globals of mux.c that make up the transport. *)
Record transport : Type := mktransport {
  mux_ticrate : Z;
  mux_ticlength : Z;
  mux_curpos : Z;
  mux_nextpos : Z;
  mux_curtic : Z;
  mux_phase : Z;
  mux_reqphase : Z;
  mux_manualstart : Z;
  mux_wallclock : Z
}.

Definition set_ticlength (g : transport) (v : Z) : transport :=
  mktransport (mux_ticrate g) v (mux_curpos g) (mux_nextpos g) (mux_curtic g)
              (mux_phase g) (mux_reqphase g) (mux_manualstart g) (mux_wallclock g).
Definition set_curpos (g : transport) (v : Z) : transport :=
  mktransport (mux_ticrate g) (mux_ticlength g) v (mux_nextpos g) (mux_curtic g)
              (mux_phase g) (mux_reqphase g) (mux_manualstart g) (mux_wallclock g).
Definition set_nextpos (g : transport) (v : Z) : transport :=
  mktransport (mux_ticrate g) (mux_ticlength g) (mux_curpos g) v (mux_curtic g)
              (mux_phase g) (mux_reqphase g) (mux_manualstart g) (mux_wallclock g).
Definition set_curtic (g : transport) (v : Z) : transport :=
  mktransport (mux_ticrate g) (mux_ticlength g) (mux_curpos g) (mux_nextpos g) v
              (mux_phase g) (mux_reqphase g) (mux_manualstart g) (mux_wallclock g).
Definition set_phase (g : transport) (v : Z) : transport :=
  mktransport (mux_ticrate g) (mux_ticlength g) (mux_curpos g) (mux_nextpos g)
              (mux_curtic g) v (mux_reqphase g) (mux_manualstart g) (mux_wallclock g).
Definition set_reqphase (g : transport) (v : Z) : transport :=
  mktransport (mux_ticrate g) (mux_ticlength g) (mux_curpos g) (mux_nextpos g)
              (mux_curtic g) (mux_phase g) v (mux_manualstart g) (mux_wallclock g).
Definition set_manualstart (g : transport) (v : Z) : transport :=
  mktransport (mux_ticrate g) (mux_ticlength g) (mux_curpos g) (mux_nextpos g)
              (mux_curtic g) (mux_phase g) (mux_reqphase g) v (mux_wallclock g).
Definition set_wallclock (g : transport) (v : Z) : transport :=
  mktransport (mux_ticrate g) (mux_ticlength g) (mux_curpos g) (mux_nextpos g)
              (mux_curtic g) (mux_phase g) (mux_reqphase g) (mux_manualstart g) v.

(** Calls into the song (the collaborator that plays and records), in the
    order they are made. *)
Inductive songcb : Type :=
| song_startcb
| song_movecb
| song_stopcb
| song_gotocb (how pos : Z).

(** Other calls out of mux.c: the timeout queue, the MTC parser, the
    console. *)
Inductive syscall : Type :=
| timo_update (delta : Z)
| mtc_timo (unit : Z)
| cons_erru (unit : Z).

(** The state mux.c works on: its globals, the device list with the two
    distinguished devices (named by their position in the list, [None]
    being NULL), and the calls made so far. *)
Record mux : Type := mkmux {
  globals : transport;
  mididev_list : list mididev;
  mididev_clksrc : option nat;
  mididev_mtcsrc : option nat;
  song : list songcb;
  sys : list syscall
}.

Definition set_globals (s : mux) (g : transport) : mux :=
  mkmux g (mididev_list s) (mididev_clksrc s) (mididev_mtcsrc s) (song s) (sys s).
Definition set_devs (s : mux) (l : list mididev) : mux :=
  mkmux (globals s) l (mididev_clksrc s) (mididev_mtcsrc s) (song s) (sys s).
Definition call_song (s : mux) (c : songcb) : mux :=
  mkmux (globals s) (mididev_list s) (mididev_clksrc s) (mididev_mtcsrc s)
        (song s ++ [c]) (sys s).
Definition call_sys (s : mux) (c : syscall) : mux :=
  mkmux (globals s) (mididev_list s) (mididev_clksrc s) (mididev_mtcsrc s)
        (song s) (sys s ++ [c]).

(** [i != mididev_clksrc] for the device at position [i]. *)
Definition is_clksrc (s : mux) (i : nat) : bool :=
  match mididev_clksrc s with
  | Some c => Nat.eqb c i
  | None => false
  end.

(** The test [i->sendclk && i != mididev_clksrc]. *)
Definition sends_clock (s : mux) (i : nat) (d : mididev) : bool :=
  negb (sendclk d =? 0) && negb (is_clksrc s i).

(** A [for] loop over the device list whose body works on the device at
    hand only; [i] is the position of the head of [l]. *)
Fixpoint for_devs (f : nat -> mididev -> outcome mididev) (i : nat)
    (l : list mididev) : outcome (list mididev) :=
  match l with
  | [] => Done []
  | d :: l' =>
      let* d' := f i d in
      let* r := for_devs f (S i) l' in
      Done (d' :: r)
  end.

(** [mux_chgphase]. *)
Definition mux_chgphase (ph : Z) (s : mux) : mux :=
  set_globals s (set_phase (globals s) ph).

(** The [while] loop of [mux_sendtic] on one device.  With a tick rate of
    1 or more it exits after at most [ticdelta] rounds. *)
Fixpoint sendtic_loop (n : nat) (rate : Z) (d : mididev) : outcome mididev :=
  if rate <=? ticdelta d then
    match n with
    | O => Diverge
    | S n' =>
        sendtic_loop n' rate
          (set_ticdelta (mididev_puttic d) (wrap32 (ticdelta d - rate)))
    end
  else Done d.

(** [mux_sendtic]. *)
Definition mux_sendtic (s : mux) : outcome mux :=
  let* l :=
    for_devs (fun i d =>
      if sends_clock s i d then
        let* d := sendtic_loop (Z.to_nat (ticdelta d))
                               (mux_ticrate (globals s)) d in
        Done (set_ticdelta d (wrap32 (ticdelta d + ticrate d)))
      else Done d) 0 (mididev_list s) in
  Done (set_devs s l).

(** [mux_sendstart]. *)
Definition mux_sendstart (s : mux) : mux :=
  set_devs s
    (imap (fun i d =>
       if sends_clock s i d then
         mididev_putstart (mididev_puttic (set_ticdelta d (ticrate d)))
       else d) (mididev_list s)).

(** [mux_sendstop]. *)
Definition mux_sendstop (s : mux) : mux :=
  set_devs s
    (imap (fun i d => if sends_clock s i d then mididev_putstop d else d)
          (mididev_list s)).

(** [mux_flush]. *)
Definition mux_flush (s : mux) : mux :=
  set_devs s (map mididev_flush (mididev_list s)).

(** The loops that send an MMC message to the devices with [sendmmc]. *)
Definition send_mmc (msg : list Z) (s : mux) : mux :=
  set_devs s
    (map (fun d => if sendmmc d =? 0 then d else mididev_sendraw d msg)
         (mididev_list s)).

(** The device [mididev_clksrc] points to. *)
Definition clksrc_dev (s : mux) : option (nat * outcome mididev) :=
  match mididev_clksrc s with
  | None => None
  | Some c =>
      Some (c, match mididev_list s !! c with
               | Some d => Done d
               | None => Undefined
               end)
  end.

(** The body of the [for (;;)] of [mux_ticcb] between its two tests of
    the clock source. *)
Definition ticcb_body (s : mux) : outcome mux :=
  let g := globals s in
  let s :=
    if mux_phase g =? MUX_FIRST then mux_chgphase MUX_NEXT s
    else if mux_phase g =? MUX_START then
      mux_chgphase MUX_FIRST
        (set_globals s (set_nextpos (set_curpos g 0) (mux_ticlength g)))
    else s in
  let g := globals s in
  if mux_phase g =? MUX_NEXT then
    let s := set_globals s (set_curtic g (wrap32 (mux_curtic g + 1))) in
    let* s := mux_sendtic s in
    Done (call_song s song_movecb)
  else if mux_phase g =? MUX_FIRST then
    let s := set_globals s (set_curtic g 0) in
    let* s := mux_sendtic s in
    Done (call_song s song_startcb)
  else Done s.

(** The [for (;;)] of [mux_ticcb]. *)
Fixpoint ticcb_loop (n : nat) (s : mux) : outcome mux :=
  match clksrc_dev s with
  | None => ticcb_body s
  | Some (c, r) =>
      let* d := r in
      if ticdelta d <? ticrate d then
        Done (set_devs s
                (<[c := set_ticdelta d
                          (wrap32 (ticdelta d + mux_ticrate (globals s)))]>
                   (mididev_list s)))
      else
        let* s := ticcb_body s in
        match mididev_list s !! c with
        | None => Undefined
        | Some d =>
            let s := set_devs s
                       (<[c := set_ticdelta d (wrap32 (ticdelta d - ticrate d))]>
                          (mididev_list s)) in
            match n with
            | O => Diverge
            | S n' => ticcb_loop n' s
            end
        end
  end.

(** [mux_ticcb].  A clock source with a tick rate of 1 or more leaves the
    loop after at most [ticdelta] rounds. *)
Definition mux_ticcb (s : mux) : outcome mux :=
  ticcb_loop
    (match clksrc_dev s with
     | Some (_, Done d) => Z.to_nat (ticdelta d)
     | _ => O
     end) s.

(** The [while] loop of [mux_mtctick]. *)
Fixpoint mtctick_loop (n : nat) (s : mux) : outcome mux :=
  let g := globals s in
  if mux_nextpos g <=? mux_curpos g then
    match n with
    | O => Diverge
    | S n' =>
        let g := set_curpos g (wrap64 (mux_curpos g - mux_nextpos g)) in
        let g := set_nextpos g (mux_ticlength g) in
        let s := set_globals s g in
        let* s :=
          if (mux_manualstart g =? 0) || negb (mux_phase g =? MUX_START)
          then mux_ticcb s
          else Done s in
        mtctick_loop n' s
    end
  else Done s.

(** [mux_mtctick].  The parameter is an [unsigned]: of the [unsigned long]
    that [mux_timercb] passes, the low 32 bits arrive.  With a tick length
    of 1 or more the loop exits after at most [1 + curpos / ticlength]
    rounds. *)
Definition mux_mtctick (delta : Z) (s : mux) : outcome mux :=
  let delta := wrap32 delta in
  let g := globals s in
  let g := set_curpos g (wrap64 (mux_curpos g + delta)) in
  mtctick_loop (S (Z.to_nat (mux_curpos g / mux_ticlength g)))
               (set_globals s g).

(** [mux_stopcb]. *)
Definition mux_stopcb (s : mux) : mux :=
  let g := globals s in
  let s :=
    if (MUX_START <=? mux_phase g) && (mux_phase g <=? MUX_NEXT)
    then mux_sendstop s else s in
  let s := mux_chgphase (mux_reqphase (globals s)) s in
  let s := call_song s song_stopcb in
  mux_flush s.

(** [mux_mtcstop]. *)
Definition mux_mtcstop (s : mux) : mux :=
  match mididev_clksrc s with
  | Some _ => s
  | None =>
      if MUX_START <=? mux_phase (globals s) then mux_stopcb s else s
  end.

(** [mux_startcb]. *)
Definition mux_startcb (s : mux) : mux :=
  let g := globals s in
  if negb (mux_phase g =? MUX_STARTWAIT) then s
  else
    let s :=
      match mididev_clksrc s with
      | Some _ =>
          call_song
            (set_globals s (set_nextpos (set_curpos g 0) (mux_ticlength g)))
            (song_gotocb LOC_MTC 0)
      | None => s
      end in
    let s := mux_chgphase MUX_START s in
    let s := mux_sendstart s in
    mux_flush s.

Section WithSong.
(** What [song_gotocb] returns for a way of locating and a position. *)
Variable song_goto : Z -> Z -> Z.

(** [mux_mtcstart]. *)
Definition mux_mtcstart (mtcpos : Z) (s : mux) : outcome mux :=
  let g := globals s in
  let s :=
    if (MUX_START <=? mux_phase g) && (mux_phase g <=? MUX_NEXT)
    then mux_mtcstop s else s in
  let g := globals s in
  if mux_phase g =? MUX_STOP then Done s
  else
    let* s :=
      match mididev_mtcsrc s with
      | Some _ =>
          let s := call_song s (song_gotocb LOC_MTC mtcpos) in
          let g := set_curpos g (wrap64 (song_goto LOC_MTC mtcpos)) in
          let g := set_nextpos g (mux_ticlength g) in
          if mux_nextpos g <=? mux_curpos g then Panic
          else Done (set_globals s g)
      | None => Done s
      end in
    Done (mux_startcb s).

(** [mux_startreq]. *)
Definition mux_startreq (manualstart : Z) (s : mux) : outcome mux :=
  let g := set_manualstart (globals s) (wrap32 manualstart) in
  let g := set_reqphase g MUX_STARTWAIT in
  let s := set_globals s g in
  if negb (mux_phase g =? MUX_STOP) then Panic
  else
    let s := mux_chgphase MUX_STARTWAIT s in
    let g := globals s in
    let* s :=
      match mididev_clksrc s, mididev_mtcsrc s with
      | None, None =>
          mux_mtcstart 0xdeadbeef
            (set_globals s (set_nextpos (set_curpos g 0) MUX_START_DELAY))
      | _, _ =>
          Done (set_globals s (set_nextpos (set_curpos g 0) (mux_ticlength g)))
      end in
    Done (send_mmc mmc_start s).

End WithSong.

(** [mux_stopreq]. *)
Definition mux_stopreq (s : mux) : mux :=
  let s := set_globals s (set_reqphase (globals s) MUX_STOP) in
  let s := if mux_phase (globals s) <? MUX_STOP then mux_stopcb s else s in
  send_mmc mmc_stop s.

(** [mux_chgtempo]. *)
Definition mux_chgtempo (ticlength : Z) (s : mux) : mux :=
  let g := globals s in
  let g :=
    if (mux_phase g =? MUX_FIRST) || (mux_phase g =? MUX_NEXT) then
      let g := set_nextpos g (wrap64 (mux_nextpos g + ticlength)) in
      set_nextpos g (wrap64 (mux_nextpos g - mux_ticlength g))
    else g in
  set_globals s (set_ticlength g ticlength).

(** The statements of [mux_timercb] on the sensing and MTC timers of the
    device [d].  As the braces of the source stand, the block on
    [imtc.timo] lies inside [if (dev->osensto)]. *)
Definition timercb_sensing (delta : Z) (d : mididev) : mididev * list syscall :=
  let '(d, log1) :=
    if negb (isensto d =? 0) then
      if isensto d <=? delta then (set_isensto d 0, [cons_erru (unit d)])
      else (set_isensto d (wrap32 (isensto d - delta)), [])
    else (d, []) in
  if negb (osensto d =? 0) then
    let d :=
      if osensto d <=? delta then
        set_osensto (mididev_flush (mididev_putack d)) MIDIDEV_OSENSTO
      else set_osensto d (wrap32 (osensto d - delta)) in
    if negb (imtc_timo d =? 0) then
      if imtc_timo d <=? delta then
        (set_imtc_timo d 0, log1 ++ [mtc_timo (unit d)])
      else (set_imtc_timo d (wrap32 (imtc_timo d - delta)), log1)
    else (d, log1)
  else (d, log1).

(** The last block of [mux_timercb]: the internal clock. *)
Definition timercb_clock (delta : Z) (s : mux) : outcome mux :=
  match mididev_mtcsrc s, mididev_clksrc s with
  | None, None =>
      let g := globals s in
      if mux_phase g =? MUX_STARTWAIT then
        if mux_manualstart g =? 0 then Panic else Done s
      else if mux_phase g =? MUX_START then
        let g := set_curpos g (wrap64 (mux_curpos g + delta)) in
        if mux_nextpos g <=? mux_curpos g then
          mux_mtctick 0 (set_globals s (set_nextpos (set_curpos g 0) 0))
        else Done (set_globals s g)
      else if (mux_phase g =? MUX_FIRST) || (mux_phase g =? MUX_NEXT) then
        mux_mtctick delta s
      else Done s
  | _, _ => Done s
  end.

(** The [for] loop of [mux_timercb] from the device at position [i], with
    [n] devices left.  As the braces of the source stand, the loop is
    closed by the last brace of the function text, so that the block on
    the internal clock is part of its body and runs once for every
    device. *)
Fixpoint timercb_loop (delta : Z) (n i : nat) (s : mux) : outcome mux :=
  match n with
  | O => Done s
  | S n' =>
      match mididev_list s !! i with
      | None => Undefined
      | Some d =>
          let '(d, log) := timercb_sensing delta d in
          let s := set_devs s (<[i := d]> (mididev_list s)) in
          let s := fold_left call_sys log s in
          let* s := timercb_clock delta s in
          timercb_loop delta n' (S i) s
      end
  end.

(** [mux_timercb]. *)
Definition mux_timercb (delta : Z) (s : mux) : outcome mux :=
  let s := set_globals s
             (set_wallclock (globals s)
                            (wrap64 (mux_wallclock (globals s) + delta))) in
  let s := call_sys s (timo_update (wrap32 delta)) in
  timercb_loop delta (length (mididev_list s)) 0 s.

(** A sequence of calls of [mux_timercb]. *)
Fixpoint timer_run (deltas : list Z) (s : mux) : outcome mux :=
  match deltas with
  | [] => Done s
  | delta :: r => let* s := mux_timercb delta s in timer_run r s
  end.

(** The state [mux_open] leaves behind for a list of devices (each as
    [mididev_open] leaves it) and the two distinguished devices. *)
Definition mux_open (devs : list mididev) (clksrc mtcsrc : option nat) : mux :=
  mkmux
    (mktransport DEFAULT_TPU (TEMPO_TO_USEC24 DEFAULT_TEMPO DEFAULT_TPB)
                 0 0 0 MUX_STOP MUX_STOP 1 0)
    (map (fun d => set_osensto (set_isensto (set_ticdelta d (ticrate d)) 0)
                               MIDIDEV_OSENSTO) devs)
    clksrc mtcsrc [] [].

(** A plain output device that sends MIDI clock. *)
Definition clock_dev (u : Z) : mididev := mkdev u 96 0 1 0 0 0 0 [].

(** A run on an external clock: device 0 is the clock source, device 1
    sends clock; a start is requested, then the MIDI start and two ticks
    of the clock source arrive. *)
Definition external_clock_run : outcome mux :=
  let* s := mux_startreq (fun _ _ => 0) 0
              (mux_open [clock_dev 0; clock_dev 1] (Some 0%nat) None) in
  let* s := mux_ticcb (mux_startcb s) in
  mux_ticcb s.

(** The accumulated delta of a sequence of timer calls. *)
Definition sumZ (l : list Z) : Z := fold_right Z.add 0 l.

(** A device whose MTC parser is idle and whose tick counters are in the
    range of [unsigned]. *)
Definition dev_ok (d : mididev) : Prop :=
  imtc_timo d = 0 /\ 0 <= ticdelta d < UINT_MOD /\ 0 <= ticrate d < UINT_MOD.

(** [internal_clock T s]: the transport runs on the internal timer, with
    no clock source and no MTC source, one registered device whose MTC
    parser is idle, a tick length [T] and a tick rate of 1 or more. *)
Definition internal_clock (T : Z) (s : mux) : Prop :=
  mididev_clksrc s = None /\
  mididev_mtcsrc s = None /\
  (exists d, mididev_list s = [d] /\ dev_ok d) /\
  mux_ticlength (globals s) = T /\
  0 < T < 2 ^ 63 /\
  0 < mux_ticrate (globals s).

(** [n] calls of [mux_sendtic] in a row. *)
Fixpoint sendtics (n : nat) (s : mux) : outcome mux :=
  match n with
  | O => Done s
  | S n' => let* s := mux_sendtic s in sendtics n' s
  end.

(** The device [d] with its tick counter set to [delta] and the bytes
    [bytes] handed over. *)
Definition with_clock (d : mididev) (delta : Z) (bytes : list Z) : mididev :=
  mkdev (unit d) (ticrate d) delta (sendclk d) (sendmmc d) (isensto d)
        (osensto d) (imtc_timo d) (out d ++ bytes).

(** What [n + 1] calls of [mux_sendtic] make of the device [d] at the
    position [i]: a device that is sent the clock has received one clock
    byte for every [mux_ticrate] units that its counter gathered, at
    [ticrate] units a call. *)
Definition after_tics (s : mux) (n i : nat) (d : mididev) : mididev :=
  if sends_clock s i d then
    with_clock d
      ((ticdelta d + Z.of_nat n * ticrate d) mod mux_ticrate (globals s)
       + ticrate d)
      (repeat 0xf8
         (Z.to_nat ((ticdelta d + Z.of_nat n * ticrate d)
                    / mux_ticrate (globals s))))
  else d.

(** The counters of a device are within the range in which the sums of
    [mux_sendtic] do not wrap. *)
Definition clock_ok (d : mididev) : Prop :=
  0 <= ticdelta d < UINT_MOD /\ 0 <= ticrate d < 2 ^ 31.

(** A device that sends clock, at a quarter of the rate of the
    sequencer. *)
Definition slow_dev (u : Z) : mididev := mkdev u 24 0 1 1 0 0 0 [].

(** Constants of defs.h used by [mux_gotoreq]. *)
Definition MTC_SEC : Z := 2400.
Definition MTC_PERIOD : Z := 24 * 60 * 60 * MTC_SEC.
Definition DEFAULT_FPS : Z := 25.
Definition FPS_ID : Z := Z.shiftl 1 5.

(** The conversion of a value to [unsigned char]. *)
Definition to_uchar (x : Z) : Z := x mod 256.

(** The message [mmc_reloc] that [mux_gotoreq] builds for a position. *)
Definition mmc_reloc (mmcpos : Z) : list Z :=
  [0xf0; 0x7f; 0x7f; 0x06; 0x44; 0x06; 0x01;
   to_uchar (Z.lor ((mmcpos / (3600 * MTC_SEC)) mod 24) FPS_ID);
   to_uchar ((mmcpos / (60 * MTC_SEC)) mod 60);
   to_uchar ((mmcpos / MTC_SEC) mod 60);
   to_uchar ((mmcpos / (MTC_SEC / DEFAULT_FPS)) mod DEFAULT_FPS);
   0;
   0xf7].

(** [mux_gotoreq]. *)
Definition mux_gotoreq (mmcpos : Z) (s : mux) : mux :=
  send_mmc (mmc_reloc mmcpos) s.

(** [mux_chgticrate]. *)
Definition mux_chgticrate (tpu : Z) (s : mux) : mux :=
  set_globals s
    (mktransport tpu (mux_ticlength (globals s)) (mux_curpos (globals s))
                 (mux_nextpos (globals s)) (mux_curtic (globals s))
                 (mux_phase (globals s)) (mux_reqphase (globals s))
                 (mux_manualstart (globals s)) (mux_wallclock (globals s))).

(** [mux_getphase]. *)
Definition mux_getphase (s : mux) : Z := mux_phase (globals s).

(** Whether the sequencer runs on its own timer: there is neither a
    clock source nor an MTC source. *)
Definition on_internal_clock (s : mux) : bool :=
  match mididev_clksrc s, mididev_mtcsrc s with
  | None, None => true
  | _, _ => false
  end.

(** The device list after [k] calls of [mux_sendtic]. *)
Definition forwarded (s : mux) (k : nat) (l : list mididev) : list mididev :=
  match k with
  | O => l
  | S n => imap (after_tics s n) l
  end.

End Mux.

(** * mdep.c *)
Module Mdep.
Import Mux.

(** [struct timespec]. *)
Record timespec : Type := mktimespec {
  tv_sec : Z;
  tv_nsec : Z
}.

(** The time of a [struct timespec] in nanoseconds. *)
Definition nsec_of (ts : timespec) : Z := 1000000000 * tv_sec ts + tv_nsec ts.

(** What a wake-up of [mux_mdep_wait] does about the time when
    [mux_isopen] is set. *)
Inductive tick : Type :=
| Advance (delta : Z)
| Ignored (delta_nsec : Z)
| Stalled.

(** The part of [mux_mdep_wait] that advances the clock of the sequencer,
    for the time [ts] read from the monotonic clock and the global
    [ts_last]: it computes [delta_nsec] and gives the new value of
    [ts_last] and the call made: [mux_timercb(24 * delta_nsec / 1000)],
    the message about a huge delta, or nothing.  ([delta_nsec] is a
    [long long]; the time values are taken small enough for the sums not
    to overflow it.) *)
Definition elapsed (ts ts_last : timespec) : timespec * tick :=
  let delta_nsec := 1000000000 * (tv_sec ts - tv_sec ts_last) in
  let delta_nsec := delta_nsec + (tv_nsec ts - tv_nsec ts_last) in
  if 0 <? delta_nsec then
    if delta_nsec <? 1000000000
    then (ts, Advance (24 * delta_nsec / 1000))
    else (ts, Ignored delta_nsec)
  else (ts_last, Stalled).

(** That part of [mux_mdep_wait] on the state of mux.c. *)
Definition mdep_clock (ts ts_last : timespec) (s : mux)
  : outcome (timespec * mux) :=
  match elapsed ts ts_last with
  | (l, Advance delta) => let* s := mux_timercb delta s in Done (l, s)
  | (l, _) => Done (l, s)
  end.

(** A sequence of wake-ups, at the times [tss] read from the clock: the
    final [ts_last] and what each wake-up did. *)
Fixpoint wakeups (tss : list timespec) (ts_last : timespec)
  : timespec * list tick :=
  match tss with
  | [] => (ts_last, [])
  | ts :: r =>
      let '(l, k) := elapsed ts ts_last in
      let '(l', ks) := wakeups r l in
      (l', k :: ks)
  end.

(** The arguments of the calls of [mux_timercb] in a sequence of
    wake-ups, and the nanoseconds dropped as huge deltas. *)
Definition advances (ks : list tick) : list Z :=
  omap (fun k => match k with Advance d => Some d | _ => None end) ks.
Definition dropped (ks : list tick) : Z :=
  fold_right Z.add 0
    (omap (fun k => match k with Ignored d => Some d | _ => None end) ks).

End Mdep.

(** * Properties *)

(** ** pool.c *)
Section PoolFacts.
Import Pool.

Lemma round_itemsize_pos (sz : Z) :
  0 <= sz <= UINT_MOD - 4 -> 8 <= round_itemsize sz.
Proof.
  intros Hsz. unfold round_itemsize, sizeof_poolent, sizeof_unsigned, wrap32.
  unfold UINT_MOD in *.
  set (s := if sz <? 8 then 8 else sz).
  assert (Hs : 8 <= s <= 2 ^ 32 - 4) by (subst s; destruct (Z.ltb_spec sz 8); lia).
  rewrite Z.mod_small by lia.
  rewrite <- Z.ldiff_land.
  change (4 - 1) with (Z.ones 2).
  rewrite Z.ldiff_ones_r by lia.
  rewrite Z.shiftr_div_pow2, Z.shiftl_mul_pow2 by lia.
  change (2 ^ 2) with 4.
  pose proof (Z.div_mod (s + Z.ones 2) 4 ltac:(lia)) as Hdm.
  pose proof (Z.mod_pos_bound (s + Z.ones 2) 4 ltac:(lia)) as Hb.
  change (Z.ones 2) with 3 in *. lia.
Qed.

Lemma chain_frame (m : gmap Z (option Z)) h l p w :
  p ∉ l -> chain m h l -> chain (<[p := w]> m) h l.
Proof.
  revert h. induction l as [|q l IH]; intros h Hp Hc; simpl in *; [done|].
  destruct Hc as (-> & nx & Hq & Hc).
  apply not_elem_of_cons in Hp as [Hpq Hpl].
  split; [done|]. exists nx. split.
  - rewrite lookup_insert_ne; done.
  - by apply IH.
Qed.

Lemma chain_nil_iff (m : gmap Z (option Z)) h l :
  chain m h l -> (h = None <-> l = []).
Proof.
  destruct l; simpl.
  - intros ->. done.
  - intros (-> & _). split; discriminate.
Qed.

Lemma pool_init_loop_chain (i : nat) : forall p o fl,
  chain (data o) (first o) fl ->
  (forall q, q ∈ fl -> q < p) ->
  0 < itemsize o ->
  let o' := pool_init_loop i p o in
  itemsize o' = itemsize o /\
  exists fl', chain (data o') (first o') fl' /\
    fl' ≡ₚ map (fun j => p + Z.of_nat j * itemsize o) (seq 0 i) ++ fl.
Proof.
  induction i as [|i IH]; intros p o fl Hc Hlt Hs; simpl.
  - split; [done|]. by exists fl.
  - set (o1 := mkpool _ _ _ _).
    destruct (IH (p + itemsize o) o1 (p :: fl)) as (Hsz & fl' & Hch & Hperm).
    + simpl. split; [done|]. exists (first o). split.
      * apply lookup_insert_eq.
      * apply chain_frame; [|done]. intros Hin. apply Hlt in Hin. lia.
    + intros q Hq. apply elem_of_cons in Hq as [->|Hq]; [lia|].
      apply Hlt in Hq. lia.
    + done.
    + split; [done|]. exists fl'. split; [done|].
      rewrite Hperm. simpl itemsize.
      rewrite <- Permutation_middle.
      rewrite <- seq_shift, map_map.
      replace (p + Z.of_nat 0 * itemsize o) with p by (simpl; lia).
      apply perm_skip. apply Permutation_app_tail.
      erewrite map_ext; [reflexivity|]. intros j. simpl. lia.
Qed.

Lemma pool_init_chain (sz : Z) (cap : nat) :
  0 <= sz <= UINT_MOD - 4 ->
  let o := pool_init sz (Z.of_nat cap) in
  itemsize o = round_itemsize sz /\
  exists fl, chain (data o) (first o) fl /\ fl ≡ₚ slots (round_itemsize sz) cap.
Proof.
  intros Hsz. unfold pool_init. rewrite Nat2Z.id.
  pose proof (round_itemsize_pos sz Hsz) as Hpos.
  destruct (pool_init_loop_chain cap 0
              (mkpool ∅ None (Z.of_nat cap) (round_itemsize sz)) [])
    as (Hs & fl & Hc & Hp); simpl; try done.
  - intros q Hq. by apply elem_of_nil in Hq.
  - lia.
  - split; [done|]. exists fl. split; [done|].
    rewrite Hp, app_nil_r. unfold slots. simpl.
    erewrite map_ext; [reflexivity|]. intros j. simpl. lia.
Qed.

Lemma slots_NoDup (s : Z) (n : nat) : 0 < s -> NoDup (slots s n).
Proof.
  intros Hs. unfold slots. apply NoDup_fmap_2_strong; [|apply NoDup_seq].
  intros i j _ _ Heq. nia.
Qed.

Lemma pool_inv_NoDup s cap st :
  0 < s -> pool_inv s cap st ->
  exists fl, chain (data (fst st)) (first (fst st)) fl /\
             NoDup (fl ++ snd st) /\
             (length fl + length (snd st) = cap)%nat.
Proof.
  intros Hs (fl & Hc & Hp). exists fl. split; [done|]. split.
  - rewrite Hp. by apply slots_NoDup.
  - rewrite <- length_app, Hp. unfold slots. by rewrite length_map, length_seq.
Qed.

Lemma exec_op_inv s cap c st :
  0 < s -> pool_inv s cap st ->
  fits cap (length (snd st)) [c] = true ->
  exists st', exec_op c st = Done st' /\ pool_inv s cap st' /\
    length (snd st') =
      match c with
      | Acquire => S (length (snd st))
      | Release _ => pred (length (snd st))
      | Store _ _ => length (snd st)
      end.
Proof.
  intros Hs Hinv Hfit.
  destruct (pool_inv_NoDup s cap st Hs Hinv) as (fl0 & Hc0 & Hnd & Hlen).
  destruct Hinv as (fl & Hc & Hp). destruct st as [o live]. simpl in *.
  destruct c as [|k|k w]; cbn [fits] in Hfit;
    apply andb_true_iff in Hfit as [Hfit _]; apply Nat.ltb_lt in Hfit.
  - (* Acquire *)
    assert (Hlenfl : (length fl + length live = cap)%nat).
    { rewrite <- length_app, Hp. unfold slots.
      by rewrite length_map, length_seq. }
    destruct fl as [|e fl]; [simpl in Hlenfl; lia|].
    simpl in Hc. destruct Hc as (He & nx & Hnx & Hc).
    unfold pool_new. rewrite He, Hnx. simpl.
    eexists. split; [reflexivity|]. split; [|done].
    exists fl. simpl. split; [done|].
    rewrite <- Hp. simpl. symmetry. apply Permutation_middle.
  - (* Release *)
    destruct (lookup_lt_is_Some_2 live k Hfit) as [p Hk].
    rewrite Hk. eexists. split; [reflexivity|].
    assert (Hpl : p ∈ live) by (apply list_elem_of_lookup; eauto).
    assert (Hpfl : p ∉ fl).
    { intros Hin.
      pose proof (slots_NoDup s cap Hs) as Hnd'. rewrite <- Hp in Hnd'.
      apply NoDup_app in Hnd' as (_ & Hdis & _). by apply (Hdis p). }
    split.
    + exists (p :: fl). simpl. split.
      * split; [done|]. exists (first o). split; [apply lookup_insert_eq|].
        by apply chain_frame.
      * rewrite <- Hp.
        rewrite (delete_Permutation live k p Hk) at 2.
        by rewrite <- Permutation_middle.
    + simpl. rewrite length_delete; [lia| eauto].
  - (* Store *)
    destruct (lookup_lt_is_Some_2 live k Hfit) as [p Hk].
    rewrite Hk. eexists. split; [reflexivity|].
    assert (Hpl : p ∈ live) by (apply list_elem_of_lookup; eauto).
    assert (Hpfl : p ∉ fl).
    { intros Hin.
      pose proof (slots_NoDup s cap Hs) as Hnd'. rewrite <- Hp in Hnd'.
      apply NoDup_app in Hnd' as (_ & Hdis & _). by apply (Hdis p). }
    split; [|done]. exists fl. simpl. split; [|done].
    by apply chain_frame.
Qed.

Lemma exec_inv s cap prog : forall st,
  0 < s -> pool_inv s cap st ->
  fits cap (length (snd st)) prog = true ->
  exists st', exec prog st = Done st' /\ pool_inv s cap st'.
Proof.
  induction prog as [|c prog IH]; intros st Hs Hinv Hfit.
  - exists st. done.
  - assert (Hc : fits cap (length (snd st)) [c] = true /\
                 fits cap (match c with
                           | Acquire => S (length (snd st))
                           | Release _ => pred (length (snd st))
                           | Store _ _ => length (snd st)
                           end) prog = true).
    { destruct c; simpl in *; apply andb_true_iff in Hfit as [-> ->]; done. }
    destruct Hc as [Hc1 Hc2].
    destruct (exec_op_inv s cap c st Hs Hinv Hc1) as (st1 & He & Hinv1 & Hlen).
    rewrite <- Hlen in Hc2.
    destruct (IH st1 Hs Hinv1 Hc2) as (st' & He' & Hinv').
    exists st'. simpl. rewrite He. simpl. done.
Qed.

(** C9.  A client that starts from a freshly initialised pool of [cap]
    entries, releases and writes only entries it holds and never holds
    more than [cap] of them, runs to completion: no [pool_new] of the
    interleaving reaches [panic()].  The entries it then holds are pairwise
    distinct, a further [pool_new] succeeds and returns an entry distinct
    from all of them as long as fewer than [cap] are held, and [pool_new]
    panics exactly when the free list is empty, which here is exactly when
    [cap] entries are held. *)
Theorem pool_new_del_interleaving (sz : Z) (cap : nat) (prog : list op) :
  0 <= sz <= UINT_MOD - 4 ->
  Z.of_nat cap * round_itemsize sz < UINT_MOD ->
  fits cap 0 prog = true ->
  (forall o : pool, pool_new o = Panic <-> first o = None) /\
  exists o live,
    exec prog (pool_init sz (Z.of_nat cap), []) = Done (o, live) /\
    NoDup live /\
    (first o = None <-> length live = cap) /\
    ((length live < cap)%nat ->
       exists o' e, pool_new o = Done (o', e) /\ (e ∉ live) /\ NoDup (e :: live)).
Proof.
  intros Hsz _ Hfit. split.
  { intros o. unfold pool_new. destruct (first o) as [e|]; [|done].
    destruct (data o !! e); split; discriminate. }
  pose proof (round_itemsize_pos sz Hsz) as Hpos.
  assert (Hs : 0 < round_itemsize sz) by lia.
  destruct (pool_init_chain sz cap Hsz) as (_ & fl0 & Hc0 & Hp0).
  assert (Hinv0 : pool_inv (round_itemsize sz) cap
                    (pool_init sz (Z.of_nat cap), [])).
  { exists fl0. simpl. by rewrite app_nil_r. }
  destruct (exec_inv _ cap prog _ Hs Hinv0 Hfit) as ([o live] & He & Hinv).
  exists o, live. split; [done|].
  destruct (pool_inv_NoDup _ cap _ Hs Hinv) as (fl & Hc & Hnd & Hlen).
  simpl in *.
  pose proof (chain_nil_iff _ _ _ Hc) as Hnil.
  split; [by apply NoDup_app in Hnd as (_ & _ & ?)|]. split.
  - rewrite Hnil. split.
    + intros ->. simpl in Hlen. lia.
    + intros Hl. destruct fl; [done|]. simpl in Hlen. lia.
  - intros Hlt. destruct fl as [|e fl]; [simpl in Hlen; lia|].
    simpl in Hc. destruct Hc as (He1 & nx & Hnx & _).
    unfold pool_new. rewrite He1, Hnx. do 2 eexists. split; [done|].
    simpl in Hnd. apply NoDup_cons in Hnd as [Hnin Hnd].
    apply NoDup_app in Hnd as (_ & _ & Hndl).
    assert (e ∉ live) by (intros ?; apply Hnin, elem_of_app; by right).
    split; [done|]. by apply NoDup_cons.
Qed.

(** A client of a two-entry pool that recycles an entry after writing over
    the storage of the other. *)
Lemma pool_new_del_interleaving_witness :
  (forall o : pool, pool_new o = Panic <-> first o = None) /\
  exists o live,
    exec [Acquire; Acquire; Release 1; Store 0 (Some 12345); Acquire]
         (pool_init 40 (Z.of_nat 2), []) = Done (o, live) /\
    NoDup live /\
    (first o = None <-> length live = 2%nat) /\
    ((length live < 2)%nat ->
       exists o' e, pool_new o = Done (o', e) /\ (e ∉ live) /\ NoDup (e :: live)).
Proof.
  apply (pool_new_del_interleaving 40 2
           [Acquire; Acquire; Release 1; Store 0 (Some 12345); Acquire]).
  - unfold UINT_MOD. lia.
  - vm_compute. reflexivity.
  - reflexivity.
Defined.

End PoolFacts.

(** ** timo.c *)
Section TimoFacts.
Import Timo.
#[local] Transparent gmap_empty.

(** The signed difference of two instants taken modulo [2^32] is their
    distance, whatever the position of the wrap. *)
Lemma to_int_diff (x a b : Z) :
  - 2 ^ 31 <= a - b < 2 ^ 31 ->
  to_int (wrap32 (x + a) - wrap32 (x + b)) = a - b.
Proof.
  intros Hab. unfold to_int, wrap32, UINT_MOD.
  rewrite <- Zminus_mod.
  replace (x + a - (x + b)) with (a - b) by lia.
  destruct (Z.lt_ge_cases (a - b) 0) as [Hneg|Hpos].
  - replace ((a - b) mod 2 ^ 32) with (a - b + 2 ^ 32)
      by (apply Z.mod_unique with (-1); lia).
    destruct (Z.ltb_spec (a - b + 2 ^ 32) (2 ^ 31)); lia.
  - rewrite Z.mod_small by lia.
    destruct (Z.ltb_spec (a - b) (2 ^ 31)); lia.
Qed.

(** C7.  Timeouts are compared through the signed difference of their
    expiries modulo [2^32], so that scheduling and expiry work across the
    wrap of the clock.  Two timeouts scheduled [d1] and [d2] units (below
    [2^31]) after any instant [t0] of the 32-bit clock, in either order of
    the two [timo_add], and one [timo_update] of [delta] units (below
    [2^31]): the update returns; a timeout has fired, and has [set = 0],
    exactly if its delay is at most [delta]; the callbacks ran in the
    order of the delays, the one added first going first on a tie; the
    timeouts that are not due stay queued in that order with [set = 1].
    With [t0 = 2^32 - 1000], delays 500 and 1500 and [delta = 2000] both
    fire, the first before the second, and both end with [set = 0]. *)
Theorem timo_update_across_wrap (t0 d1 d2 delta : Z) (swap : bool)
    (fuel : nat) :
  0 <= t0 < UINT_MOD ->
  0 <= d1 < 2 ^ 31 -> 0 <= d2 < 2 ^ 31 -> 0 <= delta < 2 ^ 31 ->
  (2 <= fuel)%nat ->
  let first1 := if swap then d1 <? d2 else d1 <=? d2 in
  let due1 := d1 <=? delta in
  let due2 := d2 <=? delta in
  let f1 := if due1 then [(1, 10)] else [] in
  let f2 := if due2 then [(2, 20)] else [] in
  let q1 := if due1 then [] else [1%nat] in
  let q2 := if due2 then [] else [2%nat] in
  exists m,
    two_timeouts t0 d1 d2 delta swap fuel = Done m /\
    timo_abstime m = wrap32 (t0 + delta) /\
    fired m = (if first1 then f1 ++ f2 else f2 ++ f1) /\
    queue_is m (if first1 then q1 ++ q2 else q2 ++ q1) /\
    set_at m 1 = (if due1 then 0 else 1) /\
    set_at m 2 = (if due2 then 0 else 1).
Proof.
  intros Ht H1 H2 Hd Hf. destruct fuel as [|[|fuel]]; [lia|lia|].
  assert (T12 : (0 <? to_int (wrap32 (t0 + d1) - wrap32 (t0 + d2)))
                = negb (d1 <=? d2)).
  { rewrite to_int_diff by lia.
    destruct (Z.leb_spec d1 d2), (Z.ltb_spec 0 (d1 - d2));
      (reflexivity || lia). }
  assert (T21 : (0 <? to_int (wrap32 (t0 + d2) - wrap32 (t0 + d1)))
                = (d1 <? d2)).
  { rewrite to_int_diff by lia.
    destruct (Z.ltb_spec d1 d2), (Z.ltb_spec 0 (d2 - d1));
      (reflexivity || lia). }
  assert (T1 : (0 <? to_int (wrap32 (t0 + d1) - wrap32 (t0 + delta)))
               = negb (d1 <=? delta)).
  { rewrite to_int_diff by lia.
    destruct (Z.leb_spec d1 delta), (Z.ltb_spec 0 (d1 - delta));
      (reflexivity || lia). }
  assert (T2 : (0 <? to_int (wrap32 (t0 + d2) - wrap32 (t0 + delta)))
               = negb (d2 <=? delta)).
  { rewrite to_int_diff by lia.
    destruct (Z.leb_spec d2 delta), (Z.ltb_spec 0 (d2 - delta));
      (reflexivity || lia). }
  assert (Hlt : (d1 <? d2) = true -> d1 < d2) by (apply Z.ltb_lt).
  assert (Hlt' : (d1 <? d2) = false -> d2 <= d1) by (apply Z.ltb_ge).
  assert (Hle : (d1 <=? d2) = true -> d1 <= d2) by (apply Z.leb_le).
  assert (Hle' : (d1 <=? d2) = false -> d2 < d1) by (apply Z.leb_gt).
  assert (Ha1 : (d1 <=? delta) = true -> d1 <= delta) by (apply Z.leb_le).
  assert (Ha1' : (d1 <=? delta) = false -> delta < d1) by (apply Z.leb_gt).
  assert (Ha2 : (d2 <=? delta) = true -> d2 <= delta) by (apply Z.leb_le).
  assert (Ha2' : (d2 <=? delta) = false -> delta < d2) by (apply Z.leb_gt).
  destruct swap; cbv zeta.
  - destruct (d1 <? d2) eqn:L, (d1 <=? delta) eqn:A1, (d2 <=? delta) eqn:A2;
      try (exfalso; lia).
    all: repeat (progress (cbv -[wrap32 to_int Z.add Z.sub Z.ltb Z.leb];
                           rewrite ?T21, ?T12, ?T1, ?T2, ?L, ?A1, ?A2)).
    all: destruct fuel; cbv -[wrap32 to_int Z.add Z.sub Z.ltb Z.leb];
      rewrite ?T21, ?T12, ?T1, ?T2, ?L, ?A1, ?A2;
      cbv -[wrap32 to_int Z.add Z.sub Z.ltb Z.leb];
      (eexists; split; [reflexivity|]);
      cbv -[wrap32 to_int Z.add Z.sub Z.ltb Z.leb];
      repeat first [reflexivity | split | eexists].
  - destruct (d1 <=? d2) eqn:L, (d1 <=? delta) eqn:A1, (d2 <=? delta) eqn:A2;
      try (exfalso; lia).
    all: repeat (progress (cbv -[wrap32 to_int Z.add Z.sub Z.ltb Z.leb];
                           rewrite ?T21, ?T12, ?T1, ?T2, ?L, ?A1, ?A2)).
    all: destruct fuel; cbv -[wrap32 to_int Z.add Z.sub Z.ltb Z.leb];
      rewrite ?T21, ?T12, ?T1, ?T2, ?L, ?A1, ?A2;
      cbv -[wrap32 to_int Z.add Z.sub Z.ltb Z.leb];
      (eexists; split; [reflexivity|]);
      cbv -[wrap32 to_int Z.add Z.sub Z.ltb Z.leb];
      repeat first [reflexivity | split | eexists].
Qed.

(** The instance of the scenario: the clock stands 1000 units before its
    wrap, the timeouts are due 500 and 1500 units later and the update is
    of 2000 units. *)
Lemma timo_update_across_wrap_witness :
  exists m,
    two_timeouts (2 ^ 32 - 1000) 500 1500 2000 false 2 = Done m /\
    timo_abstime m = wrap32 (2 ^ 32 - 1000 + 2000) /\
    fired m = [(1, 10); (2, 20)] /\
    queue_is m [] /\
    set_at m 1 = 0 /\
    set_at m 2 = 0.
Proof.
  apply (timo_update_across_wrap (2 ^ 32 - 1000) 500 1500 2000 false 2);
    unfold UINT_MOD; lia.
Defined.

End TimoFacts.

(** ** state.c *)
Section StateFacts.
Import State.

Lemma land_lor_same (f m : Z) : Z.land (Z.lor f m) m = m.
Proof.
  apply Z.bits_inj'. intros n _. rewrite Z.land_spec, Z.lor_spec.
  destruct (Z.testbit f n), (Z.testbit m n); reflexivity.
Qed.

Lemma land_clear_same (f m : Z) : Z.land (Z.land f (Z.lnot m)) m = 0.
Proof.
  apply Z.bits_inj'. intros n Hn.
  rewrite !Z.land_spec, Z.lnot_spec, Z.bits_0 by done.
  destruct (Z.testbit f n), (Z.testbit m n); reflexivity.
Qed.

Lemma has_lor_same (f m : Z) : m <> 0 -> has (Z.lor f m) m = true.
Proof.
  intros Hm. unfold has. rewrite land_lor_same.
  by destruct (Z.eqb_spec m 0).
Qed.

Lemma has_clear_same (f m : Z) : has (Z.land f (Z.lnot m)) m = false.
Proof. unfold has. by rewrite land_clear_same. Qed.

Lemma has_lor_other (f m k : Z) :
  Z.land m k = 0 -> has (Z.lor f m) k = has f k.
Proof.
  intros Hmk. unfold has. rewrite Z.land_lor_distr_l, Hmk, Z.lor_0_r. done.
Qed.

(** C6, as the code has it.  [state_restore] returns 0 and writes no event
    for every state with the BOGUS flag set; on a state of the note
    family that is not bogus it panics; on any other state it returns 0
    without writing when the phase has LAST but not FIRST, and otherwise
    writes the event held by the state and returns 1. *)
Theorem state_restore_cases (st : state) :
  (has (flags st) STATE_BOGUS = true -> state_restore st = Done (0, None)) /\
  (has (flags st) STATE_BOGUS = false -> EV_ISNOTE (st_ev st) = true ->
     state_restore st = Panic) /\
  (has (flags st) STATE_BOGUS = false -> EV_ISNOTE (st_ev st) = false ->
     has (phase st) EV_PHASE_LAST = true ->
     has (phase st) EV_PHASE_FIRST = false ->
     state_restore st = Done (0, None)) /\
  (has (flags st) STATE_BOGUS = false -> EV_ISNOTE (st_ev st) = false ->
     (has (phase st) EV_PHASE_LAST = false \/
      has (phase st) EV_PHASE_FIRST = true) ->
     state_restore st = Done (1, Some (st_ev st))).
Proof.
  unfold state_restore. repeat split.
  - by intros ->.
  - by intros -> ->.
  - by intros -> -> -> ->.
  - intros -> -> [-> | ->]; [done|].
    by rewrite andb_false_r.
Qed.

Section WithEv.
Variable ev_phase : ev -> Z.
Variable ev_match : ev -> ev -> bool.

(** The state at which the first loop stops has its NEW flag cleared. *)
Lemma update_scan_found (l : list state) : forall free e l' free' i,
  update_scan ev_match l free e = (l', free', Some i) ->
  exists st, l' !! i = Some st /\ has (flags st) STATE_NEW = false.
Proof.
  induction l as [|s l IH]; intros free e l' free' i Hs; simpl in Hs.
  - discriminate.
  - destruct (state_match ev_match s e).
    + destruct (negb (phase s =? EV_PHASE_LAST) &&
                negb (has (flags s) STATE_BOGUS)).
      * inversion Hs; subst. eexists. split; [reflexivity|].
        simpl. apply has_clear_same.
      * eapply IH. eassumption.
    + destruct (update_scan ev_match l free e) as [[r f'] found] eqn:E.
      destruct found as [j|]; simpl in Hs; [|discriminate].
      inversion Hs; subst. simpl. eapply IH. eassumption.
Qed.

(** Without a matching state that is neither terminated nor bogus the
    first loop runs to the end of the list. *)
Lemma update_scan_none (l : list state) : forall free e,
  (forall s, s ∈ l -> state_match ev_match s e = true ->
     phase s = EV_PHASE_LAST \/ has (flags s) STATE_BOGUS = true) ->
  exists l' free', update_scan ev_match l free e = (l', free', None) /\ (free <= free')%nat.
Proof.
  induction l as [|s l IH]; intros free e Hno; simpl.
  - by exists [], free.
  - assert (Hl : forall s0, s0 ∈ l -> state_match ev_match s0 e = true ->
              phase s0 = EV_PHASE_LAST \/ has (flags s0) STATE_BOGUS = true).
    { intros s0 Hin. apply Hno. by right. }
    destruct (state_match ev_match s e) eqn:Hm.
    + destruct (Hno s ltac:(left) Hm) as [Hp | Hb].
      * rewrite Hp, Z.eqb_refl. simpl.
        destruct (IH (state_del free) e Hl) as (l' & f' & -> & Hle).
        exists l', f'. split; [done|]. unfold state_del in Hle. lia.
      * rewrite Hb, andb_false_r.
        destruct (IH (state_del free) e Hl) as (l' & f' & -> & Hle).
        exists l', f'. split; [done|]. unfold state_del in Hle. lia.
    + destruct (IH free e Hl) as (l' & f' & -> & Hle).
      by exists (s :: l'), f'.
Qed.


Lemma copyev_at (l : list state) (i : nat) (st : state) (e : ev) (ph : Z) :
  l !! i = Some st ->
  alter (fun st => state_copyev st e ph) i l !! i = Some (state_copyev st e ph).
Proof. intros H. by rewrite list_lookup_alter_eq, H. Qed.

Lemma not_new_neq (f : Z) : has f STATE_NEW = false -> (f =? STATE_NEW) = false.
Proof.
  unfold has. intros H. destruct (Z.eqb_spec f STATE_NEW) as [->|]; [|done].
  discriminate.
Qed.

(** What [statelist_update] returns, by the outcome of its first loop. *)
Lemma statelist_update_inv (o : statelist) (free : nat) (e : ev) o' free' i :
  statelist_update ev_phase ev_match o free e = Done (o', free', i) ->
  exists st ph,
    first o' !! i = Some (state_copyev st e ph) /\
    changed o' = 1 /\
    (i = 0%nat \/ has (flags st) STATE_NEW = false) /\
    (ev_phase e = EV_PHASE_FIRST -> i = 0%nat) /\
    (snd (update_scan ev_match (first o) free e) = None -> i = 0%nat).
Proof.
  unfold statelist_update.
  destruct (update_scan ev_match (first o) free e) as [[l f1] found] eqn:Hscan.
  destruct found as [j|]; simpl.
  - destruct (update_scan_found _ _ _ _ _ _ Hscan) as (st0 & Hj & Hnew).
    rewrite Hj. pose proof (not_new_neq _ Hnew) as Hneq. rewrite Hneq. simpl.
    destruct (ev_phase e =? EV_PHASE_FIRST) eqn:E1.
    { destruct f1 as [|f1]; simpl; [discriminate|].
      intros H; inversion H; subst; clear H. simpl.
      do 2 eexists. split; [reflexivity|]. repeat split; auto. }
    apply Z.eqb_neq in E1.
    destruct ((ev_phase e =? EV_PHASE_NEXT) || (ev_phase e =? EV_PHASE_LAST)).
    { simpl. intros H; inversion H; subst; clear H. simpl.
      exists st0, (ev_phase e). split; [by apply copyev_at|].
      repeat split; auto; try done. }
    destruct (ev_phase e =? Z.lor EV_PHASE_FIRST EV_PHASE_NEXT).
    { simpl. intros H; inversion H; subst; clear H. simpl.
      do 2 eexists. split; [by apply copyev_at|].
      repeat split; auto; try done. }
    destruct (ev_phase e =? Z.lor EV_PHASE_FIRST EV_PHASE_LAST).
    { simpl. intros H; inversion H; subst; clear H. simpl.
      do 2 eexists. split; [by apply copyev_at|].
      repeat split; auto; try done. }
    discriminate.
  - destruct f1 as [|f1]; simpl; [discriminate|].
    destruct (ev_phase e =? EV_PHASE_FIRST).
    { simpl. intros H; inversion H; subst; clear H. simpl.
      do 2 eexists. split; [reflexivity|]. repeat split; auto. }
    destruct ((ev_phase e =? EV_PHASE_NEXT) || (ev_phase e =? EV_PHASE_LAST)).
    { simpl. intros H; inversion H; subst; clear H. simpl.
      do 2 eexists. split; [reflexivity|]. repeat split; auto. }
    destruct (ev_phase e =? Z.lor EV_PHASE_FIRST EV_PHASE_NEXT).
    { simpl. intros H; inversion H; subst; clear H. simpl.
      do 2 eexists. split; [reflexivity|]. repeat split; auto. }
    destruct (ev_phase e =? Z.lor EV_PHASE_FIRST EV_PHASE_LAST).
    { simpl. intros H; inversion H; subst; clear H. simpl.
      do 2 eexists. split; [reflexivity|]. repeat split; auto. }
    discriminate.
Qed.

(** C5, as the code has it.  When [statelist_update] returns, the state
    returned is a state of the list, its event is the event given, its
    CHANGED flag is set and the list is marked changed.  It is the head of
    the list when the call allocated it: always for an event of phase
    FIRST, and for any event when the first loop found no matching state
    to attach to; a state still marked NEW on return is the head.  (A
    matching open state found further down the list is updated where it
    stands.) *)
Theorem statelist_update_returned (o : statelist) (free : nat) (e : ev)
    (o' : statelist) (free' i : nat) :
  statelist_update ev_phase ev_match o free e = Done (o', free', i) ->
  exists st,
    first o' !! i = Some st /\
    st_ev st = e /\
    has (flags st) STATE_CHANGED = true /\
    changed o' = 1 /\
    (has (flags st) STATE_NEW = true -> i = 0%nat) /\
    (ev_phase e = EV_PHASE_FIRST -> i = 0%nat) /\
    (snd (update_scan ev_match (first o) free e) = None -> i = 0%nat).
Proof.
  intros H. apply statelist_update_inv in H
    as (st & ph & Hi & Hch & Hnew & Hfirst & Hnone).
  exists (state_copyev st e ph). split; [done|]. split; [done|].
  split; [by apply has_lor_same|]. split; [done|].
  split; [|done]. simpl. rewrite has_lor_other by done.
  intros Hn. destruct Hnew as [->|Hc]; [done|congruence].
Qed.


(** C3, as the code has it.  An event of phase NEXT or LAST that meets no
    matching state other than terminated or bogus ones gets a new state
    at the head of the list, as long as [state_pool] has an entry left.
    The flags of that state are exactly NEW, BOGUS and CHANGED (the event
    was just copied into it), so BOGUS is set, and its phase has the FIRST
    bit: FIRST alone for NEXT, FIRST|LAST for LAST. *)
Theorem statelist_update_bogus (o : statelist) (free : nat) (e : ev) :
  ev_phase e = EV_PHASE_NEXT \/ ev_phase e = EV_PHASE_LAST ->
  (forall s, s ∈ first o -> state_match ev_match s e = true ->
     phase s = EV_PHASE_LAST \/ has (flags s) STATE_BOGUS = true) ->
  (0 < free)%nat ->
  exists o' free' st,
    statelist_update ev_phase ev_match o free e = Done (o', free', 0%nat) /\
    first o' !! 0%nat = Some st /\
    st_ev st = e /\
    flags st = Z.lor (Z.lor STATE_NEW STATE_BOGUS) STATE_CHANGED /\
    has (flags st) STATE_BOGUS = true /\
    has (phase st) EV_PHASE_FIRST = true /\
    (ev_phase e = EV_PHASE_NEXT -> phase st = EV_PHASE_FIRST) /\
    (ev_phase e = EV_PHASE_LAST ->
       phase st = Z.lor EV_PHASE_FIRST EV_PHASE_LAST).
Proof.
  intros Hph Hno Hfree.
  destruct (update_scan_none (first o) free e Hno) as (l' & f' & Hscan & Hle).
  unfold statelist_update. rewrite Hscan.
  destruct f' as [|f']; [lia|].
  destruct Hph as [-> | ->]; vm_compute;
    (do 3 eexists; split; [reflexivity|]; simpl; repeat split; discriminate).
Qed.

Lemma statelist_updates_changed (evs : list ev) : forall o free o' free',
  evs <> [] ->
  statelist_updates ev_phase ev_match evs o free = Done (o', free') ->
  changed o' = 1.
Proof.
  induction evs as [|e evs IH]; intros o free o' free' Hne H; [done|].
  simpl in H.
  destruct (statelist_update ev_phase ev_match o free e)
    as [[[o1 f1] i]| | |] eqn:Hu; simpl in H; try discriminate.
  destruct evs as [|e' evs].
  - simpl in H. inversion H; subst.
    apply statelist_update_inv in Hu as (? & ? & ? & ? & ?). done.
  - eapply IH; [done|eassumption].
Qed.

Lemma outdate_loop_spec (l : list state) : forall free,
  outdate_loop l free =
    (map clear_changed
         (List.filter (fun s => negb (phase s =? EV_PHASE_LAST)) l),
     (free + length (List.filter (fun s => (phase s =? EV_PHASE_LAST)%Z) l))%nat).
Proof.
  induction l as [|s l IH]; intros free; simpl.
  - f_equal. lia.
  - destruct (phase s =? EV_PHASE_LAST); simpl.
    + rewrite IH. unfold state_del. f_equal. simpl. lia.
    + rewrite IH. done.
Qed.

(** C4.  After any non-empty stream of events has been fed to
    [statelist_update], [statelist_outdate] keeps, in order, the states
    whose phase is not exactly LAST, with their CHANGED flag cleared, and
    returns the others to the pool; states of phase FIRST|LAST are kept;
    the list is marked unchanged and none of its states has phase LAST. *)
Theorem statelist_outdate_after_updates (evs : list ev) (o : statelist)
    (free : nat) (o1 : statelist) (free1 : nat) :
  evs <> [] ->
  statelist_updates ev_phase ev_match evs o free = Done (o1, free1) ->
  let r := statelist_outdate o1 free1 in
  first (fst r) =
    map clear_changed
        (List.filter (fun s => negb (phase s =? EV_PHASE_LAST)) (first o1)) /\
  snd r =
    (free1 +
     length (List.filter (fun s => (phase s =? EV_PHASE_LAST)%Z) (first o1)))%nat /\
  changed (fst r) = 0 /\
  (forall s, s ∈ first o1 -> phase s = Z.lor EV_PHASE_FIRST EV_PHASE_LAST ->
     clear_changed s ∈ first (fst r)) /\
  (forall s, s ∈ first (fst r) ->
     phase s <> EV_PHASE_LAST /\ has (flags s) STATE_CHANGED = false).
Proof.
  intros Hne Hup. pose proof (statelist_updates_changed _ _ _ _ _ Hne Hup) as Hch.
  unfold statelist_outdate. rewrite Hch. simpl.
  rewrite outdate_loop_spec. simpl.
  split; [done|]. split; [done|]. split; [done|]. split.
  - intros s Hin Hp. apply list_elem_of_In, in_map, filter_In.
    split; [by apply list_elem_of_In|]. by rewrite Hp.
  - intros s Hin. apply list_elem_of_In, in_map_iff in Hin as (s0 & <- & Hin).
    apply filter_In in Hin as [_ Hp]. simpl. split.
    + intros Heq. by rewrite Heq in Hp.
    + apply has_clear_same.
Qed.

End WithEv.

(** The first half of C3 at the empty list and a note-off. *)
Lemma statelist_update_bogus_witness :
  exists o' free' st,
    statelist_update ev_phase_spec ev_match_spec (statelist_init 0) 10
                     (note_off 60 0) = Done (o', free', 0%nat) /\
    first o' !! 0%nat = Some st /\
    st_ev st = note_off 60 0 /\
    flags st = Z.lor (Z.lor STATE_NEW STATE_BOGUS) STATE_CHANGED /\
    has (flags st) STATE_BOGUS = true /\
    has (phase st) EV_PHASE_FIRST = true /\
    (ev_phase_spec (note_off 60 0) = EV_PHASE_NEXT ->
       phase st = EV_PHASE_FIRST) /\
    (ev_phase_spec (note_off 60 0) = EV_PHASE_LAST ->
       phase st = Z.lor EV_PHASE_FIRST EV_PHASE_LAST).
Proof.
  apply (statelist_update_bogus ev_phase_spec ev_match_spec
           (statelist_init 0) 10 (note_off 60 0)).
  - right. reflexivity.
  - intros s Hs. simpl in Hs. by apply elem_of_nil in Hs.
  - lia.
Defined.

(** The second half of C3 fails on the code: the state made for a
    note-off on the empty list carries CHANGED besides BOGUS and NEW. *)
Lemma bogus_state_carries_changed :
  exists o' free' st,
    statelist_update ev_phase_spec ev_match_spec (statelist_init 0) 10
                     (note_off 60 0) = Done (o', free', 0%nat) /\
    first o' !! 0%nat = Some st /\
    phase st = Z.lor EV_PHASE_FIRST EV_PHASE_LAST /\
    flags st = 7 /\
    flags st <> Z.lor STATE_BOGUS STATE_NEW.
Proof.
  do 3 eexists. split; [reflexivity|]. split; [reflexivity|].
  split; [reflexivity|]. split; [reflexivity|]. discriminate.
Qed.

(** [two_notes] and [note_done] are what the updates produce. *)
Lemma two_notes_reached :
  statelist_updates ev_phase_spec ev_match_spec
    [note_on 60 100; note_on 61 100] (statelist_init 0) 10
  = Done (two_notes, 8%nat).
Proof. reflexivity. Qed.

Lemma note_done_reached :
  statelist_updates ev_phase_spec ev_match_spec
    [note_on 60 100; note_off 60 0] (statelist_init 0) 10
  = Done (note_done, 9%nat).
Proof. reflexivity. Qed.

(** C4 on the stream note-on, note-off: the terminated note is purged. *)
Lemma statelist_outdate_after_updates_witness :
  let r := statelist_outdate note_done 9 in
  first (fst r) =
    map clear_changed
        (List.filter (fun s => negb (phase s =? EV_PHASE_LAST))
                     (first note_done)) /\
  snd r =
    (9 + length (List.filter (fun s => (phase s =? EV_PHASE_LAST)%Z)
                             (first note_done)))%nat /\
  changed (fst r) = 0 /\
  (forall s, s ∈ first note_done ->
     phase s = Z.lor EV_PHASE_FIRST EV_PHASE_LAST ->
     clear_changed s ∈ first (fst r)) /\
  (forall s, s ∈ first (fst r) ->
     phase s <> EV_PHASE_LAST /\ has (flags s) STATE_CHANGED = false).
Proof.
  apply (statelist_outdate_after_updates ev_phase_spec ev_match_spec
           [note_on 60 100; note_off 60 0] (statelist_init 0) 10 note_done 9).
  - discriminate.
  - reflexivity.
Defined.

(** C5 fails on the code: with notes 61 and 60 sounding, in this order
    from the head, a key aftertouch for note 60 is attached to the second
    state of the list, which is returned and stays second. *)
Lemma statelist_update_not_head :
  exists o' free',
    statelist_update ev_phase_spec ev_match_spec two_notes 8 (key_at 60 30)
      = Done (o', free', 1%nat) /\
    st_ev <$> first o' !! 0%nat = Some (note_on 61 100) /\
    st_ev <$> first o' !! 1%nat = Some (key_at 60 30).
Proof. do 2 eexists. split; [reflexivity|]. split; reflexivity. Qed.

(** C5 as amended, on the same call. *)
Lemma statelist_update_returned_witness :
  exists st,
    first (mkstatelist
             [mkstate (note_on 61 100) EV_PHASE_FIRST
                      (Z.lor STATE_NEW STATE_CHANGED);
              mkstate (key_at 60 30) EV_PHASE_NEXT STATE_CHANGED] 1 0)
      !! 1%nat = Some st /\
    st_ev st = key_at 60 30 /\
    has (flags st) STATE_CHANGED = true /\
    changed (mkstatelist
               [mkstate (note_on 61 100) EV_PHASE_FIRST
                        (Z.lor STATE_NEW STATE_CHANGED);
                mkstate (key_at 60 30) EV_PHASE_NEXT STATE_CHANGED] 1 0) = 1 /\
    (has (flags st) STATE_NEW = true -> 1%nat = 0%nat) /\
    (ev_phase_spec (key_at 60 30) = EV_PHASE_FIRST -> 1%nat = 0%nat) /\
    (snd (update_scan ev_match_spec (first two_notes) 8 (key_at 60 30)) = None ->
       1%nat = 0%nat).
Proof.
  apply (statelist_update_returned ev_phase_spec ev_match_spec
           two_notes 8 (key_at 60 30) _ 8%nat 1%nat).
  reflexivity.
Defined.

(** C6 fails on the code: a note-on state that is not bogus makes
    [state_restore] panic instead of returning 0. *)
Lemma state_restore_note_panics :
  state_restore (mkstate (note_on 60 100) EV_PHASE_FIRST STATE_CHANGED) = Panic /\
  state_restore (mkstate (note_on 60 100) EV_PHASE_FIRST STATE_CHANGED)
    <> Done (0, None).
Proof. split; [reflexivity|discriminate]. Qed.

(** C6 as amended, on a bogus note, a sounding note, a terminated channel
    aftertouch and a controller. *)
Lemma state_restore_cases_witness :
  state_restore (mkstate (note_off 60 0)
                         (Z.lor EV_PHASE_FIRST EV_PHASE_LAST)
                         (Z.lor STATE_NEW STATE_BOGUS)) = Done (0, None) /\
  state_restore (mkstate (note_on 60 100) EV_PHASE_FIRST 0) = Panic /\
  state_restore (mkstate (mkev EV_CAT 0 0 0 0) EV_PHASE_LAST 0) = Done (0, None) /\
  state_restore (mkstate (mkev EV_CTL 0 0 7 100)
                         (Z.lor EV_PHASE_FIRST EV_PHASE_LAST) 0)
    = Done (1, Some (mkev EV_CTL 0 0 7 100)).
Proof.
  split; [|split; [|split]].
  - apply (proj1 (state_restore_cases _)). reflexivity.
  - apply (proj1 (proj2 (state_restore_cases _))); reflexivity.
  - apply (proj1 (proj2 (proj2 (state_restore_cases _)))); reflexivity.
  - apply (proj2 (proj2 (proj2 (state_restore_cases
             (mkstate (mkev EV_CTL 0 0 7 100)
                      (Z.lor EV_PHASE_FIRST EV_PHASE_LAST) 0))))).
    + reflexivity.
    + reflexivity.
    + right. reflexivity.
Defined.

End StateFacts.

(** ** track.c *)
Section TrackFacts.
Import State Track.

Lemma wrap32_add_idemp_l (x y : Z) : wrap32 (wrap32 x + y) = wrap32 (x + y).
Proof. unfold wrap32. apply Z.add_mod_idemp_l. unfold UINT_MOD. lia. Qed.

Lemma wrap32_add_idemp_r (x y : Z) : wrap32 (x + wrap32 y) = wrap32 (x + y).
Proof. unfold wrap32. apply Z.add_mod_idemp_r. unfold UINT_MOD. lia. Qed.

Lemma rd_wr_eq (t : track) (p : sptr) (s : seqev) : rd (wr t p s) p = Done s.
Proof. destruct p; simpl; [done|]. by rewrite lookup_insert_eq. Qed.

Lemma rd_wr_ne (t : track) (p q : sptr) (s : seqev) :
  p <> q -> rd (wr t p s) q = rd t q.
Proof.
  intros Hne. destruct p as [|a], q as [|b]; simpl; try done.
  rewrite lookup_insert_ne; [done|congruence].
Qed.

Lemma first_wr (t : track) (p : sptr) (s : seqev) : first (wr t p s) = first t.
Proof. by destruct p. Qed.

Lemma heap_wr_ne (t : track) (p : sptr) (s : seqev) (x : nat) :
  p <> Node x -> heap (wr t p s) !! x = heap t !! x.
Proof.
  intros Hne. destruct p as [|a]; simpl; [done|].
  rewrite lookup_insert_ne; [done|congruence].
Qed.

Lemma heap_wr_eq (t : track) (a : nat) (s : seqev) :
  heap (wr t (Node a) s) !! a = Some s.
Proof. simpl. apply lookup_insert_eq. Qed.

Lemma eot_wr_node (t : track) (a : nat) (s : seqev) :
  eot (wr t (Node a) s) = eot t.
Proof. done. Qed.

Lemma eot_wr_eot (t : track) (s : seqev) : eot (wr t Eot s) = s.
Proof. done. Qed.

(** A segment only depends on the storage at its addresses. *)
Lemma lseg_frame (t t' : track) (l : list item) : forall sl p sl' q,
  (forall a, a ∈ addrs l -> heap t' !! a = heap t !! a) ->
  lseg t sl p l sl' q -> lseg t' sl p l sl' q.
Proof.
  induction l as [|[[a d] e] l IH]; intros sl p sl' q Hag H; simpl in *.
  - done.
  - destruct H as (-> & s & Ha & Hd & He & Hp & Hl).
    split; [done|]. exists s. rewrite Hag by (left). repeat split; try done.
    apply IH; [|done]. intros x Hx. apply Hag. by right.
Qed.

Lemma lseg_app (t : track) (l1 l2 : list item) : forall sl p sl' q,
  lseg t sl p (l1 ++ l2) sl' q <->
  exists sm m, lseg t sl p l1 sm m /\ lseg t sm m l2 sl' q.
Proof.
  induction l1 as [|[[a d] e] l1 IH]; intros sl p sl' q; simpl.
  - split.
    + intros H. by exists sl, p.
    + intros (sm & m & [-> ->] & H). done.
  - split.
    + intros (-> & s & Ha & Hd & He & Hp & Hl).
      apply IH in Hl as (sm & m & H1 & H2).
      exists sm, m. split; [|done]. split; [done|]. exists s. done.
    + intros (sm & m & (-> & s & Ha & Hd & He & Hp & Hl) & H2).
      split; [done|]. exists s. repeat split; try done.
      apply IH. by exists sm, m.
Qed.

Lemma lseg_dom (t : track) (l : list item) : forall sl p sl' q,
  lseg t sl p l sl' q -> forall a, a ∈ addrs l -> is_Some (heap t !! a).
Proof.
  induction l as [|[[a d] e] l IH]; intros sl p sl' q H x Hx; simpl in *.
  - by apply elem_of_nil in Hx.
  - destruct H as (-> & s & Ha & _ & _ & _ & Hl).
    apply elem_of_cons in Hx as [->|Hx]; [eauto|]. eapply IH; eauto.
Qed.

Lemma lseg_length (t : track) (l : list item) sl p sl' q :
  NoDup (addrs l) -> lseg t sl p l sl' q -> (length l <= size (heap t))%nat.
Proof.
  intros Hnd H.
  assert (Hsub : (list_to_set (addrs l) : gset nat) ⊆ dom (heap t)).
  { intros x Hx. apply elem_of_list_to_set in Hx. apply elem_of_dom.
    eapply lseg_dom; eauto. }
  apply subseteq_size in Hsub.
  rewrite size_list_to_set, size_dom in Hsub by done.
  unfold addrs in Hsub. by rewrite length_map in Hsub.
Qed.

(** Writing [q'] to the last slot of a segment that starts at [first]. *)
Lemma lseg_redirect (t : track) (l : list item) (sl : slot) (q q' : option sptr) :
  NoDup (addrs l) ->
  lseg t SFirst (first t) l sl q ->
  exists t',
    store_slot t sl q' = Done t' /\
    lseg t' SFirst (first t') l sl q' /\
    eot t' = eot t /\
    (forall x, x ∉ addrs l -> heap t' !! x = heap t !! x).
Proof.
  intros Hnd H. destruct l as [|it l0] using rev_ind.
  - simpl in H. destruct H as [Hq <-]. simpl. eexists. split; [reflexivity|].
    simpl. done.
  - clear IHl0. destruct it as [[c dc] ec].
    apply lseg_app in H as (sm & m & H1 & H2). simpl in H2.
    destruct H2 as (-> & sc & Hc & Hd & He & Hp & Hn & <-).
    unfold addrs in Hnd. rewrite map_app in Hnd. simpl in Hnd.
    apply NoDup_app in Hnd as (Hnd1 & Hdis & _).
    assert (Hcl : c ∉ addrs l0).
    { intros Hin. apply (Hdis c Hin). by left. }
    simpl. rewrite Hc. simpl. eexists. split; [reflexivity|].
    split; [|split].
    + simpl. apply lseg_app. exists sm, (Some (Node c)). split.
      * eapply lseg_frame; [|exact H1]. intros a Ha. simpl.
        rewrite lookup_insert_ne; [done|]. intros ->. done.
      * simpl. split; [done|]. eexists. rewrite lookup_insert_eq.
        split; [reflexivity|]. simpl. done.
    + done.
    + intros x Hx. simpl. rewrite lookup_insert_ne; [done|].
      intros ->. apply Hx. unfold addrs. rewrite map_app. simpl.
      apply elem_of_app. right. by left.
Qed.

Lemma rd_node (t : track) (a : nat) (s : seqev) :
  heap t !! a = Some s -> rd t (Node a) = Done s.
Proof. intros H. simpl. by rewrite H. Qed.

Lemma walk_lseg (t : track) (l : list item) : forall sl p sl' q n,
  lseg t sl p l sl' q ->
  walk (length l + n) t p =
    (let* r := walk n t q in Done (map Node (addrs l) ++ r)).
Proof.
  induction l as [|[[a d] e] l IH]; intros sl p sl' q n H.
  - destruct H as [-> _]. simpl. by destruct (walk n t q).
  - destruct H as (-> & s & Ha & _ & _ & _ & Hl).
    cbn [length Nat.add walk]. rewrite (rd_node _ _ _ Ha). cbn [bind].
    rewrite (IH _ _ _ _ n Hl). by destruct (walk n t q).
Qed.

Lemma numtic_lseg (t : track) (l : list item) : forall sl p sl' q n acc,
  lseg t sl p l sl' q ->
  exists acc',
    numtic_loop (length l + n) t p acc = numtic_loop n t q acc' /\
    wrap32 acc' = wrap32 (acc + fold_right Z.add 0 (deltas l)).
Proof.
  induction l as [|[[a d] e] l IH]; intros sl p sl' q n acc H.
  - destruct H as [-> _]. exists acc. simpl. split; [done|]. f_equal. lia.
  - destruct H as (-> & s & Ha & Hd & _ & _ & Hl).
    cbn [length Nat.add numtic_loop]. rewrite (rd_node _ _ _ Ha). cbn [bind].
    destruct (IH _ _ _ _ n (wrap32 (acc + delta s)) Hl) as (acc' & -> & Hw).
    exists acc'. split; [done|]. rewrite Hw, wrap32_add_idemp_l.
    f_equal. simpl. lia.
Qed.

(** On a track, [track_walk] visits the events in order and the sentinel
    last, and [track_numtic] returns the sum of the deltas. *)
Lemma is_track_walk (t : track) (l : list item) (de : Z) :
  is_track t l de ->
  track_walk t = Done (map Node (addrs l) ++ [Eot]) /\
  track_numtic t = Done (total l de).
Proof.
  intros (Hnd & sl & Hl & Hn & Hp & Hd).
  pose proof (lseg_length _ _ _ _ _ _ Hnd Hl) as Hlen.
  unfold track_walk, track_numtic.
  replace (S (size (heap t))) with (length l + S (size (heap t) - length l))%nat
    by lia.
  split.
  - rewrite (walk_lseg _ _ _ _ _ _ _ Hl). cbn [walk rd bind]. rewrite Hn.
    by destruct (size (heap t) - length l)%nat.
  - destruct (numtic_lseg _ _ _ _ _ _ (S (size (heap t) - length l)) 0 Hl)
      as (acc & -> & Hw).
    cbn [numtic_loop rd bind]. rewrite Hn.
    assert (Hfin : forall k x, numtic_loop k t None x = Done x)
      by (by intros [|k] x).
    rewrite Hfin. f_equal. unfold total.
    rewrite <- wrap32_add_idemp_l, Hw, wrap32_add_idemp_l, Hd. f_equal.
Qed.

Lemma addrs_app (l1 l2 : list item) : addrs (l1 ++ l2) = addrs l1 ++ addrs l2.
Proof. unfold addrs. apply map_app. Qed.

Lemma addrs_set_head (d : Z) (l : list item) : addrs (set_head d l) = addrs l.
Proof. by destruct l as [|[[? ?] ?] ?]. Qed.

Lemma rd_node_inv (t : track) (a : nat) (s : seqev) :
  rd t (Node a) = Done s -> heap t !! a = Some s.
Proof. simpl. destruct (heap t !! a); [|done]. by intros [= ->]. Qed.

(** The event a segment starts with. *)
Lemma seg_head (t : track) (sl : slot) (p : option sptr) (l : list item) (de : Z) :
  seg t sl p l de ->
  p = Some (head_ptr l) /\
  exists nx, rd t (head_ptr l) = Done nx /\
             delta nx = head_delta l de /\ prev nx = sl.
Proof.
  intros (sl' & Hl & Hn & Hp & Hd). destruct l as [|[[b d2] e2] l]; simpl in *.
  - destruct Hl as [-> ->]. split; [done|]. by exists (eot t).
  - destruct Hl as (-> & sb & Hb & Hbd & _ & Hbp & _). split; [done|].
    exists sb. by rewrite Hb.
Qed.

(** A segment whose first event got a new delta and a new back link. *)
Lemma seg_rebuild (t t' : track) (sl0 sl' : slot) (n : sptr) (l : list item)
    (de d' : Z) (nx : seqev) :
  seg t sl0 (Some n) l de ->
  rd t n = Done nx ->
  rd t' n = Done (mkseqev d' (sev nx) (next nx) sl') ->
  (forall x, x ∈ addrs (tail l) -> heap t' !! x = heap t !! x) ->
  (n <> Eot -> eot t' = eot t) ->
  seg t' sl' (Some n) (set_head d' l) (eot_delta l d' de).
Proof.
  intros (sl1 & Hl & Hn & Hp & Hd) Hrd Hrd' Hag Heot.
  destruct l as [|[[b d2] e2] l]; simpl in *.
  - destruct Hl as [[= ->] ->]. simpl in *.
    injection Hrd as <-. injection Hrd' as Heq.
    exists sl'. rewrite Heq. simpl. done.
  - destruct Hl as ([= ->] & sb & Hb & Hbd & Hbe & Hbp & Hl).
    rewrite (rd_node _ _ _ Hb) in Hrd. injection Hrd as <-.
    apply rd_node_inv in Hrd'.
    exists sl1. rewrite Heot by done. split; [|done].
    split; [done|]. eexists. split; [exact Hrd'|]. simpl.
    repeat split; try done. by eapply lseg_frame.
Qed.

Lemma sum_deltas_app (l1 l2 : list item) :
  fold_right Z.add 0 (deltas (l1 ++ l2)) =
  fold_right Z.add 0 (deltas l1) + fold_right Z.add 0 (deltas l2).
Proof.
  induction l1 as [|[[? ?] ?] l1 IH]; [done|].
  unfold deltas in *. cbn [app map fold_right fst snd] in *. lia.
Qed.

Lemma total_rm (l1 l2 : list item) (a : nat) (d de : Z) (e : ev) :
  total (l1 ++ bump d l2) (eot_delta l2 (wrap32 (de + d)) de) =
  total (l1 ++ (a, d, e) :: l2) de.
Proof.
  unfold total. rewrite !sum_deltas_app.
  destruct l2 as [|[[b d2] e2] l2]; simpl.
  - rewrite Z.add_0_r, wrap32_add_idemp_r. f_equal. lia.
  - set (A := fold_right Z.add 0 (deltas l1)).
    set (B := fold_right Z.add 0 (deltas l2)).
    replace (A + (wrap32 (d2 + d) + B) + de)
      with (wrap32 (d2 + d) + (A + B + de)) by lia.
    rewrite wrap32_add_idemp_l. f_equal. lia.
Qed.

Lemma total_ins (l1 l2 : list item) (b : nat) (de : Z) (e : ev) :
  total (l1 ++ (b, head_delta l2 de, e) :: zero l2) (eot_delta l2 0 de) =
  total (l1 ++ l2) de.
Proof.
  unfold total. rewrite !sum_deltas_app.
  destruct l2 as [|[[c d2] e2] l2]; simpl; f_equal; lia.
Qed.

(** [seqev_rm] on the event at address [a] of a track. *)
Lemma seqev_rm_spec (debug : bool) (t : track) (l1 l2 : list item)
    (a : nat) (d de : Z) (e : ev) :
  is_track t (l1 ++ (a, d, e) :: l2) de ->
  (debug = true -> cmd e <> EV_NULL) ->
  exists t' s',
    seqev_rm debug (Node a) t = Done t' /\
    is_track t' (l1 ++ bump d l2) (eot_delta l2 (wrap32 (de + d)) de) /\
    heap t' !! a = Some s' /\ delta s' = 0.
Proof.
  intros [Hnd Hseg] Hdbg.
  rewrite addrs_app in Hnd. simpl in Hnd.
  pose proof Hnd as Hnd0.
  apply NoDup_app in Hnd as (Hnd1 & Hdis & Hnd2).
  apply NoDup_cons in Hnd2 as [Ha2 Hnd2].
  assert (Ha1 : a ∉ addrs l1) by (intros Hin; apply (Hdis a Hin); left).
  destruct Hseg as (sle & Hl & Hen & Hep & Hed).
  apply lseg_app in Hl as (sm & m & H1 & H2).
  simpl in H2. destruct H2 as (-> & s & Hs & Hsd & Hse & Hsp & H2).
  assert (Hseg2 : seg t (SNext (Node a)) (next s) l2 de) by (by exists sle).
  destruct (seg_head _ _ _ _ _ Hseg2) as (Hnext & nx & Hnx & Hnxd & Hnxp).
  rewrite Hnext in Hseg2.
  set (n := head_ptr l2) in *.
  assert (Hna : n <> Node a).
  { subst n. destruct l2 as [|[[b ?] ?] ?]; simpl; [done|].
    intros [= ->]. apply Ha2. left. }
  assert (Hn1 : forall x, x ∈ addrs l1 -> n <> Node x).
  { intros x Hx. subst n. destruct l2 as [|[[b ?] ?] ?]; simpl; [done|].
    intros [= ->]. apply (Hdis x Hx). right. left. }
  assert (Hchk : debug && evcmd_eqb (cmd (sev s)) EV_NULL = false).
  { destruct debug; [|done]. simpl. rewrite Hse.
    specialize (Hdbg eq_refl). by destruct (cmd e). }
  (* the four stores *)
  pose (t1 := wr t n (set_delta nx (wrap32 (delta nx + delta s)))).
  pose (t2 := wr t1 (Node a) (set_delta s 0)).
  assert (H1' : lseg t2 SFirst (first t2) l1 sm (Some (Node a))).
  { unfold t2, t1. rewrite !first_wr. eapply lseg_frame; [|exact H1].
    intros x Hx. rewrite !heap_wr_ne; [done| |].
    - by apply Hn1.
    - intros [= ->]. done. }
  destruct (lseg_redirect t2 l1 sm (Some (Node a)) (Some n) Hnd1 H1')
    as (t3 & Hst & H3 & Heot3 & Hag3).
  assert (Hrd3 : forall p, (forall x, x ∈ addrs l1 -> p <> Node x) ->
                           rd t3 p = rd t2 p).
  { intros [|x] Hp; simpl; [by rewrite Heot3|].
    rewrite Hag3; [done|]. intros Hx. by apply (Hp x Hx). }
  pose (t4 := wr t3 n (mkseqev (wrap32 (delta nx + delta s)) (sev nx)
                               (next nx) sm)).
  assert (R1 : rd t1 (Node a) = Done s).
  { unfold t1. rewrite rd_wr_ne by done. by apply rd_node. }
  assert (R2 : rd t2 (Node a) = Done (set_delta s 0)).
  { unfold t2. apply rd_wr_eq. }
  assert (R3 : rd t3 (Node a) = Done (set_delta s 0)).
  { rewrite Hrd3; [done|]. intros x Hx [= ->]. done. }
  assert (R4 : rd t3 n = Done (set_delta nx (wrap32 (delta nx + delta s)))).
  { rewrite (Hrd3 n Hn1). unfold t2. rewrite rd_wr_ne by done.
    unfold t1. apply rd_wr_eq. }
  exists t4, (set_delta s 0). split; [|split; [|split]].
  - unfold seqev_rm. rewrite (rd_node _ _ _ Hs). cbn [bind].
    rewrite Hchk, Hnext, Hnx. cbn [bind].
    change (wr t n (set_delta nx (wrap32 (delta nx + delta s)))) with t1.
    rewrite R1. cbn [bind].
    change (wr t1 (Node a) (set_delta s 0)) with t2.
    rewrite R2. cbn [bind].
    change (prev (set_delta s 0)) with (prev s).
    change (next (set_delta s 0)) with (next s).
    rewrite Hsp, Hnext, Hst. cbn [bind].
    rewrite R3. cbn [bind].
    change (next (set_delta s 0)) with (next s). rewrite Hnext.
    rewrite R4. cbn [bind].
    change (prev (set_delta s 0)) with (prev s). rewrite Hsp. done.
  - split.
    + rewrite addrs_app. unfold bump. rewrite addrs_set_head.
      apply NoDup_app. split; [done|]. split; [|done].
      intros x Hx Hx2. apply (Hdis x Hx). by right.
    + assert (Hsegn : seg t4 sm (Some n) (bump d l2)
                          (eot_delta l2 (wrap32 (de + d)) de)).
      { assert (Heq : set_head (wrap32 (delta nx + delta s)) l2 = bump d l2 /\
                      eot_delta l2 (wrap32 (delta nx + delta s)) de =
                      eot_delta l2 (wrap32 (de + d)) de).
        { rewrite Hnxd, Hsd. unfold bump.
          by destruct l2 as [|[[? ?] ?] ?]. }
        destruct Heq as [<- <-].
        eapply (seg_rebuild t t4); [exact Hseg2|exact Hnx| | |].
        - unfold t4. apply rd_wr_eq.
        - intros x Hx.
          assert (Hx2 : x ∈ addrs l2).
          { destruct l2 as [|? ?]; simpl in *; [done|]. by right. }
          assert (Hxn : n <> Node x).
          { subst n. destruct l2 as [|[[b ?] ?] l2]; simpl in *; [done|].
            intros [= ->]. apply NoDup_cons in Hnd2 as [Hb _]. done. }
          assert (Hxa : x <> a) by (intros ->; done).
          assert (Hx1 : x ∉ addrs l1).
          { intros Hin. apply (Hdis x Hin). by right. }
          unfold t4. rewrite heap_wr_ne by done.
          rewrite Hag3 by done. unfold t2, t1.
          rewrite !heap_wr_ne; [done|done|]. intros [= ->]. done.
        - intros Hne. unfold t4. destruct n as [|b]; [done|].
          simpl. rewrite Heot3. done. }
      destruct Hsegn as (sle' & Hl4 & Hconds).
      exists sle'. split; [|done].
      apply lseg_app. exists sm, (Some n). split; [|done].
      unfold t4. rewrite first_wr. eapply lseg_frame; [|exact H3].
      intros x Hx. rewrite heap_wr_ne; [done|]. by apply Hn1.
  - unfold t4. rewrite heap_wr_ne by done.
    rewrite Hag3 by done. unfold t2. apply heap_wr_eq.
  - done.
Qed.

(** [seqev_ins] of the event at address [b], which is not linked, before
    the first event of [l2] (the sentinel when [l2] is empty). *)
Lemma seqev_ins_spec (t : track) (l1 l2 : list item) (de : Z) (b : nat)
    (s0 : seqev) :
  is_track t (l1 ++ l2) de ->
  heap t !! b = Some s0 ->
  b ∉ addrs (l1 ++ l2) ->
  exists t',
    seqev_ins (head_ptr l2) (Node b) t = Done t' /\
    is_track t' (l1 ++ (b, head_delta l2 de, sev s0) :: zero l2)
             (eot_delta l2 0 de).
Proof.
  intros [Hnd Hseg] Hb Hfresh.
  rewrite addrs_app in Hnd, Hfresh.
  pose proof Hnd as Hnd0.
  apply NoDup_app in Hnd as (Hnd1 & Hdis & Hnd2).
  assert (Hb1 : b ∉ addrs l1) by (intros ?; apply Hfresh, elem_of_app; by left).
  assert (Hb2 : b ∉ addrs l2) by (intros ?; apply Hfresh, elem_of_app; by right).
  destruct Hseg as (sle & Hl & Hen & Hep & Hed).
  apply lseg_app in Hl as (sm & m & H1 & H2).
  assert (Hseg2 : seg t sm m l2 de) by (by exists sle).
  destruct (seg_head _ _ _ _ _ Hseg2) as (-> & nx & Hnx & Hnxd & Hnxp).
  set (n := head_ptr l2) in *.
  assert (Hnb : n <> Node b).
  { subst n. destruct l2 as [|[[c ?] ?] ?]; simpl; [done|].
    intros [= ->]. apply Hb2. left. }
  assert (Hn1 : forall x, x ∈ addrs l1 -> n <> Node x).
  { intros x Hx. subst n. destruct l2 as [|[[c ?] ?] ?]; simpl; [done|].
    intros [= ->]. apply (Hdis x Hx). left. }
  pose (s3 := set_next (set_delta s0 (delta nx)) (Some n)).
  pose (s4 := set_prev s3 sm).
  pose (t1 := wr t (Node b) (set_delta s0 (delta nx))).
  pose (t2 := wr t1 n (set_delta nx 0)).
  pose (t3 := wr t2 (Node b) s3).
  pose (t4 := wr t3 (Node b) s4).
  assert (H1' : lseg t4 SFirst (first t4) l1 sm (Some n)).
  { unfold t4, t3, t2, t1. rewrite !first_wr. eapply lseg_frame; [|exact H1].
    intros x Hx.
    assert (x <> b) by (intros ->; done).
    rewrite !heap_wr_ne; [done| | | |]; try (intros [= ->]; done).
    by apply Hn1. }
  destruct (lseg_redirect t4 l1 sm (Some n) (Some (Node b)) Hnd1 H1')
    as (t5 & Hst & H5 & Heot5 & Hag5).
  assert (Hrd5 : forall p, (forall x, x ∈ addrs l1 -> p <> Node x) ->
                           rd t5 p = rd t4 p).
  { intros [|x] Hp; simpl; [by rewrite Heot5|].
    rewrite Hag5; [done|]. intros Hx. by apply (Hp x Hx). }
  pose (t6 := wr t5 n (mkseqev 0 (sev nx) (next nx) (SNext (Node b)))).
  assert (R0 : rd t (Node b) = Done s0) by (by apply rd_node).
  assert (R1 : rd t1 n = Done nx).
  { unfold t1. rewrite rd_wr_ne by done. done. }
  assert (R2 : rd t2 (Node b) = Done (set_delta s0 (delta nx))).
  { unfold t2. rewrite rd_wr_ne by done. unfold t1. apply rd_wr_eq. }
  assert (R3n : rd t3 n = Done (set_delta nx 0)).
  { unfold t3. rewrite rd_wr_ne by done. unfold t2. apply rd_wr_eq. }
  assert (R3 : rd t3 (Node b) = Done s3) by (unfold t3; apply rd_wr_eq).
  assert (R4 : rd t4 (Node b) = Done s4) by (unfold t4; apply rd_wr_eq).
  assert (R4n : rd t4 n = Done (set_delta nx 0)).
  { unfold t4. rewrite rd_wr_ne by done. done. }
  assert (R5n : rd t5 n = Done (set_delta nx 0)).
  { rewrite (Hrd5 n Hn1). done. }
  exists t6. split.
  - unfold seqev_ins. fold n. rewrite Hnx, R0. cbn [bind].
    change (wr t (Node b) (set_delta s0 (delta nx))) with t1.
    rewrite R1. cbn [bind].
    change (wr t1 n (set_delta nx 0)) with t2.
    rewrite R2. cbn [bind].
    change (wr t2 (Node b) (set_next (set_delta s0 (delta nx)) (Some n)))
      with t3.
    rewrite R3n, R3. cbn [bind].
    change (prev (set_delta nx 0)) with (prev nx). rewrite Hnxp.
    change (wr t3 (Node b) (set_prev s3 sm)) with t4.
    rewrite R4. cbn [bind].
    change (prev s4) with sm. rewrite Hst. cbn [bind].
    rewrite R5n. cbn [bind]. done.
  - split.
    + rewrite addrs_app. simpl. unfold zero. rewrite addrs_set_head.
      apply NoDup_app. split; [done|]. split.
      * intros x Hx Hx2. apply elem_of_cons in Hx2 as [->|Hx2]; [done|].
        by apply (Hdis x Hx).
      * apply NoDup_cons. done.
    + assert (Hsegn : seg t6 (SNext (Node b)) (Some n) (zero l2)
                          (eot_delta l2 0 de)).
      { eapply (seg_rebuild t t6); [exact Hseg2|exact Hnx| | |].
        - unfold t6. apply rd_wr_eq.
        - intros x Hx.
          assert (Hx2 : x ∈ addrs l2).
          { destruct l2 as [|? ?]; simpl in *; [done|]. by right. }
          assert (Hxn : n <> Node x).
          { subst n. destruct l2 as [|[[c ?] ?] l2]; simpl in *; [done|].
            intros [= ->]. apply NoDup_cons in Hnd2 as [Hc _]. done. }
          assert (Hxb : x <> b) by (intros ->; done).
          assert (Hx1 : x ∉ addrs l1).
          { intros Hin. by apply (Hdis x Hin). }
          unfold t6. rewrite heap_wr_ne by done.
          rewrite Hag5 by done. unfold t4, t3, t2, t1.
          rewrite !heap_wr_ne; [done| | | |]; try done;
            intros [= ->]; done.
        - intros Hne. unfold t6. destruct n as [|c]; [done|].
          simpl. rewrite Heot5. done. }
      destruct Hsegn as (sle' & Hl6 & Hconds).
      exists sle'. split; [|done].
      apply lseg_app. exists sm, (Some (Node b)). split.
      * unfold t6. rewrite first_wr. eapply lseg_frame; [|exact H5].
        intros x Hx. rewrite heap_wr_ne; [done|]. by apply Hn1.
      * simpl. split; [done|]. exists s4. split.
        { unfold t6. rewrite heap_wr_ne by done.
          rewrite Hag5 by done. unfold t4. apply heap_wr_eq. }
        simpl. rewrite Hnxd. done.
Qed.

(** C8.  On a track, [seqev_rm] of an event other than the sentinel
    succeeds, clears the delta of the removed event and adds it (as
    [unsigned], modulo 2^32) to the delta of the event that followed, the
    sentinel included; [seqev_ins] of an unlinked event before a position,
    the sentinel included, succeeds, gives the new event the delta the
    position had and clears the delta of the position.  After either, the
    result is a track again: [track_numtic] returns what it returned
    before, and the traversal from [first] visits the remaining events in
    order and ends with the sentinel. *)
Theorem seqev_rm_ins_preserve (debug : bool) (t : track) (l1 l2 : list item)
    (de : Z) :
  (forall a d e,
     is_track t (l1 ++ (a, d, e) :: l2) de ->
     (debug = true -> cmd e <> EV_NULL) ->
     exists t' s',
       seqev_rm debug (Node a) t = Done t' /\
       heap t' !! a = Some s' /\ delta s' = 0 /\
       is_track t' (l1 ++ bump d l2) (eot_delta l2 (wrap32 (de + d)) de) /\
       track_numtic t' = track_numtic t /\
       track_walk t' = Done (map Node (addrs l1 ++ addrs l2) ++ [Eot])) /\
  (forall b s0,
     is_track t (l1 ++ l2) de ->
     heap t !! b = Some s0 ->
     b ∉ addrs (l1 ++ l2) ->
     exists t',
       seqev_ins (head_ptr l2) (Node b) t = Done t' /\
       is_track t' (l1 ++ (b, head_delta l2 de, sev s0) :: zero l2)
                (eot_delta l2 0 de) /\
       track_numtic t' = track_numtic t /\
       track_walk t' = Done (map Node (addrs l1 ++ b :: addrs l2) ++ [Eot])).
Proof.
  split.
  - intros a d e Ht Hdbg.
    destruct (seqev_rm_spec debug t l1 l2 a d de e Ht Hdbg)
      as (t' & s' & Hrm & Ht' & Ha & Hd).
    exists t', s'. repeat (split; [done|]).
    destruct (is_track_walk _ _ _ Ht) as [_ Hnum].
    destruct (is_track_walk _ _ _ Ht') as [Hwalk' Hnum'].
    split.
    + rewrite Hnum, Hnum'. f_equal. apply total_rm.
    + rewrite Hwalk'. rewrite addrs_app. unfold bump.
      by rewrite addrs_set_head.
  - intros b s0 Ht Hb Hfresh.
    destruct (seqev_ins_spec t l1 l2 de b s0 Ht Hb Hfresh) as (t' & Hins & Ht').
    exists t'. repeat (split; [done|]).
    destruct (is_track_walk _ _ _ Ht) as [_ Hnum].
    destruct (is_track_walk _ _ _ Ht') as [Hwalk' Hnum'].
    split.
    + rewrite Hnum, Hnum'. f_equal. apply total_ins.
    + rewrite Hwalk'. rewrite addrs_app. simpl. unfold zero.
      by rewrite addrs_set_head.
Qed.

Lemma sample_is_track : is_track sample_track sample_items 30.
Proof.
  split.
  - apply (bool_decide_unpack _). by vm_compute.
  - exists (SNext (Node 2)). split; [|done].
    simpl. split; [done|]. eexists. split; [by vm_compute|].
    simpl. repeat split. eexists. split; [by vm_compute|]. done.
Qed.

(** C8 on the sample track: the first note is removed; the unlinked event
    at address 3 is inserted before the second note. *)
Lemma seqev_rm_ins_preserve_witness :
  (exists t' s',
     seqev_rm false (Node 1) sample_track = Done t' /\
     heap t' !! 1%nat = Some s' /\ delta s' = 0 /\
     is_track t' ([] ++ bump 10 [(2%nat, 20, note_off 60 0)])
              (eot_delta [(2%nat, 20, note_off 60 0)] (wrap32 (30 + 10)) 30) /\
     track_numtic t' = track_numtic sample_track /\
     track_walk t' =
       Done (map Node (addrs [] ++ addrs [(2%nat, 20, note_off 60 0)]) ++ [Eot])) /\
  (exists t',
     seqev_ins (head_ptr [(2%nat, 20, note_off 60 0)]) (Node 3) sample_track
       = Done t' /\
     is_track t'
       ([(1%nat, 10, note_on 60 100)] ++
        (3%nat, head_delta [(2%nat, 20, note_off 60 0)] 30, note_on 64 90)
          :: zero [(2%nat, 20, note_off 60 0)])
       (eot_delta [(2%nat, 20, note_off 60 0)] 0 30) /\
     track_numtic t' = track_numtic sample_track /\
     track_walk t' =
       Done (map Node (addrs [(1%nat, 10, note_on 60 100)] ++
                       3%nat :: addrs [(2%nat, 20, note_off 60 0)]) ++ [Eot])).
Proof.
  split.
  - apply (proj1 (seqev_rm_ins_preserve false sample_track []
                    [(2%nat, 20, note_off 60 0)] 30) 1%nat 10 (note_on 60 100)).
    + exact sample_is_track.
    + discriminate.
  - apply (proj2 (seqev_rm_ins_preserve false sample_track
                    [(1%nat, 10, note_on 60 100)]
                    [(2%nat, 20, note_off 60 0)] 30) 3%nat
                 (mkseqev 0 (note_on 64 90) None SFirst)).
    + exact sample_is_track.
    + by vm_compute.
    + apply (bool_decide_unpack _). by vm_compute.
Defined.

End TrackFacts.

(** ** mux.c *)
Section MuxFacts.
Import Mux.

(** The constants the spec quotes. *)
Lemma mux_constants :
  MUX_START_DELAY = 8000000 /\ DEFAULT_USEC24 = 500000.
Proof. split; reflexivity. Qed.

(** C10, as the code has it.  [mux_startreq] panics when the phase is not
    STOP.  When it is STOP the call returns with [mux_reqphase] equal to
    STARTWAIT and [mux_curpos] equal to 0; without external clock and
    without MTC source the start is generated at once, so that on return
    [mux_phase] is START and [mux_nextpos] is [MUX_START_DELAY]; with an
    external clock or an MTC source [mux_phase] is STARTWAIT and
    [mux_nextpos] is the tick length. *)
Theorem mux_startreq_spec (song_goto : Z -> Z -> Z) (manualstart : Z) (s : mux) :
  (mux_phase (globals s) <> MUX_STOP ->
   mux_startreq song_goto manualstart s = Panic) /\
  (mux_phase (globals s) = MUX_STOP ->
   exists s',
     mux_startreq song_goto manualstart s = Done s' /\
     mux_reqphase (globals s') = MUX_STARTWAIT /\
     mux_manualstart (globals s') = wrap32 manualstart /\
     mux_curpos (globals s') = 0 /\
     (mididev_clksrc s = None -> mididev_mtcsrc s = None ->
      mux_phase (globals s') = MUX_START /\
      mux_nextpos (globals s') = MUX_START_DELAY) /\
     (mididev_clksrc s <> None \/ mididev_mtcsrc s <> None ->
      mux_phase (globals s') = MUX_STARTWAIT /\
      mux_nextpos (globals s') = mux_ticlength (globals s))).
Proof.
  destruct s as [g devs clk mtc sg sy]. destruct g. simpl. split.
  - intros Hph. unfold mux_startreq. simpl.
    apply Z.eqb_neq in Hph. by rewrite Hph.
  - intros ->. unfold mux_startreq. simpl.
    destruct clk as [c|], mtc as [m|]; simpl;
      (eexists; split; [reflexivity|]; simpl; intuition congruence).
Qed.

(** C10 fails on the code: a start request on the freshly opened
    transport, without external sources, returns in phase START. *)
Lemma mux_startreq_returns_in_start :
  exists s',
    mux_startreq (fun _ _ => 0) 1 (mux_open [clock_dev 0] None None) = Done s' /\
    mux_reqphase (globals s') = MUX_STARTWAIT /\
    mux_phase (globals s') = MUX_START /\
    mux_phase (globals s') <> MUX_STARTWAIT.
Proof.
  eexists. split; [vm_compute; reflexivity|].
  split; [reflexivity|]. split; [reflexivity|]. vm_compute. discriminate.
Qed.

(** C10 as amended, on the freshly opened transport. *)
Lemma mux_startreq_spec_witness :
  exists s',
    mux_startreq (fun _ _ => 0) 1 (mux_open [clock_dev 0] None None) = Done s' /\
    mux_reqphase (globals s') = MUX_STARTWAIT /\
    mux_manualstart (globals s') = wrap32 1 /\
    mux_curpos (globals s') = 0 /\
    (mididev_clksrc (mux_open [clock_dev 0] None None) = None ->
     mididev_mtcsrc (mux_open [clock_dev 0] None None) = None ->
     mux_phase (globals s') = MUX_START /\
     mux_nextpos (globals s') = MUX_START_DELAY) /\
    (mididev_clksrc (mux_open [clock_dev 0] None None) <> None \/
     mididev_mtcsrc (mux_open [clock_dev 0] None None) <> None ->
     mux_phase (globals s') = MUX_STARTWAIT /\
     mux_nextpos (globals s') =
       mux_ticlength (globals (mux_open [clock_dev 0] None None))).
Proof.
  apply (proj2 (mux_startreq_spec (fun _ _ => 0) 1
                  (mux_open [clock_dev 0] None None))).
  reflexivity.
Defined.

Lemma lookup_map {A B : Type} (f : A -> B) (l : list A) (i : nat) :
  map f l !! i = f <$> l !! i.
Proof.
  revert i. induction l as [|x l IH]; intros [|i]; simpl; done.
Qed.

Lemma mux_stopcb_running (s : mux) :
  MUX_START <= mux_phase (globals s) <= MUX_NEXT ->
  mux_phase (globals (mux_stopcb s)) = mux_reqphase (globals s) /\
  mux_reqphase (globals (mux_stopcb s)) = mux_reqphase (globals s) /\
  song (mux_stopcb s) = song s ++ [song_stopcb] /\
  forall i d, mididev_list s !! i = Some d ->
    exists d', mididev_list (mux_stopcb s) !! i = Some d' /\
      out d' = out d ++ (if sends_clock s i d then [0xfc] else []).
Proof.
  intros [Hlo Hhi]. unfold mux_stopcb.
  apply Z.leb_le in Hlo, Hhi. rewrite Hlo, Hhi. simpl.
  repeat split. intros i d Hd.
  rewrite lookup_map, list_lookup_imap, Hd. simpl. eexists. split; [done|].
  unfold mididev_flush. destruct (sends_clock s i d); simpl; [done|].
  by rewrite app_nil_r.
Qed.

(** C2, as the code has it.  In a phase from START to NEXT_TIC, a MIDI
    stop event ([mux_stopcb]) moves the transport to the requested phase
    [mux_reqphase], and a stop request ([mux_stopreq]) moves it to STOP.
    In both cases every device with [sendclk] set that is not the clock
    source is handed a MIDI stop byte, the other devices none; a stop
    request then adds the MMC stop message for the devices with
    [sendmmc]. *)
Theorem mux_stop_spec (s : mux) :
  MUX_START <= mux_phase (globals s) <= MUX_NEXT ->
  (mux_phase (globals (mux_stopcb s)) = mux_reqphase (globals s) /\
   forall i d, mididev_list s !! i = Some d ->
     exists d', mididev_list (mux_stopcb s) !! i = Some d' /\
       out d' = out d ++ (if sends_clock s i d then [0xfc] else [])) /\
  (mux_phase (globals (mux_stopreq s)) = MUX_STOP /\
   mux_reqphase (globals (mux_stopreq s)) = MUX_STOP /\
   forall i d, mididev_list s !! i = Some d ->
     exists d', mididev_list (mux_stopreq s) !! i = Some d' /\
       out d' = out d ++ (if sends_clock s i d then [0xfc] else [])
                      ++ (if sendmmc d =? 0 then [] else mmc_stop)).
Proof.
  intros Hph. split.
  - destruct (mux_stopcb_running s Hph) as (H1 & _ & _ & H4). done.
  - set (s1 := set_globals s (set_reqphase (globals s) MUX_STOP)).
    assert (Hph1 : MUX_START <= mux_phase (globals s1) <= MUX_NEXT) by done.
    destruct (mux_stopcb_running s1 Hph1) as (H1 & H2 & _ & H4).
    unfold mux_stopreq. fold s1.
    assert (Hlt : (mux_phase (globals s1) <? MUX_STOP) = true).
    { apply Z.ltb_lt. unfold MUX_NEXT, MUX_STOP in *. lia. }
    rewrite Hlt.
    change (globals (send_mmc mmc_stop (mux_stopcb s1)))
      with (globals (mux_stopcb s1)).
    split; [done|]. split; [done|].
    intros i d Hd. destruct (H4 i d Hd) as (d' & Hd' & Hout).
    change (mididev_list (send_mmc mmc_stop (mux_stopcb s1)))
      with (map (fun d => if sendmmc d =? 0 then d
                          else mididev_sendraw d mmc_stop)
                (mididev_list (mux_stopcb s1))).
    rewrite lookup_map, Hd'. simpl. eexists. split; [done|].
    assert (Hmmc : sendmmc d' = sendmmc d).
    { clear -Hd Hd' Hph1. unfold mux_stopcb in Hd'.
      destruct Hph1 as [Hlo Hhi]. apply Z.leb_le in Hlo, Hhi.
      rewrite Hlo, Hhi in Hd'. simpl in Hd'.
      rewrite lookup_map, list_lookup_imap, Hd in Hd'. simpl in Hd'.
      injection Hd' as <-. by destruct (sends_clock s1 i d). }
    rewrite Hmmc. destruct (sendmmc d =? 0); simpl.
    + by rewrite Hout, app_nil_r.
    + by rewrite Hout, <- app_assoc.
Qed.

(** A second device, for a setup with an external clock. *)
Lemma mux_stop_spec_witness :
  let s := mkmux (mktransport 96 500000 0 500000 1 MUX_NEXT MUX_STARTWAIT 0 0)
                 [clock_dev 0; clock_dev 1] (Some 0%nat) None [] [] in
  (mux_phase (globals (mux_stopcb s)) = mux_reqphase (globals s) /\
   forall i d, mididev_list s !! i = Some d ->
     exists d', mididev_list (mux_stopcb s) !! i = Some d' /\
       out d' = out d ++ (if sends_clock s i d then [0xfc] else [])) /\
  (mux_phase (globals (mux_stopreq s)) = MUX_STOP /\
   mux_reqphase (globals (mux_stopreq s)) = MUX_STOP /\
   forall i d, mididev_list s !! i = Some d ->
     exists d', mididev_list (mux_stopreq s) !! i = Some d' /\
       out d' = out d ++ (if sends_clock s i d then [0xfc] else [])
                      ++ (if sendmmc d =? 0 then [] else mmc_stop)).
Proof.
  intros s. apply (mux_stop_spec s). unfold s, MUX_START, MUX_NEXT. simpl. lia.
Defined.

(** C2 fails on the code: device 0 is the external clock, device 1 sends
    clock.  After a start request, the MIDI start and two ticks of the
    external clock the phase is NEXT_TIC; the MIDI stop event then hands
    the stop byte to device 1 and takes the transport back to STARTWAIT,
    the phase still requested, not to STOP. *)
Lemma mux_stopcb_back_to_startwait :
  exists s3,
    external_clock_run = Done s3 /\
    mux_phase (globals s3) = MUX_NEXT /\
    mux_phase (globals (mux_stopcb s3)) = MUX_STARTWAIT /\
    mux_phase (globals (mux_stopcb s3)) <> MUX_STOP /\
    (out <$> mididev_list (mux_stopcb s3) !! 1%nat)
      = Some [0xf8; 0xfa; 0xf8; 0xf8; 0xfc].
Proof.
  eexists. split; [vm_compute; reflexivity|].
  split; [vm_compute; reflexivity|]. split; [vm_compute; reflexivity|].
  split; [vm_compute; discriminate|vm_compute; reflexivity].
Qed.

Lemma sendtic_loop_done (n : nat) : forall rate d,
  0 < rate -> dev_ok d -> (Z.to_nat (ticdelta d) <= n)%nat ->
  exists d', sendtic_loop n rate d = Done d' /\ dev_ok d'.
Proof.
  induction n as [|n IH]; intros rate d Hr (Hm & Ht & Hrt) Hn; simpl.
  - assert (ticdelta d = 0) as -> by lia.
    destruct (Z.leb_spec rate 0); [lia|]. by exists d.
  - destruct (Z.leb_spec rate (ticdelta d)); [|by exists d].
    apply IH; [done| |].
    + unfold dev_ok, wrap32, UINT_MOD in *. simpl.
      rewrite Z.mod_small by lia. repeat split; lia.
    + simpl. unfold wrap32, UINT_MOD in *. rewrite Z.mod_small by lia. lia.
Qed.

Lemma mux_sendtic_single (s : mux) (d : mididev) :
  mididev_list s = [d] -> dev_ok d -> 0 < mux_ticrate (globals s) ->
  exists d', mux_sendtic s = Done (set_devs s [d']) /\ dev_ok d'.
Proof.
  intros Hl Hd Hr. unfold mux_sendtic. rewrite Hl. simpl.
  destruct (sends_clock s 0 d).
  - destruct (sendtic_loop_done (Z.to_nat (ticdelta d))
                (mux_ticrate (globals s)) d Hr Hd ltac:(lia))
      as (d1 & -> & (Hm1 & Ht1 & Hr1)).
    simpl. eexists. split; [reflexivity|].
    unfold dev_ok. simpl. split; [done|]. split; [|done].
    unfold wrap32, UINT_MOD. apply Z.mod_pos_bound. lia.
  - simpl. by exists d.
Qed.

Lemma mux_ticcb_internal (s : mux) :
  mididev_clksrc s = None -> mux_ticcb s = ticcb_body s.
Proof. intros H. unfold mux_ticcb, clksrc_dev. rewrite H. simpl.
  unfold clksrc_dev. by rewrite H. Qed.

(** A tick in phase START: the first tick. *)
Lemma ticcb_body_first (T : Z) (s : mux) :
  internal_clock T s -> mux_phase (globals s) = MUX_START ->
  exists s',
    ticcb_body s = Done s' /\ internal_clock T s' /\
    song s' = song s ++ [song_startcb] /\
    globals s' =
      set_curtic (set_phase (set_nextpos (set_curpos (globals s) 0) T)
                            MUX_FIRST) 0.
Proof.
  intros (Hc & Hm & (d & Hl & Hd) & HT & HTr & Hr) Hph.
  unfold ticcb_body. rewrite Hph. simpl.
  set (s1 := set_globals _ _).
  destruct (mux_sendtic_single s1 d Hl Hd) as (d' & Hs & Hd'); [done|].
  rewrite Hs. simpl. eexists. split; [reflexivity|]. split.
  - unfold internal_clock. simpl. repeat split; try done; try lia. by exists d'.
  - simpl. by rewrite HT.
Qed.

(** A tick in phase FIRST_TIC or NEXT_TIC. *)
Lemma ticcb_body_next (T : Z) (s : mux) :
  internal_clock T s ->
  mux_phase (globals s) = MUX_FIRST \/ mux_phase (globals s) = MUX_NEXT ->
  exists s',
    ticcb_body s = Done s' /\ internal_clock T s' /\
    song s' = song s ++ [song_movecb] /\
    globals s' =
      set_curtic (set_phase (globals s) MUX_NEXT)
                 (wrap32 (mux_curtic (globals s) + 1)).
Proof.
  intros (Hc & Hm & (d & Hl & Hd) & HT & HTr & Hr) Hph.
  unfold ticcb_body.
  destruct Hph as [Hph|Hph]; rewrite Hph; simpl; rewrite ?Hph; simpl.
  - set (s1 := set_globals _ _).
    destruct (mux_sendtic_single s1 d Hl Hd) as (d' & Hs & Hd'); [done|].
    rewrite Hs. simpl. eexists. split; [reflexivity|]. split; [|done].
    unfold internal_clock. simpl. repeat split; try done; try lia. by exists d'.
  - set (s1 := set_globals _ _).
    destruct (mux_sendtic_single s1 d Hl Hd) as (d' & Hs & Hd'); [done|].
    rewrite Hs. simpl. eexists. split; [reflexivity|]. split.
    + unfold internal_clock. simpl. repeat split; try done; try lia.
      by exists d'.
    + split; [done|]. simpl. unfold set_curtic, set_phase. simpl.
      by rewrite Hph.
Qed.

Lemma internal_clock_globals (T : Z) (s : mux) (g : transport) :
  internal_clock T s ->
  mux_ticlength g = mux_ticlength (globals s) ->
  mux_ticrate g = mux_ticrate (globals s) ->
  internal_clock T (set_globals s g).
Proof.
  intros (Hc & Hm & Hd & HT & HTr & Hr) H1 H2.
  unfold internal_clock. simpl. rewrite H1, H2. done.
Qed.

Lemma div_sub_one (c T : Z) :
  0 < T -> (c - T) / T = c / T - 1 /\ (c - T) mod T = c mod T.
Proof.
  intros HT. replace (c - T) with (c + (-1) * T) by lia.
  rewrite Z.div_add, Z_mod_plus_full by lia. lia.
Qed.

(** The loop of [mux_mtctick] while the transport runs: one tick for
    every whole tick length in the position accumulator. *)
Lemma mtctick_loop_run (T : Z) (n : nat) : forall s c,
  internal_clock T s ->
  mux_manualstart (globals s) = 0 ->
  mux_phase (globals s) = MUX_FIRST \/ mux_phase (globals s) = MUX_NEXT ->
  mux_nextpos (globals s) = T ->
  mux_curpos (globals s) = c -> 0 <= c < ULONG_MOD ->
  0 <= mux_curtic (globals s) < UINT_MOD ->
  (Z.to_nat (c / T) <= n)%nat ->
  exists s',
    mtctick_loop n s = Done s' /\
    internal_clock T s' /\
    mux_manualstart (globals s') = 0 /\
    (mux_phase (globals s') = MUX_FIRST \/ mux_phase (globals s') = MUX_NEXT) /\
    mux_nextpos (globals s') = T /\
    mux_curpos (globals s') = c mod T /\
    0 <= mux_curtic (globals s') < UINT_MOD /\
    mux_curtic (globals s') = wrap32 (mux_curtic (globals s) + c / T) /\
    song s' = song s ++ repeat song_movecb (Z.to_nat (c / T)).
Proof.
  induction n as [|n IH]; intros s c Hic Hman Hph Hnp Hcp Hc Hct Hn.
  - pose proof Hic as (_ & _ & _ & _ & HTr & _).
    assert (Hq : c / T = 0).
    { pose proof (Z.div_pos c T ltac:(lia) ltac:(lia)). lia. }
    assert (HcT : c < T).
    { apply Z.div_small_iff in Hq; lia. }
    simpl. rewrite Hnp, Hcp. destruct (Z.leb_spec T c); [lia|].
    exists s. rewrite Hq, Z.mod_small by lia. simpl.
    rewrite app_nil_r, Z.add_0_r. unfold wrap32.
    rewrite Z.mod_small by done. done.
  - pose proof Hic as (Hclk & _ & _ & HT & HTr & _).
    simpl. rewrite Hnp, Hcp. destruct (Z.leb_spec T c) as [Hle|Hlt].
    + rewrite Hman. simpl.
      set (g1 := set_nextpos _ _).
      assert (Hic1 : internal_clock T (set_globals s g1)).
      { by apply internal_clock_globals. }
      rewrite mux_ticcb_internal by done.
      destruct (ticcb_body_next T (set_globals s g1) Hic1)
        as (s2 & -> & Hic2 & Hsong2 & Hg2); [done|].
      simpl.
      destruct (div_sub_one c T ltac:(lia)) as [Hdiv Hmod].
      pose proof (Z.div_pos (c - T) T ltac:(lia) ltac:(lia)) as Hq0.
      assert (Hw : wrap64 (c - T) = c - T).
      { unfold wrap64. apply Z.mod_small. lia. }
      assert (P1 : mux_manualstart (globals s2) = 0) by (by rewrite Hg2).
      assert (P2 : mux_phase (globals s2) = MUX_FIRST \/
                   mux_phase (globals s2) = MUX_NEXT) by (right; by rewrite Hg2).
      assert (P3 : mux_nextpos (globals s2) = T) by (by rewrite Hg2).
      assert (P4 : mux_curpos (globals s2) = c - T) by (by rewrite Hg2).
      assert (P5 : 0 <= c - T < ULONG_MOD) by lia.
      assert (P6 : 0 <= mux_curtic (globals s2) < UINT_MOD).
      { rewrite Hg2. simpl. unfold wrap32, UINT_MOD. apply Z.mod_pos_bound. lia. }
      assert (P7 : (Z.to_nat ((c - T) / T) <= n)%nat) by lia.
      destruct (IH s2 (c - T) Hic2 P1 P2 P3 P4 P5 P6 P7) as
        (s' & -> & Hic' & Hman' & Hph' & Hnp' & Hcp' & Hct' & Hctv & Hsong').
      exists s'. split; [done|]. split; [done|]. split; [done|].
      split; [done|]. split; [done|]. split; [by rewrite Hcp', Hmod|].
      split; [done|]. split.
      * rewrite Hctv, Hg2. simpl. rewrite Hdiv, wrap32_add_idemp_l.
        f_equal. lia.
      * rewrite Hsong', Hsong2. simpl. rewrite <- app_assoc. f_equal.
        rewrite Hdiv.
        replace (Z.to_nat (c / T)) with (S (Z.to_nat (c / T - 1))) by lia.
        done.
    + assert (Hq : c / T = 0) by (apply Z.div_small; lia).
      exists s. rewrite Hq, Z.mod_small by lia. simpl.
      rewrite app_nil_r, Z.add_0_r. unfold wrap32.
      rewrite Z.mod_small by done. done.
Qed.

Lemma bind_done_r {A : Type} (x : outcome A) : (let* a := x in Done a) = x.
Proof. by destruct x. Qed.

Lemma timercb_sensing_ok (delta : Z) (d : mididev) :
  dev_ok d -> dev_ok (fst (timercb_sensing delta d)).
Proof.
  intros (Hm & Ht & Hr). unfold timercb_sensing.
  destruct (negb (isensto d =? 0)); [destruct (isensto d <=? delta)|];
    (destruct (negb (osensto _ =? 0)) eqn:Ho; simpl in *;
     [destruct (osensto d <=? delta); simpl; rewrite Hm; simpl|]; done).
Qed.

Lemma fold_call_sys (log : list syscall) : forall s,
  globals (fold_left call_sys log s) = globals s /\
  mididev_list (fold_left call_sys log s) = mididev_list s /\
  mididev_clksrc (fold_left call_sys log s) = mididev_clksrc s /\
  mididev_mtcsrc (fold_left call_sys log s) = mididev_mtcsrc s /\
  song (fold_left call_sys log s) = song s.
Proof.
  induction log as [|c log IH]; intros s; simpl; [done|].
  destruct (IH (call_sys s c)) as (-> & -> & -> & -> & ->). done.
Qed.

(** With one device the loop of [mux_timercb] runs its body once. *)
Lemma mux_timercb_single (T delta : Z) (s : mux) :
  internal_clock T s ->
  exists s1,
    mux_timercb delta s = timercb_clock delta s1 /\
    internal_clock T s1 /\
    song s1 = song s /\
    globals s1 =
      set_wallclock (globals s) (wrap64 (mux_wallclock (globals s) + delta)).
Proof.
  intros (Hc & Hm & (d & Hl & Hd) & HT & HTr & Hr).
  unfold mux_timercb. simpl. rewrite Hl. simpl. rewrite Hl. simpl.
  pose proof (timercb_sensing_ok delta d Hd) as Hd1.
  destruct (timercb_sensing delta d) as [d1 log]. simpl in Hd1.
  set (s0 := set_devs _ _).
  destruct (fold_call_sys log s0) as (Hg & Hdev & Hclk & Hmtc & Hsong).
  exists (fold_left call_sys log s0). split; [apply bind_done_r|].
  split; [|by rewrite Hsong, Hg].
  unfold internal_clock. rewrite Hg, Hdev, Hclk, Hmtc. simpl.
  repeat split; try done; try lia. by exists d1.
Qed.

(** The internal clock in phase START, before the start delay is over. *)
Lemma timercb_clock_wait (T delta : Z) (s : mux) :
  internal_clock T s ->
  mux_phase (globals s) = MUX_START ->
  0 <= mux_curpos (globals s) -> 0 <= delta ->
  mux_curpos (globals s) + delta < mux_nextpos (globals s) ->
  mux_nextpos (globals s) < ULONG_MOD ->
  timercb_clock delta s =
    Done (set_globals s (set_curpos (globals s)
                                    (mux_curpos (globals s) + delta))).
Proof.
  intros (Hc & Hm & _) Hph Hc0 Hd Hlt Hnp.
  unfold timercb_clock. rewrite Hc, Hm, Hph. simpl.
  unfold wrap64. rewrite Z.mod_small by lia.
  destruct (Z.leb_spec (mux_nextpos (globals s))
                       (mux_curpos (globals s) + delta)); [lia|done].
Qed.

(** The internal clock in phase START, when the start delay is over. *)
Lemma timercb_clock_fire (T delta : Z) (s : mux) :
  internal_clock T s ->
  mux_manualstart (globals s) = 0 ->
  mux_phase (globals s) = MUX_START ->
  0 <= mux_curpos (globals s) -> 0 <= delta ->
  mux_nextpos (globals s) <= mux_curpos (globals s) + delta < ULONG_MOD ->
  exists s',
    timercb_clock delta s = Done s' /\
    internal_clock T s' /\
    song s' = song s ++ [song_startcb] /\
    globals s' =
      set_curtic (set_phase (set_nextpos (set_curpos (globals s) 0) T)
                            MUX_FIRST) 0.
Proof.
  intros Hic Hman Hph Hc0 Hd Hge.
  pose proof Hic as (Hc & Hm & _ & HT & HTr & _).
  unfold timercb_clock. rewrite Hc, Hm, Hph. simpl.
  unfold wrap64 at 1. rewrite Z.mod_small by lia.
  destruct (Z.leb_spec (mux_nextpos (globals s))
                       (mux_curpos (globals s) + delta)); [|lia].
  unfold mux_mtctick. simpl. rewrite Hman, Hph. simpl.
  match goal with |- context [mux_ticcb ?x] => set (sx := x) end.
  assert (Hicx : internal_clock T sx).
  { destruct Hic as (? & ? & ? & ? & ? & ?).
    unfold internal_clock, sx. simpl. repeat split; try done; lia. }
  rewrite mux_ticcb_internal by done.
  destruct (ticcb_body_first T sx Hicx) as (s2 & -> & Hic2 & Hsong2 & Hg2);
    [done|].
  simpl. rewrite Hg2. simpl.
  destruct (Z.leb_spec T 0); [lia|].
  exists s2. split; [done|]. split; [done|]. split; [done|].
  rewrite Hg2. unfold sx. simpl. by destruct (globals s).
Qed.

(** The internal clock while the transport runs. *)
Lemma timercb_clock_run (T delta : Z) (s : mux) :
  internal_clock T s ->
  mux_manualstart (globals s) = 0 ->
  mux_phase (globals s) = MUX_FIRST \/ mux_phase (globals s) = MUX_NEXT ->
  mux_nextpos (globals s) = T ->
  0 <= mux_curpos (globals s) < T -> 0 <= delta < UINT_MOD ->
  0 <= mux_curtic (globals s) < UINT_MOD ->
  exists s',
    timercb_clock delta s = Done s' /\
    internal_clock T s' /\
    mux_manualstart (globals s') = 0 /\
    (mux_phase (globals s') = MUX_FIRST \/ mux_phase (globals s') = MUX_NEXT) /\
    mux_nextpos (globals s') = T /\
    mux_curpos (globals s') = (mux_curpos (globals s) + delta) mod T /\
    0 <= mux_curtic (globals s') < UINT_MOD /\
    mux_curtic (globals s') =
      wrap32 (mux_curtic (globals s) + (mux_curpos (globals s) + delta) / T) /\
    song s' =
      song s ++
      repeat song_movecb (Z.to_nat ((mux_curpos (globals s) + delta) / T)).
Proof.
  intros Hic Hman Hph Hnp Hc Hd Hct.
  pose proof Hic as (Hclk & Hm & _ & HT & HTr & _).
  unfold timercb_clock. rewrite Hclk, Hm.
  assert (Hsel : (mux_phase (globals s) =? MUX_STARTWAIT) = false /\
                 (mux_phase (globals s) =? MUX_START) = false /\
                 ((mux_phase (globals s) =? MUX_FIRST) ||
                  (mux_phase (globals s) =? MUX_NEXT)) = true).
  { destruct Hph as [-> | ->]; done. }
  destruct Hsel as (-> & -> & ->).
  unfold mux_mtctick.
  assert (Hd32 : wrap32 delta = delta) by (apply Z.mod_small; lia).
  rewrite Hd32.
  assert (Hw : wrap64 (mux_curpos (globals s) + delta) =
               mux_curpos (globals s) + delta).
  { unfold wrap64, ULONG_MOD, UINT_MOD in *. apply Z.mod_small. lia. }
  rewrite Hw. simpl.
  set (g1 := set_curpos _ _).
  assert (P0 : internal_clock T (set_globals s g1)).
  { by apply internal_clock_globals. }
  assert (P5 : 0 <= mux_curpos (globals s) + delta < ULONG_MOD).
  { unfold ULONG_MOD, UINT_MOD in *. lia. }
  assert (P7 : (Z.to_nat ((mux_curpos (globals s) + delta) / T) <=
                S (Z.to_nat ((mux_curpos (globals s) + delta) /
                             mux_ticlength (globals s))))%nat).
  { rewrite HT. lia. }
  destruct (mtctick_loop_run T _ (set_globals s g1)
              (mux_curpos (globals s) + delta) P0 Hman Hph Hnp eq_refl P5 Hct P7)
    as (s' & Hrun & Hres).
  exists s'. split; [exact Hrun|]. exact Hres.
Qed.

(** Timer calls in phase START that do not reach the start delay. *)
Lemma timer_run_wait (T : Z) (ds : list Z) : forall s,
  internal_clock T s ->
  mux_manualstart (globals s) = 0 ->
  mux_phase (globals s) = MUX_START ->
  0 <= mux_curpos (globals s) ->
  Forall (fun d => 0 <= d < UINT_MOD) ds ->
  mux_curpos (globals s) + sumZ ds < mux_nextpos (globals s) ->
  mux_nextpos (globals s) < ULONG_MOD ->
  exists s',
    timer_run ds s = Done s' /\
    internal_clock T s' /\
    mux_manualstart (globals s') = 0 /\
    mux_phase (globals s') = MUX_START /\
    mux_curpos (globals s') = mux_curpos (globals s) + sumZ ds /\
    mux_nextpos (globals s') = mux_nextpos (globals s) /\
    song s' = song s.
Proof.
  induction ds as [|d ds IH]; intros s Hic Hman Hph Hc0 Hds Hlt Hnp.
  - exists s. simpl. rewrite Z.add_0_r. done.
  - apply Forall_cons in Hds as [Hd Hds]. simpl in Hlt.
    assert (Hsum : 0 <= sumZ ds).
    { clear -Hds. induction Hds; simpl; lia. }
    destruct (mux_timercb_single T d s Hic) as (s1 & Hrun & Hic1 & Hsong1 & Hg1).
    simpl. rewrite Hrun.
    rewrite (timercb_clock_wait T d s1 Hic1); rewrite ?Hg1; simpl;
      try done; try lia.
    destruct (IH (set_globals s1
                    (set_curpos (set_wallclock (globals s)
                       (wrap64 (mux_wallclock (globals s) + d)))
                       (mux_curpos (globals s) + d))))
      as (s' & Hrun' & Hic' & Hman' & Hph' & Hcp' & Hnp' & Hsong');
      simpl; try done; try lia.
    + apply internal_clock_globals; [done| |]; by rewrite Hg1.
    + simpl in Hcp', Hnp', Hsong'.
      exists s'. split; [done|]. split; [done|]. split; [done|].
      split; [done|]. split; [rewrite Hcp'; lia|]. split; [done|].
      by rewrite Hsong'.
Qed.

Lemma div_mod_step (c d r T : Z) :
  0 < T ->
  (c + d) / T + ((c + d) mod T + r) / T = (c + (d + r)) / T /\
  ((c + d) mod T + r) mod T = (c + (d + r)) mod T.
Proof.
  intros HT. pose proof (Z.div_mod (c + d) T ltac:(lia)) as Hdm.
  replace (c + (d + r)) with ((c + d) mod T + r + (c + d) / T * T) by lia.
  rewrite Z.div_add, Z_mod_plus_full by lia. lia.
Qed.

(** Timer calls while the transport runs. *)
Lemma timer_run_ticks (T : Z) (ds : list Z) : forall s,
  internal_clock T s ->
  mux_manualstart (globals s) = 0 ->
  mux_phase (globals s) = MUX_FIRST \/ mux_phase (globals s) = MUX_NEXT ->
  mux_nextpos (globals s) = T ->
  0 <= mux_curpos (globals s) < T ->
  0 <= mux_curtic (globals s) < UINT_MOD ->
  Forall (fun d => 0 <= d < UINT_MOD) ds ->
  exists s',
    timer_run ds s = Done s' /\
    mux_curpos (globals s') = (mux_curpos (globals s) + sumZ ds) mod T /\
    mux_curtic (globals s') =
      wrap32 (mux_curtic (globals s) + (mux_curpos (globals s) + sumZ ds) / T) /\
    song s' =
      song s ++
      repeat song_movecb (Z.to_nat ((mux_curpos (globals s) + sumZ ds) / T)).
Proof.
  induction ds as [|d ds IH]; intros s Hic Hman Hph Hnp Hc Hct Hds.
  - exists s. simpl. rewrite Z.add_0_r, Z.mod_small, Z.div_small by lia.
    simpl. rewrite app_nil_r, Z.add_0_r. unfold wrap32.
    rewrite Z.mod_small by done. done.
  - apply Forall_cons in Hds as [Hd Hds].
    pose proof Hic as (_ & _ & _ & _ & HTr & _).
    assert (Hsum : 0 <= sumZ ds).
    { clear -Hds. induction Hds; simpl; lia. }
    destruct (mux_timercb_single T d s Hic) as (s1 & Hrun & Hic1 & Hsong1 & Hg1).
    simpl. rewrite Hrun.
    destruct (timercb_clock_run T d s1 Hic1)
      as (s2 & -> & Hic2 & Hman2 & Hph2 & Hnp2 & Hcp2 & Hct2 & Hctv2 & Hsong2);
      rewrite ?Hg1; simpl; try done.
    rewrite Hg1 in Hcp2, Hctv2, Hsong2. simpl in Hcp2, Hctv2, Hsong2.
    destruct (IH s2 Hic2 Hman2 Hph2 Hnp2)
      as (s' & -> & Hcp' & Hctv' & Hsong'); try done.
    { rewrite Hcp2. apply Z.mod_pos_bound. lia. }
    destruct (div_mod_step (mux_curpos (globals s)) d (sumZ ds) T ltac:(lia))
      as [Hdiv Hmod].
    pose proof (Z.div_pos (mux_curpos (globals s) + d) T ltac:(lia) ltac:(lia)).
    assert (0 <= ((mux_curpos (globals s) + d) mod T + sumZ ds) / T).
    { apply Z.div_pos; [|lia].
      pose proof (Z.mod_pos_bound (mux_curpos (globals s) + d) T ltac:(lia)).
      lia. }
    exists s'. split; [done|]. split; [|split].
    + by rewrite Hcp', Hcp2, Hmod.
    + rewrite Hctv', Hctv2, Hcp2, wrap32_add_idemp_l, <- Hdiv. f_equal. lia.
    + rewrite Hsong', Hsong2, Hsong1, Hcp2, <- Hdiv, <- app_assoc. f_equal.
      rewrite Z2Nat.inj_add by lia. by rewrite repeat_app.
Qed.

(** A start request on the internal clock. *)
Lemma mux_startreq_internal (song_goto : Z -> Z -> Z) (T : Z) (s : mux) :
  internal_clock T s ->
  mux_phase (globals s) = MUX_STOP ->
  exists s0,
    mux_startreq song_goto 0 s = Done s0 /\
    internal_clock T s0 /\
    mux_manualstart (globals s0) = 0 /\
    mux_phase (globals s0) = MUX_START /\
    mux_reqphase (globals s0) = MUX_STARTWAIT /\
    mux_curpos (globals s0) = 0 /\
    mux_nextpos (globals s0) = MUX_START_DELAY /\
    song s0 = song s.
Proof.
  intros (Hc & Hm & (d & Hl & (Hd1 & Hd2 & Hd3)) & HT & HTr & Hr) Hph.
  destruct s as [g devs clk mtc sg sy]. simpl in *. subst clk mtc devs.
  destruct g. simpl in *. subst.
  unfold mux_startreq. simpl.
  eexists. split; [reflexivity|]. simpl. repeat split; try done; try lia.
  eexists. split; [reflexivity|].
  unfold dev_ok, mididev_flush. repeat case_match; simpl; done.
Qed.

(** C1, as the code has it.  On the internal clock (no clock source, no
    MTC source), with one registered device, an automatic start request
    (manualstart = 0) in phase STOP returns in phase START.  Timer calls
    whose accumulated delta stays below [MUX_START_DELAY] leave the phase
    at START and fire no tick.  The timer call with which the accumulated
    delta reaches [MUX_START_DELAY] fires the first tick ([song_startcb],
    phase FIRST_TIC, tick 0) and restarts the position at 0.  From there
    on, timer calls with an accumulated delta of [D] return after firing
    [D / T] further ticks ([song_movecb]) for the tick length [T], the
    position holding the remainder [D mod T]. *)
Theorem mux_internal_ticks (song_goto : Z -> Z -> Z) (T : Z) (s : mux)
    (ds1 : list Z) (dfire : Z) (ds2 : list Z) :
  internal_clock T s ->
  mux_phase (globals s) = MUX_STOP ->
  Forall (fun d => 0 <= d < UINT_MOD) (ds1 ++ dfire :: ds2) ->
  sumZ ds1 < MUX_START_DELAY <= sumZ ds1 + dfire ->
  exists s0 s1 s2 s3,
    mux_startreq song_goto 0 s = Done s0 /\
    mux_phase (globals s0) = MUX_START /\
    song s0 = song s /\
    timer_run ds1 s0 = Done s1 /\
    mux_phase (globals s1) = MUX_START /\
    song s1 = song s0 /\
    mux_timercb dfire s1 = Done s2 /\
    mux_phase (globals s2) = MUX_FIRST /\
    song s2 = song s1 ++ [song_startcb] /\
    mux_curtic (globals s2) = 0 /\
    mux_curpos (globals s2) = 0 /\
    mux_nextpos (globals s2) = T /\
    timer_run ds2 s2 = Done s3 /\
    song s3 = song s2 ++ repeat song_movecb (Z.to_nat (sumZ ds2 / T)) /\
    mux_curtic (globals s3) = wrap32 (sumZ ds2 / T) /\
    mux_curpos (globals s3) = sumZ ds2 mod T.
Proof.
  intros Hic Hph Hds Hsum.
  apply Forall_app in Hds as [Hds1 Hds2].
  apply Forall_cons in Hds2 as [Hdf Hds2].
  assert (Hs1 : 0 <= sumZ ds1).
  { clear -Hds1. induction Hds1; simpl; lia. }
  pose proof Hic as (_ & _ & _ & _ & HTr & _).
  destruct (mux_startreq_internal song_goto T s Hic Hph)
    as (s0 & Hreq & Hic0 & Hman0 & Hph0 & _ & Hcp0 & Hnp0 & Hsong0).
  assert (Hdelay : MUX_START_DELAY = 8000000) by reflexivity.
  assert (W1 : 0 <= mux_curpos (globals s0)) by (rewrite Hcp0; lia).
  assert (W2 : mux_curpos (globals s0) + sumZ ds1 < mux_nextpos (globals s0))
    by (rewrite Hcp0, Hnp0; lia).
  assert (W3 : mux_nextpos (globals s0) < ULONG_MOD)
    by (rewrite Hnp0, Hdelay; unfold ULONG_MOD; lia).
  destruct (timer_run_wait T ds1 s0 Hic0 Hman0 Hph0 W1 Hds1 W2 W3)
    as (s1 & Hrun1 & Hic1 & Hman1 & Hph1 & Hcp1 & Hnp1 & Hsong1).
  rewrite Hcp0 in Hcp1. rewrite Hnp0 in Hnp1.
  destruct (mux_timercb_single T dfire s1 Hic1)
    as (s1' & Hcb & Hic1' & Hsong1' & Hg1').
  assert (F1 : mux_manualstart (globals s1') = 0) by (by rewrite Hg1').
  assert (F2 : mux_phase (globals s1') = MUX_START) by (by rewrite Hg1').
  assert (F3 : 0 <= mux_curpos (globals s1'))
    by (rewrite Hg1'; simpl; lia).
  assert (F4 : 0 <= dfire) by lia.
  assert (F5 : mux_nextpos (globals s1') <=
               mux_curpos (globals s1') + dfire < ULONG_MOD).
  { rewrite Hg1'. simpl. rewrite Hnp1, Hcp1.
    unfold ULONG_MOD, UINT_MOD in *. lia. }
  destruct (timercb_clock_fire T dfire s1' Hic1' F1 F2 F3 F4 F5)
    as (s2 & Hfire & Hic2 & Hsong2 & Hg2).
  rewrite Hg1' in Hg2. simpl in Hg2.
  assert (R1 : mux_manualstart (globals s2) = 0) by (by rewrite Hg2).
  assert (R2 : mux_phase (globals s2) = MUX_FIRST \/
               mux_phase (globals s2) = MUX_NEXT) by (left; by rewrite Hg2).
  assert (R3 : mux_nextpos (globals s2) = T) by (by rewrite Hg2).
  assert (R4 : 0 <= mux_curpos (globals s2) < T) by (rewrite Hg2; simpl; lia).
  assert (R5 : 0 <= mux_curtic (globals s2) < UINT_MOD)
    by (rewrite Hg2; unfold UINT_MOD; simpl; lia).
  destruct (timer_run_ticks T ds2 s2 Hic2 R1 R2 R3 R4 R5 Hds2)
    as (s3 & Hrun3 & Hcp3 & Hct3 & Hsong3).
  rewrite Hg2 in Hcp3, Hct3, Hsong3. simpl in Hcp3, Hct3, Hsong3.
  exists s0, s1, s2, s3.
  split; [done|]. split; [done|]. split; [done|]. split; [done|].
  split; [done|]. split; [done|]. split; [by rewrite Hcb|].
  split; [by rewrite Hg2|]. split; [by rewrite Hsong2, Hsong1'|].
  split; [by rewrite Hg2|]. split; [by rewrite Hg2|].
  split; [by rewrite Hg2|]. split; [done|]. done.
Qed.

(** C1 as amended on the freshly opened transport with one device and
    timer calls of 3000000 units: the third call fires the first tick. *)
Lemma mux_internal_ticks_witness :
  exists s0 s1 s2 s3,
    mux_startreq (fun _ _ => 0) 0 (mux_open [clock_dev 0] None None) = Done s0 /\
    mux_phase (globals s0) = MUX_START /\
    song s0 = song (mux_open [clock_dev 0] None None) /\
    timer_run [3000000; 3000000] s0 = Done s1 /\
    mux_phase (globals s1) = MUX_START /\
    song s1 = song s0 /\
    mux_timercb 3000000 s1 = Done s2 /\
    mux_phase (globals s2) = MUX_FIRST /\
    song s2 = song s1 ++ [song_startcb] /\
    mux_curtic (globals s2) = 0 /\
    mux_curpos (globals s2) = 0 /\
    mux_nextpos (globals s2) = 500000 /\
    timer_run [400000; 700000] s2 = Done s3 /\
    song s3 = song s2 ++
              repeat song_movecb (Z.to_nat (sumZ [400000; 700000] / 500000)) /\
    mux_curtic (globals s3) = wrap32 (sumZ [400000; 700000] / 500000) /\
    mux_curpos (globals s3) = sumZ [400000; 700000] mod 500000.
Proof.
  apply (mux_internal_ticks (fun _ _ => 0) 500000
           (mux_open [clock_dev 0] None None)
           [3000000; 3000000] 3000000 [400000; 700000]).
  - unfold internal_clock. simpl. repeat split; try done; try lia.
    eexists. split; [reflexivity|]. vm_compute. repeat split; discriminate.
  - reflexivity.
  - unfold UINT_MOD.
    repeat (apply Forall_cons; split; [lia|]). constructor.
  - vm_compute. split; [reflexivity|discriminate].
Defined.

(** C1 fails on the code.  After a manual start request on the internal
    clock the timer fires no tick, whatever delta accumulates: here the
    accumulated delta goes past [MUX_START_DELAY] by two tick lengths, the
    phase is still START and the song has not been called. *)
Lemma manual_start_fires_no_tick :
  MUX_START_DELAY <= sumZ [8000000; 500000; 500000] /\
  exists s,
    (let* s0 := mux_startreq (fun _ _ => 0) 1
                  (mux_open [clock_dev 0] None None) in
     timer_run [8000000; 500000; 500000] s0) = Done s /\
    mux_phase (globals s) = MUX_START /\
    mux_curtic (globals s) = 0 /\
    song s = [].
Proof.
  split; [vm_compute; discriminate|].
  eexists; split; [vm_compute; reflexivity|].
  repeat split; vm_compute; reflexivity.
Qed.

(** As the braces of [mux_timercb] stand, its block on the internal clock
    runs once for every registered device: with two devices the first tick
    fires after 4000000 units, without device no tick is ever fired. *)
Lemma mux_timercb_per_device :
  (exists s,
     (let* s0 := mux_startreq (fun _ _ => 0) 0
                   (mux_open [clock_dev 0; clock_dev 1] None None) in
      timer_run [4000000] s0) = Done s /\
     mux_phase (globals s) = MUX_FIRST /\ song s = [song_startcb]) /\
  (exists s,
     (let* s0 := mux_startreq (fun _ _ => 0) 0 (mux_open [] None None) in
      timer_run [8000000; 500000; 500000] s0) = Done s /\
     mux_phase (globals s) = MUX_START /\ song s = []).
Proof.
  split; (eexists; split; [vm_compute; reflexivity|]);
    (split; vm_compute; reflexivity).
Qed.

(** Without a registered device the timer call never reaches the block on
    the internal clock. *)
Lemma mux_timercb_no_device (delta : Z) (s : mux) :
  mididev_list s = [] ->
  exists s',
    mux_timercb delta s = Done s' /\
    mux_phase (globals s') = mux_phase (globals s) /\
    mux_curpos (globals s') = mux_curpos (globals s) /\
    song s' = song s.
Proof.
  intros Hl. unfold mux_timercb. simpl. rewrite Hl. simpl.
  eexists. split; [reflexivity|]. done.
Qed.

End MuxFacts.

(** ** pool.c: initialisation, order of service, round trips *)
Section PoolMore.
Import Pool.

(** X1.  [pool_init] rounds the item size up to a multiple of
    [sizeof(unsigned)], after raising it to [sizeof(struct poolent)]: the
    size used is a multiple of 4, at least the larger of the size asked
    for and 8, and less than 4 above it.  A size within 3 of [2^32] wraps
    in the rounding and becomes 0. *)
Theorem round_itemsize_bounds (sz : Z) :
  (0 <= sz <= UINT_MOD - 4 ->
   round_itemsize sz mod 4 = 0 /\
   Z.max sz 8 <= round_itemsize sz < Z.max sz 8 + 4) /\
  (UINT_MOD - 4 < sz < UINT_MOD -> round_itemsize sz = 0).
Proof.
  unfold round_itemsize, sizeof_poolent, sizeof_unsigned, wrap32, UINT_MOD.
  split; intros Hsz.
  - set (s := if sz <? 8 then 8 else sz).
    assert (Hs : s = Z.max sz 8) by (subst s; destruct (Z.ltb_spec sz 8); lia).
    clearbody s. rewrite (Z.mod_small (s + (4 - 1))) by lia.
    rewrite <- Z.ldiff_land.
    change (4 - 1) with (Z.ones 2).
    rewrite Z.ldiff_ones_r by lia.
    rewrite Z.shiftr_div_pow2, Z.shiftl_mul_pow2 by lia.
    change (2 ^ 2) with 4. change (Z.ones 2) with 3.
    pose proof (Z.div_mod (s + 3) 4 ltac:(lia)) as Hdm.
    pose proof (Z.mod_pos_bound (s + 3) 4 ltac:(lia)) as Hb.
    split; [apply Z.mod_mul; lia | lia].
  - destruct (Z.ltb_spec sz 8); [lia|].
    assert (Hc : sz = 2 ^ 32 - 3 \/ sz = 2 ^ 32 - 2 \/ sz = 2 ^ 32 - 1) by lia.
    destruct Hc as [-> | [-> | ->]]; reflexivity.
Qed.

Lemma round_itemsize_bounds_witness :
  (round_itemsize 41 mod 4 = 0 /\
   Z.max 41 8 <= round_itemsize 41 < Z.max 41 8 + 4) /\
  round_itemsize (UINT_MOD - 1) = 0.
Proof.
  split.
  - apply (proj1 (round_itemsize_bounds 41)). unfold UINT_MOD. lia.
  - apply (proj2 (round_itemsize_bounds (UINT_MOD - 1))). unfold UINT_MOD. lia.
Defined.

Lemma pool_init_loop_exact (i : nat) : forall p o fl,
  chain (data o) (first o) fl ->
  (forall q, q ∈ fl -> q < p) ->
  0 < itemsize o ->
  let o' := pool_init_loop i p o in
  chain (data o') (first o')
        (rev (map (fun j => p + Z.of_nat j * itemsize o) (seq 0 i)) ++ fl).
Proof.
  induction i as [|i IH]; intros p o fl Hc Hlt Hs; [done|].
  cbn [pool_init_loop]. set (o1 := mkpool _ _ _ _).
  specialize (IH (p + itemsize o) o1 (p :: fl)).
  replace (rev (map (fun j => p + Z.of_nat j * itemsize o) (seq 0 (S i))) ++ fl)
    with (rev (map (fun j => p + itemsize o + Z.of_nat j * itemsize o1) (seq 0 i))
          ++ p :: fl).
  - apply IH; [| |done].
    + simpl. split; [done|]. exists (first o). split.
      * apply lookup_insert_eq.
      * apply chain_frame; [|done]. intros Hin. apply Hlt in Hin. lia.
    + intros q Hq. apply elem_of_cons in Hq as [->|Hq]; [lia|].
      apply Hlt in Hq. lia.
  - cbn [seq map rev]. rewrite <- seq_shift, map_map, <- app_assoc.
    replace (p + Z.of_nat 0 * itemsize o) with p by (simpl; lia).
    simpl. f_equal. f_equal. apply map_ext. intros j. lia.
Qed.

Lemma pool_init_loop_itemnum (i : nat) : forall p o,
  itemnum (pool_init_loop i p o) = wrap32 (itemnum o + Z.of_nat i) \/
  (i = O /\ itemnum (pool_init_loop i p o) = itemnum o).
Proof.
  induction i as [|i IH]; intros p o; [right; done|left].
  cbn [pool_init_loop].
  destruct (IH (p + itemsize o)
               (mkpool (<[p := first o]> (data o)) (Some p)
                       (wrap32 (itemnum o + 1)) (itemsize o))) as [H | [-> H]];
    rewrite H; cbn [itemnum]; unfold wrap32.
  - rewrite Zplus_mod_idemp_l. f_equal. lia.
  - f_equal.
Qed.

Lemma pool_news_chain (l : list Z) : forall o,
  chain (data o) (first o) l ->
  pool_news (length l) o =
    Done (mkpool (data o) None (itemnum o) (itemsize o), l).
Proof.
  induction l as [|e l IH]; intros o Hc; simpl in *.
  - destruct o; simpl in *; subst; done.
  - destruct Hc as (He & nx & Hnx & Hc).
    unfold pool_new. rewrite He, Hnx. simpl.
    rewrite (IH (mkpool (data o) nx (itemnum o) (itemsize o))) by done.
    done.
Qed.

(** X2.  A pool initialised with [cap] entries serves exactly [cap] calls
    of [pool_new], which return the entries from the highest address down
    to the start of the block; the next [pool_new] panics. *)
Theorem pool_init_serves_descending (sz : Z) (cap : nat) :
  0 <= sz <= UINT_MOD - 4 ->
  Z.of_nat cap * round_itemsize sz < UINT_MOD ->
  exists o',
    pool_news cap (pool_init sz (Z.of_nat cap))
      = Done (o', rev (slots (round_itemsize sz) cap)) /\
    pool_new o' = Panic.
Proof.
  intros Hsz _.
  pose proof (round_itemsize_pos sz Hsz) as Hpos.
  pose proof (pool_init_loop_exact cap 0
                (mkpool ∅ None (Z.of_nat cap) (round_itemsize sz)) []) as Hc.
  cbn zeta in Hc. cbn [data first itemsize] in Hc.
  rewrite app_nil_r in Hc.
  assert (Hl : map (fun j => 0 + Z.of_nat j * round_itemsize sz) (seq 0 cap)
               = slots (round_itemsize sz) cap)
    by (unfold slots; apply map_ext; intros j; lia).
  rewrite Hl in Hc.
  assert (Hch : chain (data (pool_init sz (Z.of_nat cap)))
                      (first (pool_init sz (Z.of_nat cap)))
                      (rev (slots (round_itemsize sz) cap))).
  { unfold pool_init. rewrite Nat2Z.id. apply Hc; [done| |lia].
    intros q Hq. by apply elem_of_nil in Hq. }
  apply pool_news_chain in Hch.
  rewrite length_rev in Hch. unfold slots in Hch at 1.
  rewrite length_map, length_seq in Hch.
  eexists. split; [exact Hch|]. done.
Qed.

Lemma pool_init_serves_descending_witness :
  exists o',
    pool_news 3 (pool_init 41 (Z.of_nat 3))
      = Done (o', rev (slots (round_itemsize 41) 3)) /\
    pool_new o' = Panic.
Proof.
  apply (pool_init_serves_descending 41 3); vm_compute; [split|]; congruence.
Defined.

(** X3.  [pool_init] leaves in [itemnum] twice the number of entries asked
    for (modulo [2^32]): the field is set to that number and then
    incremented once for every entry linked. *)
Theorem pool_init_itemnum_doubled (sz : Z) (cap : nat) :
  itemnum (pool_init sz (Z.of_nat cap)) = wrap32 (2 * Z.of_nat cap).
Proof.
  unfold pool_init. rewrite Nat2Z.id.
  destruct (pool_init_loop_itemnum cap 0
              (mkpool ∅ None (Z.of_nat cap) (round_itemsize sz)))
    as [H | [-> H]]; rewrite H; cbn [itemnum].
  - f_equal. lia.
  - reflexivity.
Qed.

(** X4.  Releasing an entry and acquiring again returns that very entry
    and leaves the free list where it was, only the link word of the
    entry being rewritten; acquiring an entry and releasing it at once
    restores the pool exactly. *)
Theorem pool_del_new_round_trip (o : pool) (p : Z) :
  (exists o', pool_new (pool_del o p) = Done (o', p) /\
              first o' = first o /\
              data o' = <[p := first o]> (data o)) /\
  (forall o' e, pool_new o = Done (o', e) -> pool_del o' e = o).
Proof.
  split.
  - unfold pool_new, pool_del. simpl. rewrite lookup_insert_eq.
    eexists. split; [reflexivity|]. done.
  - intros o' e. unfold pool_new, pool_del.
    destruct o as [d f n s]. simpl.
    destruct f as [e0|]; [|discriminate].
    destruct (d !! e0) as [nx|] eqn:Hnx; [|discriminate].
    intros [= <- <-]. simpl. by rewrite insert_id.
Qed.

Lemma pool_del_new_round_trip_witness :
  (exists o', pool_new (pool_del (pool_init 8 2) 8) = Done (o', 8) /\
              first o' = first (pool_init 8 2) /\
              data o' = <[8 := first (pool_init 8 2)]> (data (pool_init 8 2))) /\
  pool_del (mkpool (data (pool_init 8 2)) (Some 0) 4 8) 8 = pool_init 8 2.
Proof.
  split.
  - apply (pool_del_new_round_trip (pool_init 8 2) 8).
  - apply (proj2 (pool_del_new_round_trip (pool_init 8 2) 8)).
    vm_compute. reflexivity.
Defined.

Lemma pool_news_self (n : nat) (o : pool) (p : Z) :
  first o = Some p -> data o !! p = Some (Some p) ->
  pool_news n o = Done (o, repeat p n).
Proof.
  intros Hf Hd. induction n as [|n IH]; [done|].
  simpl. unfold pool_new. rewrite Hf, Hd. simpl.
  replace (mkpool (data o) (Some p) (itemnum o) (itemsize o)) with o
    by (destruct o; simpl in *; congruence).
  rewrite IH. done.
Qed.

(** X5.  [pool_del] does not notice an entry that is released twice (the
    check is compiled in with POOL_DEBUG only): the entry then links to
    itself, and from there on every [pool_new] returns this same entry
    and none ever panics. *)
Theorem pool_double_del_aliases (o : pool) (p : Z) (n : nat) :
  exists o',
    pool_news n (pool_del (pool_del o p) p) = Done (o', repeat p n).
Proof.
  eexists. apply pool_news_self; simpl.
  - reflexivity.
  - apply lookup_insert_eq.
Qed.

End PoolMore.

(** ** timo.c: the queue as an ordered list *)
Section TimoMore.
Import Timo.

Lemma qseg_frame st h l q a t :
  a ∉ l -> qseg st h l q -> qseg (<[a := t]> st) h l q.
Proof.
  revert h. induction l as [|b l IH]; intros h Ha Hq; simpl in *; [done|].
  destruct Hq as (-> & tb & Hb & Hq).
  apply not_elem_of_cons in Ha as [Hab Hal].
  split; [done|]. exists tb. split; [by rewrite lookup_insert_ne|by apply IH].
Qed.

Lemma qseg_app st h l1 q l2 r :
  qseg st h l1 q -> qseg st q l2 r -> qseg st h (l1 ++ l2) r.
Proof.
  revert h. induction l1 as [|a l1 IH]; intros h H1 H2; simpl in *.
  - by subst.
  - destruct H1 as (-> & t & Ha & H1). split; [done|].
    exists t. split; [done|by apply IH].
Qed.

Lemma qseg_split st h l1 l2 r :
  qseg st h (l1 ++ l2) r -> exists q, qseg st h l1 q /\ qseg st q l2 r.
Proof.
  revert h. induction l1 as [|a l1 IH]; intros h H; simpl in *.
  - by exists h.
  - destruct H as (-> & t & Ha & H). destruct (IH _ H) as (q & H1 & H2).
    exists q. split; [|done]. split; [done|]. by exists t.
Qed.

Lemma qseg_func st h l : forall l',
  qseg st h l None -> qseg st h l' None -> l = l'.
Proof.
  revert h. induction l as [|a l IH]; intros h [|b l'] H H'; simpl in *.
  - done.
  - destruct H' as (-> & _). done.
  - destruct H as (-> & _). done.
  - destruct H as (-> & t & Ha & H). destruct H' as ([= <-] & t' & Ha' & H').
    rewrite Ha in Ha'. injection Ha' as <-. f_equal. by eapply IH.
Qed.

Lemma qseg_NoDup st h l : qseg st h l None -> NoDup l.
Proof.
  revert h. induction l as [|a l IH]; intros h H; [constructor|].
  pose proof H as H0. simpl in H. destruct H as (-> & t & Ha & H).
  constructor; [|by eapply IH].
  intros Hin. apply list_elem_of_split in Hin as (l1 & l2 & ->).
  apply qseg_split in H as (q & _ & H2).
  pose proof H2 as H3. simpl in H3. destruct H3 as (-> & _).
  pose proof (qseg_func _ _ _ _ H2 H0) as Heq.
  apply (f_equal length) in Heq. rewrite !length_cons, length_app, length_cons in Heq.
  lia.
Qed.

Lemma qseg_lookup st h l q a :
  qseg st h l q -> a ∈ l -> is_Some (st !! a).
Proof.
  revert h. induction l as [|b l IH]; intros h H Hin.
  - by apply elem_of_nil in Hin.
  - simpl in H. destruct H as (-> & t & Hb & H).
    apply elem_of_cons in Hin as [->|Hin]; [eauto|by eapply IH].
Qed.

Lemma qseg_length st h l : qseg st h l None -> (length l <= size st)%nat.
Proof.
  intros H. pose proof (qseg_NoDup _ _ _ H) as Hnd.
  rewrite <- (size_list_to_set (C := gset nat) l Hnd), <- size_dom.
  apply subseteq_size. intros a Ha. apply elem_of_list_to_set in Ha.
  apply elem_of_dom. by eapply qseg_lookup.
Qed.


Lemma loc_after_cons i a l1 : loc_after (LNext a) l1 = loc_after i (a :: l1).
Proof.
  unfold loc_after. destruct l1 as [|b l1]; [done|]. simpl.
  destruct (last (b :: l1)) eqn:E; [done|]. by apply last_None in E.
Qed.

Lemma val_at_lookup m a t : store m !! a = Some t -> val_at m a = val t.
Proof. intros H. unfold val_at. by rewrite H. Qed.

Lemma timo_add_scan_spec m v : forall l n i h,
  load m i = Done h -> qseg (store m) h l None -> (length l <= n)%nat ->
  exists l1 l2 p,
    l = l1 ++ l2 /\ timo_add_scan n m v i = Done (loc_after i l1) /\
    load m (loc_after i l1) = Done p /\
    qseg (store m) h l1 p /\ qseg (store m) p l2 None /\
    Forall (fun a => after m v a = false) l1 /\
    match l2 with [] => True | b :: _ => after m v b = true end.
Proof.
  induction l as [|a l IH]; intros n i h Hload Hq Hlen.
  - simpl in Hq. subst h. exists [], [], None.
    unfold loc_after. destruct n; simpl; rewrite Hload; simpl; repeat split; constructor.
  - simpl in Hq. destruct Hq as (-> & t & Ha & Hq).
    destruct n as [|n]; [simpl in Hlen; lia|].
    simpl. rewrite Hload. simpl. unfold get at 1. rewrite Ha. simpl.
    destruct (0 <? to_int (val t - v)) eqn:Hd.
    + exists [], (a :: l), (Some a). unfold loc_after. simpl. repeat split; try done.
      * exists t. done.
      * unfold after. by rewrite (val_at_lookup _ _ _ Ha).
    + destruct (IH n (LNext a) (next t)) as (l1 & l2 & p & -> & Hs & Hl & H1 & H2 & Hf & Hh).
      * simpl. unfold get. rewrite Ha. done.
      * done.
      * simpl in Hlen. lia.
      * exists (a :: l1), l2, p. rewrite <- (loc_after_cons i).
        repeat split; try done.
        -- exists t. done.
        -- constructor; [|done]. unfold after.
           by rewrite (val_at_lookup _ _ _ Ha).
Qed.


Lemma timo_add_spec m l o t delta :
  queue_is m l -> o ∉ l -> store m !! o = Some t ->
  exists m' l1 l2,
    timo_add o delta m = Done m' /\ l = l1 ++ l2 /\
    queue_is m' (l1 ++ o :: l2) /\
    Forall (fun a => after m (wrap32 (timo_abstime m + delta)) a = false) l1 /\
    match l2 with
    | [] => True
    | b :: _ => after m (wrap32 (timo_abstime m + delta)) b = true
    end /\
    timo_abstime m' = timo_abstime m /\ fired m' = fired m /\
    (exists t', store m' !! o = Some t' /\ cb t' = cb t /\ arg t' = arg t /\
                set t' = 1 /\ val t' = wrap32 (timo_abstime m + delta)) /\
    (forall a, a <> o -> is_Some (store m !! a) -> same_timeout m m' a).
Proof.
  intros Hq Ho Ht. unfold queue_is in Hq.
  pose proof (qseg_NoDup _ _ _ Hq) as Hnd.
  pose proof (qseg_length _ _ _ Hq) as Hlen.
  set (v := wrap32 (timo_abstime m + delta)).
  destruct (timo_add_scan_spec m v l (size (store m)) LQueue (timo_queue m))
    as (l1 & l2 & p & -> & Hs & Hl & H1 & H2 & Hf & Hh); [done..|].
  apply not_elem_of_app in Ho as [Ho1 Ho2].
  apply NoDup_app in Hnd as (Hnd1 & Hdis & Hnd2).
  unfold timo_add. fold v. rewrite Hs. cbn [bind].
  unfold get at 1. rewrite Ht. cbn [bind].
  unfold get at 1. cbn [put store]. rewrite lookup_insert_eq. cbn [bind].
  cbn [cb arg set val next].
  destruct l1 as [|a0 l1' _] using rev_ind.
  - (* linked at the head of the queue *)
    unfold loc_after in *. cbn [last] in *. cbn [load] in *.
    injection Hl as <-. cbn [put timo_queue bind].
    unfold get at 1. cbn [put store]. rewrite lookup_insert_eq. cbn [bind].
    cbn [cb arg set val next save put timo_queue timo_abstime store fired].
    eexists _, [], l2. split; [reflexivity|]. split; [done|].
    split; [|split; [done|split; [done|split; [done|split; [done|split]]]]].
    + unfold queue_is. cbn [timo_queue store app qseg]. split; [done|].
      eexists. split; [apply lookup_insert_eq|]. cbn [next].
      do 3 (apply qseg_frame; [done|]). done.
    + cbn [store]. eexists. split; [apply lookup_insert_eq|]. done.
    + intros a Ha [ta Hta]. exists ta, ta. cbn [store].
      rewrite !lookup_insert_ne by done. done.
  - (* linked behind the timeout [a0] *)
    assert (Hloc : loc_after LQueue (l1' ++ [a0]) = LNext a0)
      by (unfold loc_after; by rewrite last_snoc).
    rewrite Hloc in *.
    apply qseg_split in H1 as (q1 & H1 & H1a). cbn [qseg] in H1a.
    destruct H1a as (-> & ta & Hta & Hp).
    apply not_elem_of_app in Ho1 as [Ho1 Hoa].
    assert (Hao : a0 <> o) by (intros ->; apply Hoa; by left).
    apply NoDup_app in Hnd1 as (Hnd1 & Hdis1 & _).
    assert (Ha1 : a0 ∉ l1') by (intros Hin; apply (Hdis1 _ Hin); by left).
    assert (Ha2 : a0 ∉ l2) by (apply Hdis, elem_of_app; right; by left).
    cbn [load]. unfold get at 1. cbn [put store].
    rewrite !lookup_insert_ne by done. rewrite Hta. cbn [bind].
    unfold get at 1. cbn [put store]. rewrite lookup_insert_eq. cbn [bind].
    cbn [cb arg set val next save].
    unfold get at 1. cbn [put store].
    rewrite !lookup_insert_ne by done. rewrite Hta. cbn [bind].
    cbn [put timo_queue timo_abstime store fired].
    eexists _, (l1' ++ [a0]), l2. split; [reflexivity|]. split; [done|].
    split; [|split; [done|split; [done|split; [done|split; [done|split]]]]].
    + unfold queue_is. cbn [put timo_queue store]. rewrite <- app_assoc.
      eapply qseg_app.
      * do 4 (apply qseg_frame; [done|]). exact H1.
      * cbn [app qseg]. split; [done|].
        eexists. split; [apply lookup_insert_eq|]. cbn [next].
        split; [done|]. eexists.
        split; [rewrite lookup_insert_ne by done; apply lookup_insert_eq|].
        cbn [next]. do 4 (apply qseg_frame; [done|]). by subst p.
    + cbn [put store]. eexists.
      split; [rewrite lookup_insert_ne by done; apply lookup_insert_eq|]. done.
    + intros a Ha [tb Htb]. unfold same_timeout. cbn [put store].
      destruct (decide (a = a0)) as [->|Hne].
      * exists ta. eexists. rewrite lookup_insert_eq. done.
      * exists tb, tb. rewrite !lookup_insert_ne by congruence. done.
Qed.

Lemma timo_del_scan_absent m o : forall l n i h,
  load m i = Done h -> qseg (store m) h l None -> (length l <= n)%nat ->
  o ∉ l -> timo_del_scan n m o i = Done m.
Proof.
  induction l as [|a l IH]; intros n i h Hload Hq Hlen Ho.
  - simpl in Hq. subst h. destruct n; simpl; rewrite Hload; done.
  - simpl in Hq. destruct Hq as (-> & t & Ha & Hq).
    apply not_elem_of_cons in Ho as [Hoa Ho].
    destruct n as [|n]; [simpl in Hlen; lia|].
    simpl. rewrite Hload. simpl.
    destruct (Nat.eqb_spec a o) as [->|_]; [done|].
    apply (IH n (LNext a) (next t)); [|done|simpl in Hlen; lia|done].
    simpl. unfold get. by rewrite Ha.
Qed.

Lemma timo_del_scan_found m o l2 : forall l1 n i h,
  load m i = Done h -> qseg (store m) h (l1 ++ o :: l2) None ->
  (length (l1 ++ o :: l2) <= n)%nat -> o ∉ l1 ->
  timo_del_scan n m o i =
    (let* t := get m o in
     let* m1 := save m (loc_after i l1) (next t) in
     let* t := get m1 o in
     Done (put m1 o (mktimo (cb t) (arg t) 0 (val t) (next t)))).
Proof.
  induction l1 as [|a l1 IH]; intros n i h Hload Hq Hlen Ho.
  - simpl in Hq. destruct Hq as (-> & _).
    unfold loc_after. destruct n; simpl; rewrite Hload; simpl;
      by rewrite Nat.eqb_refl.
  - simpl in Hq. destruct Hq as (-> & t & Ha & Hq).
    apply not_elem_of_cons in Ho as [Hoa Ho].
    destruct n as [|n]; [simpl in Hlen; lia|].
    rewrite <- (loc_after_cons i).
    simpl. rewrite Hload. simpl.
    destruct (Nat.eqb_spec a o) as [->|_]; [done|].
    apply (IH n (LNext a) (next t)); [|done|simpl in Hlen; lia|done].
    simpl. unfold get. by rewrite Ha.
Qed.

Lemma timo_del_absent m l o :
  queue_is m l -> o ∉ l -> timo_del o m = Done m.
Proof.
  intros Hq Ho. unfold timo_del.
  eapply timo_del_scan_absent; [reflexivity|exact Hq| |done].
  by eapply qseg_length.
Qed.

Lemma timo_del_spec m l1 l2 o :
  queue_is m (l1 ++ o :: l2) ->
  exists m' t,
    store m !! o = Some t /\
    timo_del o m = Done m' /\ queue_is m' (l1 ++ l2) /\
    timo_abstime m' = timo_abstime m /\ fired m' = fired m /\
    store m' !! o = Some (mktimo (cb t) (arg t) 0 (val t) (next t)) /\
    (forall a, a <> o -> is_Some (store m !! a) -> same_timeout m m' a).
Proof.
  intros Hq. unfold queue_is in Hq.
  pose proof (qseg_NoDup _ _ _ Hq) as Hnd.
  pose proof (qseg_length _ _ _ Hq) as Hlen.
  apply NoDup_app in Hnd as (Hnd1 & Hdis & Hnd2).
  apply NoDup_cons in Hnd2 as (Ho2 & Hnd2).
  assert (Ho1 : o ∉ l1) by (intros Hin; apply (Hdis _ Hin); by left).
  unfold timo_del.
  rewrite (timo_del_scan_found m o l2 l1 _ LQueue (timo_queue m)) by done.
  apply qseg_split in Hq as (p & H1 & H2).
  pose proof H2 as H2'. cbn [qseg] in H2'. destruct H2' as (-> & t & Ht & H2').
  unfold get at 1. rewrite Ht. cbn [bind].
  destruct l1 as [|a0 l1' _] using rev_ind.
  - unfold loc_after. cbn [last save bind]. cbn [qseg] in H1.
    unfold get at 1. cbn [store]. rewrite Ht. cbn [bind].
    eexists _, t. split; [done|]. split; [reflexivity|].
    unfold queue_is, same_timeout. cbn [put timo_queue timo_abstime store fired].
    split; [|split; [done|split; [done|split]]].
    + cbn [app]. by apply qseg_frame.
    + apply lookup_insert_eq.
    + intros a Ha [ta Hta]. exists ta, ta.
      rewrite lookup_insert_ne by congruence. done.
  - assert (Hloc : loc_after LQueue (l1' ++ [a0]) = LNext a0)
      by (unfold loc_after; by rewrite last_snoc).
    rewrite Hloc.
    apply qseg_split in H1 as (q1 & H1 & H1a). cbn [qseg] in H1a.
    destruct H1a as (-> & ta & Hta & Hp).
    apply not_elem_of_app in Ho1 as [Ho1 Hoa].
    assert (Hao : a0 <> o) by (intros ->; apply Hoa; by left).
    apply NoDup_app in Hnd1 as (Hnd1 & Hdis1 & _).
    assert (Ha1 : a0 ∉ l1') by (intros Hin; apply (Hdis1 _ Hin); by left).
    assert (Ha2 : a0 ∉ l2).
    { intros Hin. apply (Hdis a0); [apply elem_of_app; right; by left|].
      by right. }
    cbn [save]. unfold get at 1. rewrite Hta. cbn [bind].
    unfold get at 1. cbn [put store].
    rewrite lookup_insert_ne by done. rewrite Ht. cbn [bind].
    eexists _, t. split; [done|]. split; [reflexivity|].
    unfold queue_is, same_timeout. cbn [put timo_queue timo_abstime store fired].
    split; [|split; [done|split; [done|split]]].
    + rewrite <- app_assoc. eapply qseg_app.
      * do 2 (apply qseg_frame; [done|]). exact H1.
      * cbn [app qseg]. split; [done|]. eexists.
        split; [rewrite lookup_insert_ne by done; apply lookup_insert_eq|].
        cbn [next]. do 2 (apply qseg_frame; [done|]). done.
    + apply lookup_insert_eq.
    + intros a Ha [tb Htb].
      destruct (decide (a = a0)) as [->|Hne].
      * exists ta. eexists. rewrite lookup_insert_ne by congruence.
        rewrite lookup_insert_eq. done.
      * exists tb, tb. rewrite !lookup_insert_ne by congruence. done.
Qed.


Lemma timo_update_loop_spec : forall l1 fuel m l2,
  queue_is m (l1 ++ l2) ->
  Forall (fun a => after m (timo_abstime m) a = false) l1 ->
  match l2 with
  | [] => True
  | b :: _ => after m (timo_abstime m) b = true
  end ->
  (length l1 <= fuel)%nat ->
  exists m',
    timo_update_loop plain fuel m = Done m' /\
    queue_is m' l2 /\ timo_abstime m' = timo_abstime m /\
    fired m' = fired m ++ map (call_of m) l1 /\
    (forall a, a ∈ l1 ->
       store m' !! a =
         (fun t => mktimo (cb t) (arg t) 0 (val t) (next t)) <$> store m !! a) /\
    (forall a, a ∉ l1 -> store m' !! a = store m !! a).
Proof.
  induction l1 as [|a l1 IH]; intros fuel m l2 Hq Hf Hh Hlen.
  - exists m. cbn [app] in Hq. unfold queue_is in Hq.
    rewrite app_nil_r.
    split; [|split; [done|split; [done|split; [done|split; [|done]]]]].
    + destruct l2 as [|b l2]; cbn [qseg] in Hq.
      * destruct fuel; simpl; rewrite Hq; done.
      * destruct Hq as (Hb & t & Ht & _). unfold after in Hh.
        rewrite (val_at_lookup _ _ _ Ht) in Hh.
        destruct fuel; simpl; rewrite Hb; unfold get; rewrite Ht; simpl;
          rewrite Hh; done.
    + intros a Ha. by apply elem_of_nil in Ha.
  - unfold queue_is in Hq. pose proof (qseg_NoDup _ _ _ Hq) as Hnd.
    cbn [app qseg] in Hq. destruct Hq as (Ha & t & Ht & Hq).
    cbn [app] in Hnd. apply NoDup_cons in Hnd as (Hal & Hnd).
    apply Forall_cons in Hf as (Hfa & Hf).
    unfold after in Hfa. rewrite (val_at_lookup _ _ _ Ht) in Hfa.
    destruct fuel as [|fuel]; [simpl in Hlen; lia|].
    cbn [timo_update_loop]. rewrite Ha. unfold get at 1. rewrite Ht.
    cbn [bind]. rewrite Hfa.
    unfold get at 1. cbn [store]. rewrite Ht. cbn [bind].
    unfold get at 1. cbn [put store]. rewrite lookup_insert_eq. cbn [bind].
    cbn [cb arg timo_queue timo_abstime fired]. unfold plain at 1. cbn [bind].
    set (m3 := mkmachine _ _ _ _).
    assert (Hv : forall b, b <> a -> store m3 !! b = store m !! b)
      by (intros b Hb; subst m3; cbn [store]; by rewrite lookup_insert_ne).
    destruct (IH fuel m3 l2) as (m' & Hrun & Hq' & Ht' & Hfd & Hin & Hout).
    + unfold queue_is. subst m3. cbn [timo_queue store].
      by apply qseg_frame.
    + apply Forall_forall. intros b Hb. rewrite Forall_forall in Hf.
      specialize (Hf b Hb). unfold after, val_at in *.
      rewrite Hv; [exact Hf|]. intros ->. apply Hal.
      apply elem_of_app. by left.
    + destruct l2 as [|b l2]; [done|]. unfold after, val_at in *.
      rewrite Hv; [exact Hh|]. intros ->. apply Hal.
      apply elem_of_app. right. by left.
    + simpl in Hlen. lia.
    + exists m'. split; [exact Hrun|]. split; [done|]. split; [done|].
      split; [|split].
      * rewrite Hfd. subst m3. cbn [fired map]. rewrite <- app_assoc.
        f_equal. cbn [app]. f_equal.
        -- unfold call_of. by rewrite Ht.
        -- apply map_ext_in. intros b Hb. unfold call_of.
           rewrite Hv; [done|]. intros ->. apply Hal.
           apply elem_of_app. left. by apply list_elem_of_In.
      * intros b Hb. apply elem_of_cons in Hb as [->|Hb].
        -- rewrite Hout by (intros Hin'; apply Hal, elem_of_app; by left).
           subst m3. cbn [store]. rewrite lookup_insert_eq, Ht. done.
        -- rewrite (Hin b Hb). rewrite Hv; [done|]. intros ->. apply Hal.
           apply elem_of_app. by left.
      * intros b Hb. apply not_elem_of_cons in Hb as [Hba Hb].
        rewrite (Hout b Hb). by apply Hv.
Qed.


Lemma to_int_small z : - 2 ^ 31 <= z < 2 ^ 31 -> to_int z = z.
Proof.
  intros Hz. unfold to_int, wrap32, UINT_MOD.
  destruct (Z.lt_ge_cases z 0) as [Hneg|Hpos].
  - replace (z mod 2 ^ 32) with (z + 2 ^ 32)
      by (apply Z.mod_unique with (-1); lia).
    destruct (Z.ltb_spec (z + 2 ^ 32) (2 ^ 31)); lia.
  - rewrite Z.mod_small by lia.
    destruct (Z.ltb_spec z (2 ^ 31)); lia.
Qed.

Lemma to_int_congr x y : wrap32 x = wrap32 y -> to_int x = to_int y.
Proof. intros H. unfold to_int. by rewrite H. Qed.

Lemma after_remaining m a delta :
  remaining m a < 2 ^ 31 -> 0 <= delta < 2 ^ 31 ->
  after m (wrap32 (timo_abstime m + delta)) a = (delta <? remaining m a).
Proof.
  intros Hr Hd. unfold after.
  rewrite (to_int_congr _ (remaining m a - delta)).
  - assert (0 <= remaining m a)
      by (unfold remaining, wrap32, UINT_MOD; apply Z.mod_pos_bound; lia).
    rewrite to_int_small by lia.
    destruct (Z.ltb_spec 0 (remaining m a - delta));
      destruct (Z.ltb_spec delta (remaining m a)); lia.
  - unfold remaining, wrap32.
    rewrite Zminus_mod_idemp_r, Zminus_mod_idemp_l. f_equal. lia.
Qed.

Lemma ascending_insert l1 x l2 :
  ascending (l1 ++ l2) -> Forall (fun y => y <= x) l1 -> Forall (Z.le x) l2 ->
  ascending (l1 ++ x :: l2).
Proof.
  induction l1 as [|y l1 IH]; intros Ha H1 H2; cbn [app ascending] in *.
  - done.
  - destruct Ha as [Hy Ha]. apply Forall_cons in H1 as [Hyx H1].
    apply Forall_app in Hy as [Hy1 Hy2].
    split; [|by apply IH].
    apply Forall_app. split; [done|]. apply Forall_cons. split; [done|done].
Qed.

Lemma ascending_app_r l1 l2 : ascending (l1 ++ l2) -> ascending l2.
Proof.
  induction l1 as [|y l1 IH]; cbn [app ascending]; [done|].
  intros [_ H]. by apply IH.
Qed.

Lemma same_timeout_remaining m m' a :
  same_timeout m m' a -> timo_abstime m' = timo_abstime m ->
  remaining m' a = remaining m a.
Proof.
  intros (t & t' & H & H' & _ & _ & _ & Hv) HT.
  unfold remaining, val_at. rewrite H, H'. simpl. by rewrite HT, Hv.
Qed.

Lemma same_timeout_trans m1 m2 m3 a :
  same_timeout m1 m2 a -> same_timeout m2 m3 a -> same_timeout m1 m3 a.
Proof.
  intros (t & t' & H & H' & ? & ? & ? & ?) (u & u' & G & G' & ? & ? & ? & ?).
  rewrite H' in G. injection G as <-.
  exists t, u'. repeat split; try done; congruence.
Qed.

(** X6.  [timo_add] keeps the queue ordered by the time left, also across
    the wrap of the clock.  In a queue whose timeouts expire in order,
    none of them [2^31] units ahead or more, a timeout scheduled [delta]
    units ahead ([delta < 2^31]) is linked behind every timeout with at
    most [delta] units left, hence behind those due at the same instant,
    and before all the others; it is marked as set and has [delta] units
    left, and the time left of the others has not changed. *)
Theorem timo_add_keeps_order (m : machine) (l : list nat) (o : nat) (delta : Z) :
  queue_is m l -> ordered m l -> o ∉ l -> is_Some (store m !! o) ->
  0 <= delta < 2 ^ 31 ->
  exists m' l1 l2,
    timo_add o delta m = Done m' /\ l = l1 ++ l2 /\
    queue_is m' (l1 ++ o :: l2) /\ ordered m' (l1 ++ o :: l2) /\
    Forall (fun a => remaining m a <= delta) l1 /\
    Forall (fun a => delta < remaining m a) l2 /\
    remaining m' o = delta /\ set_at m' o = 1 /\
    (forall a, a ∈ l -> remaining m' a = remaining m a).
Proof.
  intros Hq [Hasc Hlt] Ho [t Ht] Hd.
  destruct (timo_add_spec m l o t delta Hq Ho Ht)
    as (m' & l1 & l2 & Hadd & -> & Hq' & Hf & Hh & HT & _ & (t' & Ht' & _ & _ & Hset & Hval) & Hsame).
  assert (Hrem : forall a, a ∈ l1 ++ l2 -> remaining m' a = remaining m a).
  { intros a Ha. apply same_timeout_remaining; [|done].
    apply Hsame; [intros ->; done|]. by eapply qseg_lookup. }
  assert (Hro : remaining m' o = delta).
  { unfold remaining. rewrite (val_at_lookup _ _ _ Ht'), Hval, HT.
    unfold wrap32. rewrite Zminus_mod_idemp_l.
    replace (timo_abstime m + delta - timo_abstime m) with delta by lia.
    apply Z.mod_small. unfold UINT_MOD. lia. }
  apply Forall_app in Hlt as [Hlt1 Hlt2].
  assert (H1 : Forall (fun a => remaining m a <= delta) l1).
  { apply Forall_forall. intros a Ha.
    rewrite Forall_forall in Hf, Hlt1.
    specialize (Hf a Ha). rewrite after_remaining in Hf by auto.
    apply Z.ltb_ge in Hf. done. }
  assert (H2 : Forall (fun a => delta < remaining m a) l2).
  { destruct l2 as [|b l2]; [constructor|].
    rewrite after_remaining in Hh
      by (try done; by apply Forall_cons in Hlt2 as [? _]).
    apply Z.ltb_lt in Hh.
    rewrite map_app in Hasc. apply ascending_app_r in Hasc.
    cbn [map ascending] in Hasc. destruct Hasc as [Hb _].
    apply Forall_cons. split; [done|].
    rewrite Forall_map in Hb. eapply Forall_impl; [exact Hb|].
    intros a Ha. cbn beta in Ha. lia. }
  exists m', l1, l2. split; [done|]. split; [done|]. split; [done|].
  split; [|split; [done|split; [done|split; [done|split; [|done]]]]].
  - split.
    + rewrite map_app. cbn [map]. rewrite Hro.
      assert (Hm1 : map (remaining m') l1 = map (remaining m) l1).
      { apply map_ext_in. intros a Ha. apply Hrem, elem_of_app. left.
        by apply list_elem_of_In. }
      assert (Hm2 : map (remaining m') l2 = map (remaining m) l2).
      { apply map_ext_in. intros a Ha. apply Hrem, elem_of_app. right.
        by apply list_elem_of_In. }
      rewrite Hm1, Hm2. apply ascending_insert.
      * by rewrite <- map_app.
      * by rewrite Forall_map.
      * rewrite Forall_map. eapply Forall_impl; [exact H2|].
        intros a Ha. cbn beta in *. lia.
    + apply Forall_app. split; [|apply Forall_cons; split; [lia|]].
      * apply Forall_forall. intros a Ha. rewrite Hrem by (apply elem_of_app; by left).
        rewrite Forall_forall in Hlt1. by apply Hlt1.
      * apply Forall_forall. intros a Ha. rewrite Hrem by (apply elem_of_app; by right).
        rewrite Forall_forall in Hlt2. by apply Hlt2.
  - unfold set_at. by rewrite Ht'.
Qed.


Lemma sample_queue : queue_is sample_machine [1%nat; 2%nat].
Proof.
  unfold queue_is, sample_machine. cbn [timo_queue store qseg].
  split; [done|]. eexists. split; [apply lookup_insert_eq|]. cbn [next].
  split; [done|]. eexists.
  split; [rewrite lookup_insert_ne by done; apply lookup_insert_eq|]. done.
Qed.

Lemma sample_ordered : ordered sample_machine [1%nat; 2%nat].
Proof.
  split.
  - vm_compute. repeat split; repeat constructor; discriminate.
  - repeat constructor; vm_compute; reflexivity.
Qed.

Lemma timo_add_keeps_order_witness :
  exists m' l1 l2,
    timo_add 3 1000 sample_machine = Done m' /\ [1%nat; 2%nat] = l1 ++ l2 /\
    queue_is m' (l1 ++ 3%nat :: l2) /\ ordered m' (l1 ++ 3%nat :: l2) /\
    Forall (fun a => remaining sample_machine a <= 1000) l1 /\
    Forall (fun a => 1000 < remaining sample_machine a) l2 /\
    remaining m' 3 = 1000 /\ set_at m' 3 = 1 /\
    (forall a, a ∈ [1%nat; 2%nat] ->
       remaining m' a = remaining sample_machine a).
Proof.
  apply (timo_add_keeps_order sample_machine [1%nat; 2%nat] 3 1000).
  - exact sample_queue.
  - exact sample_ordered.
  - intros H. repeat (apply elem_of_cons in H as [H|H]; [discriminate|]).
    by apply elem_of_nil in H.
  - eexists. unfold sample_machine. cbn [store].
    rewrite !lookup_insert_ne by done. apply lookup_insert_eq.
  - lia.
Defined.

(** X7.  [timo_del] on a timeout that is not in the queue returns and
    changes nothing.  On a queued timeout it unlinks it and clears its
    [set] flag; the other timeouts, their order, the clock and the calls
    made so far stay as they were, and deleting the timeout once more
    changes nothing. *)
Theorem timo_del_unlinks (m : machine) (l : list nat) (o : nat) :
  queue_is m l ->
  (o ∉ l -> timo_del o m = Done m) /\
  (forall l1 l2, l = l1 ++ o :: l2 ->
     exists m',
       timo_del o m = Done m' /\ queue_is m' (l1 ++ l2) /\
       set_at m' o = 0 /\ call_of m' o = call_of m o /\
       timo_abstime m' = timo_abstime m /\ fired m' = fired m /\
       (forall a, a <> o -> is_Some (store m !! a) -> same_timeout m m' a) /\
       timo_del o m' = Done m').
Proof.
  intros Hq. split; [by apply timo_del_absent|].
  intros l1 l2 ->.
  pose proof (qseg_NoDup _ _ _ Hq) as Hnd.
  destruct (timo_del_spec m l1 l2 o Hq)
    as (m' & t & Ht & Hdel & Hq' & HT & Hfd & Ho & Hsame).
  exists m'. split; [done|]. split; [done|].
  split; [unfold set_at; by rewrite Ho|].
  split; [unfold call_of; by rewrite Ho, Ht|].
  split; [done|]. split; [done|]. split; [done|].
  apply (timo_del_absent m' (l1 ++ l2)); [done|].
  apply NoDup_app in Hnd as (_ & Hdis & Hnd2).
  apply NoDup_cons in Hnd2 as (Ho2 & _).
  intros Hin. apply elem_of_app in Hin as [Hin|Hin]; [|done].
  apply (Hdis _ Hin). by left.
Qed.

Lemma timo_del_unlinks_witness :
  timo_del 3 sample_machine = Done sample_machine /\
  exists m',
    timo_del 2 sample_machine = Done m' /\ queue_is m' ([1%nat] ++ []) /\
    set_at m' 2 = 0 /\ call_of m' 2 = call_of sample_machine 2 /\
    timo_abstime m' = timo_abstime sample_machine /\
    fired m' = fired sample_machine /\
    (forall a, a <> 2%nat -> is_Some (store sample_machine !! a) ->
       same_timeout sample_machine m' a) /\
    timo_del 2 m' = Done m'.
Proof.
  split.
  - apply (proj1 (timo_del_unlinks sample_machine [1%nat; 2%nat] 3 sample_queue)).
    intros H. repeat (apply elem_of_cons in H as [H|H]; [discriminate|]).
    by apply elem_of_nil in H.
  - apply (proj2 (timo_del_unlinks sample_machine [1%nat; 2%nat] 2 sample_queue)
             [1%nat] []).
    reflexivity.
Defined.

(** X8.  Scheduling a timeout with [timo_add] and aborting it with
    [timo_del] before it expires gives back the queue as it was: the
    same timeouts in the same order with their callbacks, flags and
    expiries; the timeout itself is marked set in between and not set
    afterwards, and keeps its callback and argument. *)
Theorem timo_add_del_round_trip (m : machine) (l : list nat) (o : nat)
    (delta : Z) :
  queue_is m l -> o ∉ l -> is_Some (store m !! o) ->
  exists m1 m2,
    timo_add o delta m = Done m1 /\ set_at m1 o = 1 /\
    timo_del o m1 = Done m2 /\
    queue_is m2 l /\ set_at m2 o = 0 /\ call_of m2 o = call_of m o /\
    timo_abstime m2 = timo_abstime m /\ fired m2 = fired m /\
    (forall a, a <> o -> is_Some (store m !! a) -> same_timeout m m2 a).
Proof.
  intros Hq Ho [t Ht].
  destruct (timo_add_spec m l o t delta Hq Ho Ht)
    as (m1 & l1 & l2 & Hadd & -> & Hq1 & _ & _ & HT1 & Hf1
        & (t1 & Ht1 & Hcb & Harg & Hset & _) & Hsame1).
  destruct (timo_del_spec m1 l1 l2 o Hq1)
    as (m2 & t1' & Ht1' & Hdel & Hq2 & HT2 & Hf2 & Ho2 & Hsame2).
  rewrite Ht1 in Ht1'. injection Ht1' as <-.
  exists m1, m2. split; [done|].
  split; [unfold set_at; by rewrite Ht1|]. split; [done|]. split; [done|].
  split; [unfold set_at; by rewrite Ho2|].
  split; [unfold call_of; rewrite Ho2, Ht; simpl; by rewrite Hcb, Harg|].
  split; [congruence|]. split; [congruence|].
  intros a Ha Hs. eapply same_timeout_trans; [by apply Hsame1|].
  apply Hsame2; [done|].
  destruct (Hsame1 a Ha Hs) as (? & ? & _ & -> & _). done.
Qed.

Lemma timo_add_del_round_trip_witness :
  exists m1 m2,
    timo_add 3 1000 sample_machine = Done m1 /\ set_at m1 3 = 1 /\
    timo_del 3 m1 = Done m2 /\
    queue_is m2 [1%nat; 2%nat] /\ set_at m2 3 = 0 /\
    call_of m2 3 = call_of sample_machine 3 /\
    timo_abstime m2 = timo_abstime sample_machine /\
    fired m2 = fired sample_machine /\
    (forall a, a <> 3%nat -> is_Some (store sample_machine !! a) ->
       same_timeout sample_machine m2 a).
Proof.
  apply (timo_add_del_round_trip sample_machine [1%nat; 2%nat] 3 1000).
  - exact sample_queue.
  - intros H. repeat (apply elem_of_cons in H as [H|H]; [discriminate|]).
    by apply elem_of_nil in H.
  - eexists. unfold sample_machine. cbn [store].
    rewrite !lookup_insert_ne by done. apply lookup_insert_eq.
Defined.


Lemma ascending_split (f : nat -> Z) (delta : Z) (l : list nat) :
  ascending (map f l) ->
  exists l1 l2, l = l1 ++ l2 /\ Forall (fun a => f a <= delta) l1 /\
                Forall (fun a => delta < f a) l2.
Proof.
  induction l as [|a l IH]; intros Ha.
  - exists [], []. repeat split; constructor.
  - cbn [map ascending] in Ha. destruct Ha as [Hall Ha].
    destruct (Z.le_gt_cases (f a) delta) as [Hle|Hgt].
    + destruct (IH Ha) as (l1 & l2 & -> & H1 & H2).
      exists (a :: l1), l2. repeat split; [|done]. by constructor.
    + exists [], (a :: l). repeat split; [constructor|].
      constructor; [lia|]. rewrite Forall_map in Hall.
      eapply Forall_impl; [exact Hall|]. intros b Hb. cbn beta in Hb. lia.
Qed.

Lemma ascending_shift (d : Z) (l : list Z) :
  ascending l -> ascending (map (fun x => x - d) l).
Proof.
  induction l as [|x l IH]; [done|]. cbn [map ascending]. intros [Hall Ha].
  split; [|by apply IH]. rewrite Forall_map.
  eapply Forall_impl; [exact Hall|]. intros y Hy. cbn beta. lia.
Qed.

(** X9.  On an ordered queue, [timo_update] by [delta < 2^31] units, with
    callbacks that leave the timeouts alone, returns after calling the
    callbacks of exactly the timeouts that had at most [delta] units
    left, once each and in the order of the queue.  These end with
    [set = 0]; the others stay queued in order, each with [delta] units
    less to go. *)
Theorem timo_update_fires_due (m : machine) (l : list nat) (delta : Z)
    (fuel : nat) :
  queue_is m l -> ordered m l -> 0 <= delta < 2 ^ 31 ->
  (length l <= fuel)%nat ->
  exists m' l1 l2,
    timo_update plain fuel delta m = Done m' /\ l = l1 ++ l2 /\
    Forall (fun a => remaining m a <= delta) l1 /\
    Forall (fun a => delta < remaining m a) l2 /\
    fired m' = fired m ++ map (call_of m) l1 /\
    Forall (fun a => set_at m' a = 0) l1 /\
    queue_is m' l2 /\ ordered m' l2 /\
    timo_abstime m' = wrap32 (timo_abstime m + delta) /\
    Forall (fun a => remaining m' a = remaining m a - delta) l2.
Proof.
  intros Hq [Hasc Hlt] Hd Hlen.
  destruct (ascending_split (remaining m) delta l Hasc) as (l1 & l2 & -> & H1 & H2).
  pose proof (qseg_NoDup _ _ _ Hq) as Hnd.
  apply NoDup_app in Hnd as (_ & Hdis & _).
  apply Forall_app in Hlt as [Hlt1 Hlt2].
  unfold timo_update.
  set (m0 := mkmachine (timo_queue m) (wrap32 (timo_abstime m + delta))
                       (store m) (fired m)).
  destruct (timo_update_loop_spec l1 fuel m0 l2)
    as (m' & Hrun & Hq' & HT & Hfd & Hin & Hout).
  - exact Hq.
  - apply Forall_forall. intros a Ha. rewrite Forall_forall in H1, Hlt1.
    change (after m (wrap32 (timo_abstime m + delta)) a = false).
    rewrite after_remaining by auto. apply Z.ltb_ge. by apply H1.
  - destruct l2 as [|b l2]; [done|].
    apply Forall_cons in H2 as [Hb _]. apply Forall_cons in Hlt2 as [Hb' _].
    change (after m (wrap32 (timo_abstime m + delta)) b = true).
    rewrite after_remaining by auto. by apply Z.ltb_lt.
  - rewrite length_app in Hlen. lia.
  - assert (Hrem : Forall (fun a => remaining m' a = remaining m a - delta) l2).
    { apply Forall_forall. intros a Ha.
      rewrite Forall_forall in H2, Hlt2.
      specialize (H2 a Ha). specialize (Hlt2 a Ha).
      unfold remaining, val_at in *. rewrite HT.
      rewrite Hout by (intros Hin'; by apply (Hdis a)).
      change (store m0 !! a) with (store m !! a).
      change (timo_abstime m0) with (wrap32 (timo_abstime m + delta)).
      unfold wrap32 in *. rewrite Zminus_mod_idemp_r.
      set (va := val (default blank (store m !! a))) in *.
      replace (va - (timo_abstime m + delta))
        with ((va - timo_abstime m) - delta) by lia.
      rewrite <- Zminus_mod_idemp_l.
      apply Z.mod_small.
      remember ((va - timo_abstime m) mod UINT_MOD) as r.
      unfold UINT_MOD. clear - H2 Hlt2 Hd. lia. }
    exists m', l1, l2. split; [exact Hrun|]. split; [done|].
    split; [done|]. split; [done|]. split; [exact Hfd|].
    split; [|split; [done|split; [|split; [done|done]]]].
    + apply Forall_forall. intros a Ha. unfold set_at. rewrite (Hin a Ha).
      change (store m0 !! a) with (store m !! a).
      destruct (qseg_lookup _ _ _ _ a Hq) as [t Ht];
        [apply elem_of_app; by left|].
      by rewrite Ht.
    + split.
      * rewrite (map_ext_in _ (fun a => remaining m a - delta)).
        -- rewrite map_app in Hasc. apply ascending_app_r in Hasc.
           rewrite <- (map_map (remaining m) (fun x => x - delta)).
           by apply ascending_shift.
        -- intros a Ha. rewrite Forall_forall in Hrem. apply Hrem.
           by apply list_elem_of_In.
      * apply Forall_forall. intros a Ha.
        rewrite Forall_forall in Hrem, Hlt2. rewrite (Hrem a Ha).
        specialize (Hlt2 a Ha). lia.
Qed.

Lemma timo_update_fires_due_witness :
  exists m' l1 l2,
    timo_update plain 2 1000 sample_machine = Done m' /\
    [1%nat; 2%nat] = l1 ++ l2 /\
    Forall (fun a => remaining sample_machine a <= 1000) l1 /\
    Forall (fun a => 1000 < remaining sample_machine a) l2 /\
    fired m' = fired sample_machine ++ map (call_of sample_machine) l1 /\
    Forall (fun a => set_at m' a = 0) l1 /\
    queue_is m' l2 /\ ordered m' l2 /\
    timo_abstime m' = wrap32 (timo_abstime sample_machine + 1000) /\
    Forall (fun a => remaining m' a = remaining sample_machine a - 1000) l2.
Proof.
  apply (timo_update_fires_due sample_machine [1%nat; 2%nat] 1000 2).
  - exact sample_queue.
  - exact sample_ordered.
  - lia.
  - simpl. lia.
Defined.


(** X10.  A callback that schedules its own timeout again runs once for
    each [timo_update], however far the update goes past the expiry: the
    new expiry is counted from the time of the update, [period] units
    ahead, not from the previous expiry, so the timeout is queued again
    and no longer due when the loop looks at it. *)
Theorem timo_rearm_fires_once (m : machine) (o : nat) (l2 : list nat)
    (delta period : Z) (fuel : nat) :
  queue_is m (o :: l2) -> ordered m (o :: l2) ->
  0 <= delta < 2 ^ 31 -> remaining m o <= delta ->
  Forall (fun a => delta < remaining m a) l2 ->
  0 < period < 2 ^ 31 -> (1 <= fuel)%nat ->
  exists m' l2a l2b,
    timo_update (rearm o period) fuel delta m = Done m' /\
    fired m' = fired m ++ [call_of m o] /\
    l2 = l2a ++ l2b /\ queue_is m' (l2a ++ o :: l2b) /\
    timo_abstime m' = wrap32 (timo_abstime m + delta) /\
    remaining m' o = period /\ set_at m' o = 1.
Proof.
  intros Hq [Hasc Hlt] Hd Hdue Hrest Hp Hfuel.
  pose proof (qseg_NoDup _ _ _ Hq) as Hnd.
  apply NoDup_cons in Hnd as [Hol Hnd].
  apply Forall_cons in Hlt as [Hlto Hlt].
  unfold queue_is in Hq. cbn [qseg] in Hq. destruct Hq as (Hh & t & Ht & Hq).
  destruct fuel as [|fuel]; [lia|].
  unfold timo_update. cbn [timo_update_loop timo_queue]. rewrite Hh.
  unfold get at 1. cbn [store]. rewrite Ht. cbn [bind timo_abstime].
  assert (Hao : after m (wrap32 (timo_abstime m + delta)) o = false)
    by (rewrite after_remaining by auto; by apply Z.ltb_ge).
  unfold after in Hao. rewrite (val_at_lookup _ _ _ Ht) in Hao. rewrite Hao.
  unfold get at 1. cbn [store]. rewrite Ht. cbn [bind].
  unfold get at 1. cbn [put store]. rewrite lookup_insert_eq. cbn [bind].
  cbn [cb arg timo_queue timo_abstime fired store].
  set (m3 := mkmachine _ _ _ _). unfold rearm at 1.
  assert (Hq3 : queue_is m3 l2)
    by (unfold queue_is; subst m3; cbn [timo_queue store]; by apply qseg_frame).
  assert (Ht3 : store m3 !! o = Some (mktimo (cb t) (arg t) 0 (val t) (next t)))
    by (subst m3; cbn [store]; apply lookup_insert_eq).
  destruct (timo_add_spec m3 l2 o _ period Hq3 Hol Ht3)
    as (m4 & l2a & l2b & Hadd & -> & Hq4 & _ & _ & HT4 & Hf4
        & (t4 & Ht4 & _ & _ & Hset4 & Hval4) & Hsame).
  rewrite Hadd. cbn [bind].
  assert (HT3 : timo_abstime m3 = wrap32 (timo_abstime m + delta)) by done.
  assert (Hro : remaining m4 o = period).
  { unfold remaining. rewrite (val_at_lookup _ _ _ Ht4), Hval4, HT4.
    unfold wrap32. rewrite Zminus_mod_idemp_l.
    replace (timo_abstime m3 + period - timo_abstime m3) with period by lia.
    apply Z.mod_small. unfold UINT_MOD. lia. }
  assert (Hstop : timo_update_loop (rearm o period) fuel m4 = Done m4).
  { unfold queue_is in Hq4.
    destruct l2a as [|b l2a]; cbn [app qseg] in Hq4;
      destruct Hq4 as (Hh4 & tb & Htb & _).
    - rewrite Ht4 in Htb. injection Htb as <-.
      assert (Hd4 : (0 <? to_int (val t4 - timo_abstime m4)) = true).
      { rewrite (to_int_congr _ period).
        - rewrite to_int_small by lia. apply Z.ltb_lt. lia.
        - rewrite <- Hro. unfold remaining, wrap32.
          rewrite (val_at_lookup _ _ _ Ht4). by rewrite Zmod_mod. }
      destruct fuel; cbn [timo_update_loop]; rewrite Hh4; unfold get;
        rewrite Ht4; cbn [bind]; rewrite Hd4; done.
    - assert (Hbo : b <> o) by (intros ->; apply Hol; by left).
      apply Forall_cons in Hrest as [Hb _].
      apply Forall_cons in Hlt as [Hb' _].
      assert (Hab : after m (wrap32 (timo_abstime m + delta)) b = true)
        by (rewrite after_remaining by auto; by apply Z.ltb_lt).
      destruct (Hsame b Hbo) as (t3 & tb' & H3 & H4 & _ & _ & _ & Hv).
      { subst m3. cbn [store]. rewrite lookup_insert_ne by done.
        destruct (qseg_lookup _ _ _ _ b Hq) as [u Hu]; [by left|]. eauto. }
      rewrite Htb in H4. injection H4 as <-.
      subst m3. cbn [store] in H3. rewrite lookup_insert_ne in H3 by done.
      unfold after in Hab. rewrite (val_at_lookup _ _ _ H3) in Hab.
      rewrite <- Hv, <- HT3, <- HT4 in Hab.
      destruct fuel; cbn [timo_update_loop]; rewrite Hh4; unfold get;
        rewrite Htb; cbn [bind]; rewrite Hab; done. }
  rewrite Hstop.
  exists m4, l2a, l2b. split; [done|].
  split; [rewrite Hf4; unfold call_of; by rewrite Ht|].
  split; [done|]. split; [done|]. split; [congruence|]. split; [done|].
  unfold set_at. by rewrite Ht4.
Qed.

Lemma timo_rearm_fires_once_witness :
  exists m' l2a l2b,
    timo_update (rearm 1 300) 1 1000 sample_machine = Done m' /\
    fired m' = fired sample_machine ++ [call_of sample_machine 1] /\
    [2%nat] = l2a ++ l2b /\ queue_is m' (l2a ++ 1%nat :: l2b) /\
    timo_abstime m' = wrap32 (timo_abstime sample_machine + 1000) /\
    remaining m' 1 = 300 /\ set_at m' 1 = 1.
Proof.
  apply (timo_rearm_fires_once sample_machine 1 [2%nat] 1000 300 1).
  - exact sample_queue.
  - exact sample_ordered.
  - lia.
  - vm_compute. discriminate.
  - repeat constructor.
  - lia.
  - lia.
Defined.

End TimoMore.

(** ** state.c: updates, lookups and the pool of states *)
Section StateMore.
Import State.

Section WithEv.
Variable ev_phase : ev -> Z.
Variable ev_match : ev -> ev -> bool.

Lemma update_scan_count (l : list state) : forall free e l' free' found,
  update_scan ev_match l free e = (l', free', found) ->
  (length l' + free' = length l + free)%nat /\ (free <= free')%nat.
Proof.
  induction l as [|s l IH]; intros free e l' free' found Hs; simpl in Hs.
  - inversion Hs; subst. done.
  - destruct (state_match ev_match s e).
    + destruct (negb (phase s =? EV_PHASE_LAST) &&
                negb (has (flags s) STATE_BOGUS)).
      * inversion Hs; subst. simpl. lia.
      * apply IH in Hs. unfold state_del in Hs. simpl. lia.
    + destruct (update_scan ev_match l free e) as [[r f'] fd] eqn:E.
      inversion Hs; subst. apply IH in E. simpl. lia.
Qed.

Lemma update_scan_before (l : list state) : forall free e l' free' j,
  update_scan ev_match l free e = (l', free', Some j) ->
  (forall k s, (k < j)%nat -> l' !! k = Some s ->
     state_match ev_match s e = false) /\
  exists s, l' !! j = Some s /\ state_match ev_match s e = true.
Proof.
  induction l as [|s l IH]; intros free e l' free' j Hs; simpl in Hs.
  - discriminate.
  - destruct (state_match ev_match s e) eqn:Hm.
    + destruct (negb (phase s =? EV_PHASE_LAST) &&
                negb (has (flags s) STATE_BOGUS)).
      * inversion Hs; subst. split; [intros k s0 Hk; lia|].
        eexists. split; [reflexivity|]. exact Hm.
      * eapply IH. eassumption.
    + destruct (update_scan ev_match l free e) as [[r f'] fd] eqn:E.
      destruct fd as [j'|]; simpl in Hs; [|discriminate].
      inversion Hs; subst. destruct (IH _ _ _ _ _ E) as [Hb Hj]. split.
      * intros [|k] s0 Hk Hl; simpl in Hl.
        -- by inversion Hl; subst.
        -- eapply Hb; [|eassumption]. lia.
      * exact Hj.
Qed.

Lemma update_scan_open (l1 : list state) (s : state) (l2 : list state)
    (free : nat) (e : ev) :
  Forall (fun s0 => state_match ev_match s0 e = false) l1 ->
  state_match ev_match s e = true -> open_state s = true ->
  update_scan ev_match (l1 ++ s :: l2) free e =
    (l1 ++ mkstate (st_ev s) (phase s) (Z.land (flags s) (Z.lnot STATE_NEW)) :: l2,
     free, Some (length l1)).
Proof.
  intros Hf Hm Ho. induction Hf as [|s0 l1 H0 Hf IH]; simpl.
  - rewrite Hm. unfold open_state in Ho. rewrite Ho. done.
  - rewrite H0, IH. done.
Qed.


(** X11.  [statelist_update] neither leaks nor frees twice: when it
    returns, the states of the list and the free entries of [state_pool]
    are together as many as before.  One call takes at most one entry
    more from the pool than it gives back, and the list grows by at most
    one state. *)
Theorem statelist_update_conserves (o : statelist) (free : nat) (e : ev)
    (o' : statelist) (free' i : nat) :
  statelist_update ev_phase ev_match o free e = Done (o', free', i) ->
  (length (first o') + free' = length (first o) + free)%nat /\
  (free <= S free')%nat /\
  (length (first o') <= S (length (first o)))%nat.
Proof.
  unfold statelist_update.
  destruct (update_scan ev_match (first o) free e) as [[l f1] found] eqn:Hscan.
  destruct (update_scan_count _ _ _ _ _ _ Hscan) as [Hcnt Hle].
  destruct found as [j|]; simpl.
  - destruct (update_scan_found _ _ _ _ _ _ _ Hscan) as (st0 & Hj & Hnew).
    rewrite Hj. rewrite (not_new_neq _ Hnew). simpl.
    destruct (ev_phase e =? EV_PHASE_FIRST).
    { destruct f1 as [|f1]; simpl; [discriminate|].
      intros H; inversion H; subst; clear H. simpl. simpl; lia. }
    destruct ((ev_phase e =? EV_PHASE_NEXT) || (ev_phase e =? EV_PHASE_LAST)).
    { simpl. intros H; inversion H; subst; clear H. simpl.
      rewrite length_alter. lia. }
    destruct (ev_phase e =? Z.lor EV_PHASE_FIRST EV_PHASE_NEXT).
    { simpl. intros H; inversion H; subst; clear H. simpl.
      rewrite length_alter. lia. }
    destruct (ev_phase e =? Z.lor EV_PHASE_FIRST EV_PHASE_LAST).
    { simpl. intros H; inversion H; subst; clear H. simpl.
      rewrite length_alter. lia. }
    discriminate.
  - destruct f1 as [|f1]; simpl; [discriminate|].
    destruct (ev_phase e =? EV_PHASE_FIRST).
    { simpl. intros H; inversion H; subst; clear H. simpl.
      simpl; lia. }
    destruct ((ev_phase e =? EV_PHASE_NEXT) || (ev_phase e =? EV_PHASE_LAST)).
    { simpl. intros H; inversion H; subst; clear H. simpl.
      simpl; lia. }
    destruct (ev_phase e =? Z.lor EV_PHASE_FIRST EV_PHASE_NEXT).
    { simpl. intros H; inversion H; subst; clear H. simpl.
      simpl; lia. }
    destruct (ev_phase e =? Z.lor EV_PHASE_FIRST EV_PHASE_LAST).
    { simpl. intros H; inversion H; subst; clear H. simpl.
      simpl; lia. }
    discriminate.
Qed.

(** X12.  [statelist_update] ends in [panic()] for every event whose
    phase is none of FIRST, NEXT, LAST, FIRST|NEXT and FIRST|LAST,
    whatever the list holds.  For an event with one of these phases a
    single free entry in [state_pool] is enough for the call to return. *)
Theorem statelist_update_panics (o : statelist) (free : nat) (e : ev) :
  (valid_phase (ev_phase e) = false ->
   statelist_update ev_phase ev_match o free e = Panic) /\
  (valid_phase (ev_phase e) = true -> (0 < free)%nat ->
   exists o' free' i,
     statelist_update ev_phase ev_match o free e = Done (o', free', i)).
Proof.
  unfold statelist_update, valid_phase.
  destruct (update_scan ev_match (first o) free e) as [[l f1] found] eqn:Hscan.
  destruct (update_scan_count _ _ _ _ _ _ Hscan) as [_ Hle].
  split.
  - intros Hv. apply orb_false_iff in Hv as [Hv H5].
    apply orb_false_iff in Hv as [Hv H4].
    apply orb_false_iff in Hv as [Hv H3].
    apply orb_false_iff in Hv as [H1 H2].
    destruct found as [j|]; simpl.
    + destruct (update_scan_found _ _ _ _ _ _ _ Hscan) as (st0 & Hj & _).
      rewrite Hj, H1, H2, H3, H4, H5. done.
    + destruct f1 as [|f1]; simpl; [done|].
      rewrite H1, H2, H3, H4, H5. done.
  - intros Hv Hfree.
    destruct found as [j|]; simpl.
    + destruct (update_scan_found _ _ _ _ _ _ _ Hscan) as (st0 & Hj & Hnew).
      rewrite Hj. rewrite (not_new_neq _ Hnew). simpl.
      destruct f1 as [|f1]; [lia|].
      destruct (ev_phase e =? EV_PHASE_FIRST); simpl; [eauto|].
      destruct (ev_phase e =? EV_PHASE_NEXT); simpl; [eauto|].
      destruct (ev_phase e =? EV_PHASE_LAST); simpl; [eauto|].
      destruct (ev_phase e =? Z.lor EV_PHASE_FIRST EV_PHASE_NEXT); simpl;
        [eauto|].
      destruct (ev_phase e =? Z.lor EV_PHASE_FIRST EV_PHASE_LAST); simpl;
        [eauto|]. discriminate.
    + destruct f1 as [|f1]; [lia|]. simpl.
      destruct (ev_phase e =? EV_PHASE_FIRST); simpl; [eauto|].
      destruct (ev_phase e =? EV_PHASE_NEXT); simpl; [eauto|].
      destruct (ev_phase e =? EV_PHASE_LAST); simpl; [eauto|].
      destruct (ev_phase e =? Z.lor EV_PHASE_FIRST EV_PHASE_NEXT); simpl;
        [eauto|].
      destruct (ev_phase e =? Z.lor EV_PHASE_FIRST EV_PHASE_LAST); simpl;
        [eauto|]. discriminate.
Qed.


Lemma statelist_lookup_at (l : list state) (e : ev) : forall i s,
  (forall k s0, (k < i)%nat -> l !! k = Some s0 ->
     state_match ev_match s0 e = false) ->
  l !! i = Some s -> state_match ev_match s e = true ->
  statelist_lookup ev_match l e = Some i.
Proof.
  induction l as [|s0 l IH]; intros i s Hb Hi Hm; [done|].
  destruct i as [|i]; simpl in *.
  - inversion Hi; subst. by rewrite Hm.
  - rewrite (Hb 0%nat s0) by (done || lia).
    rewrite (IH i s); [done| |done|done].
    intros k s1 Hk Hl. apply (Hb (S k) s1); [lia|done].
Qed.

Lemma lookup_alter_before (f : state -> state) (l : list state) (i k : nat) :
  (k < i)%nat -> alter f i l !! k = l !! k.
Proof. intros H. apply list_lookup_alter_ne. lia. Qed.

(** X13.  Right after [statelist_update] returned a state for an event,
    [statelist_lookup] of the same event finds this very state (provided
    the event matches itself under [ev_match]): no state before it in
    the list matches the event. *)
Theorem statelist_lookup_after_update (o : statelist) (free : nat) (e : ev)
    (o' : statelist) (free' i : nat) :
  ev_match e e = true ->
  statelist_update ev_phase ev_match o free e = Done (o', free', i) ->
  statelist_lookup ev_match (first o') e = Some i /\
  (exists st, first o' !! i = Some st /\ st_ev st = e).
Proof.
  intros Hrefl. unfold statelist_update.
  destruct (update_scan ev_match (first o) free e) as [[l f1] found] eqn:Hscan.
  assert (Hhead : forall (st : state) (l0 : list state) ph,
            statelist_lookup ev_match
              (alter (fun st => state_copyev st e ph) 0%nat (st :: l0)) e
              = Some 0%nat /\
            exists st', alter (fun st => state_copyev st e ph) 0%nat (st :: l0)
                          !! 0%nat = Some st' /\ st_ev st' = e).
  { intros st l0 ph. simpl. unfold state_match. simpl. rewrite Hrefl.
    split; [done|]. eexists. split; [reflexivity|]. done. }
  destruct found as [j|]; simpl.
  - destruct (update_scan_found _ _ _ _ _ _ _ Hscan) as (st0 & Hj & Hnew).
    destruct (update_scan_before _ _ _ _ _ _ Hscan) as [Hb _].
    rewrite Hj. rewrite (not_new_neq _ Hnew). simpl.
    assert (Hin : forall ph,
              statelist_lookup ev_match
                (alter (fun st => state_copyev st e ph) j l) e = Some j /\
              exists st', alter (fun st => state_copyev st e ph) j l !! j
                            = Some st' /\ st_ev st' = e).
    { intros ph. split.
      - apply (statelist_lookup_at _ _ j (state_copyev st0 e ph)).
        + intros k s0 Hk Hl. rewrite lookup_alter_before in Hl by done.
          by eapply Hb.
        + by apply copyev_at.
        + unfold state_match. simpl. exact Hrefl.
      - eexists. split; [by apply copyev_at|]. done. }
    destruct (ev_phase e =? EV_PHASE_FIRST).
    { destruct f1 as [|f1]; simpl; [discriminate|].
      intros H; inversion H; subst; clear H. apply Hhead. }
    destruct ((ev_phase e =? EV_PHASE_NEXT) || (ev_phase e =? EV_PHASE_LAST)).
    { simpl. intros H; inversion H; subst; clear H. apply Hin. }
    destruct (ev_phase e =? Z.lor EV_PHASE_FIRST EV_PHASE_NEXT).
    { simpl. intros H; inversion H; subst; clear H. apply Hin. }
    destruct (ev_phase e =? Z.lor EV_PHASE_FIRST EV_PHASE_LAST).
    { simpl. intros H; inversion H; subst; clear H. apply Hin. }
    discriminate.
  - destruct f1 as [|f1]; simpl; [discriminate|].
    destruct (ev_phase e =? EV_PHASE_FIRST).
    { simpl. intros H; inversion H; subst; clear H. apply Hhead. }
    destruct ((ev_phase e =? EV_PHASE_NEXT) || (ev_phase e =? EV_PHASE_LAST)).
    { simpl. intros H; inversion H; subst; clear H. apply Hhead. }
    destruct (ev_phase e =? Z.lor EV_PHASE_FIRST EV_PHASE_NEXT).
    { simpl. intros H; inversion H; subst; clear H. apply Hhead. }
    destruct (ev_phase e =? Z.lor EV_PHASE_FIRST EV_PHASE_LAST).
    { simpl. intros H; inversion H; subst; clear H. apply Hhead. }
    discriminate.
Qed.

(** X14.  An event that meets an open frame, the first state of the list
    that matches it being neither terminated nor bogus.  An event of
    phase NEXT or LAST is stored in that state where it stands, with the
    NEW flag cleared and CHANGED set, and no entry is taken from the
    pool.  An event of phase FIRST opens a nested frame: a new state with
    the flags NEW, NESTED and CHANGED is put at the head of the list, and
    the state found stays behind it with its event and phase and the NEW
    flag cleared. *)
Theorem statelist_update_open_frame (o : statelist) (free : nat) (e : ev)
    (l1 : list state) (s : state) (l2 : list state) :
  first o = l1 ++ s :: l2 ->
  Forall (fun s0 => state_match ev_match s0 e = false) l1 ->
  state_match ev_match s e = true -> open_state s = true ->
  (ev_phase e = EV_PHASE_NEXT \/ ev_phase e = EV_PHASE_LAST ->
   statelist_update ev_phase ev_match o free e =
     Done (mkstatelist
             (l1 ++ mkstate e (ev_phase e)
                      (Z.lor (Z.land (flags s) (Z.lnot STATE_NEW)) STATE_CHANGED)
                 :: l2) 1 (serial o),
           free, length l1)) /\
  (ev_phase e = EV_PHASE_FIRST -> (0 < free)%nat ->
   statelist_update ev_phase ev_match o free e =
     Done (mkstatelist
             (mkstate e EV_PHASE_FIRST
                      (Z.lor (Z.lor STATE_NEW STATE_NESTED) STATE_CHANGED)
              :: l1 ++ mkstate (st_ev s) (phase s)
                         (Z.land (flags s) (Z.lnot STATE_NEW)) :: l2)
             1 (serial o),
           pred free, 0%nat)).
Proof.
  intros Hl Hf Hm Ho. unfold statelist_update.
  rewrite Hl, (update_scan_open _ _ _ _ _ Hf Hm Ho). simpl.
  rewrite list_lookup_middle by done.
  set (s' := mkstate _ _ _).
  assert (Hnew : (flags s' =? STATE_NEW) = false)
    by (apply not_new_neq; subst s'; simpl; apply has_clear_same).
  rewrite Hnew. simpl. split.
  - intros [Hp | Hp]; rewrite Hp; simpl.
    + rewrite alter_app_r_alt by done. rewrite Nat.sub_diag. done.
    + rewrite alter_app_r_alt by done. rewrite Nat.sub_diag. done.
  - intros Hp Hfree. rewrite Hp. simpl.
    destruct free as [|free]; [lia|]. done.
Qed.

End WithEv.

Lemma dup_loop_spec (src : list state) : forall o free,
  ((length src <= free)%nat ->
   dup_loop src o free =
     Done (mkstatelist (rev src ++ first o) (changed o) (serial o),
           (free - length src)%nat)) /\
  ((free < length src)%nat -> dup_loop src o free = Panic).
Proof.
  induction src as [|i src IH]; intros o free; simpl.
  - split; [|lia]. intros _. rewrite Nat.sub_0_r. by destruct o.
  - destruct free as [|free]; simpl; [split; [lia|done]|].
    destruct (IH (statelist_add o (mkstate (st_ev i) (phase i) (flags i))) free)
      as [IH1 IH2].
    split; intros Hlen.
    + rewrite IH1 by lia. simpl. rewrite <- app_assoc. simpl.
      by destruct i.
    + apply IH2. lia.
Qed.

(** X15.  [statelist_dup] yields the states of the source in reverse
    order (each copy is added at the head), with event, phase and flags
    as in the source, and a list marked unchanged whatever the source
    says; it takes one entry per state from [state_pool] and panics when
    the pool has fewer free entries than the source has states. *)
Theorem statelist_dup_reverses (state_serial : Z) (src : statelist)
    (free : nat) :
  ((length (first src) <= free)%nat ->
   statelist_dup state_serial src free =
     Done (mkstatelist (rev (first src)) 0 state_serial,
           (free - length (first src))%nat)) /\
  ((free < length (first src))%nat ->
   statelist_dup state_serial src free = Panic).
Proof.
  unfold statelist_dup.
  destruct (dup_loop_spec (first src) (statelist_init state_serial) free)
    as [H1 H2].
  split; intros Hlen.
  - rewrite H1 by done. simpl. by rewrite app_nil_r.
  - by apply H2.
Qed.

Lemma statelist_dup_reverses_witness :
  statelist_dup 7 two_notes 5 =
    Done (mkstatelist (rev (first two_notes)) 0 7,
          (5 - length (first two_notes))%nat) /\
  statelist_dup 7 two_notes 1 = Panic.
Proof.
  split.
  - apply (proj1 (statelist_dup_reverses 7 two_notes 5)). simpl. lia.
  - apply (proj2 (statelist_dup_reverses 7 two_notes 1)). simpl. lia.
Defined.

Lemma empty_loop_spec (l : list state) : forall o free,
  first o = l ->
  empty_loop l o free =
    (mkstatelist [] (changed o) (serial o), (free + length l)%nat).
Proof.
  induction l as [|i l IH]; intros o free Hl; simpl.
  - rewrite Nat.add_0_r. destruct o; simpl in *; by subst.
  - rewrite IH by (simpl; by rewrite Hl). simpl. unfold state_del.
    f_equal. lia.
Qed.

Lemma done_loop_spec (l : list state) : forall o free log,
  first o = l ->
  done_loop l o free log =
    (mkstatelist [] (changed o) (serial o), (free + length l)%nat,
     log ++ map st_ev
           (List.filter (fun i => negb (has (phase i) EV_PHASE_LAST) &&
                               negb (evcmd_eqb (cmd (st_ev i)) EV_CTL)) l)).
Proof.
  induction l as [|i l IH]; intros o free log Hl; simpl.
  - rewrite Nat.add_0_r, app_nil_r. destruct o; simpl in *; by subst.
  - rewrite IH by (simpl; by rewrite Hl). simpl. unfold state_del.
    destruct (negb (has (phase i) EV_PHASE_LAST) &&
              negb (evcmd_eqb (cmd (st_ev i)) EV_CTL)); simpl.
    + rewrite <- app_assoc. simpl. f_equal. f_equal. lia.
    + f_equal. f_equal. lia.
Qed.

(** X16.  [statelist_empty] and [statelist_done] unlink every state and
    return all of them to [state_pool]; the flag [changed] stays as it
    was.  [statelist_done] reports as unterminated exactly the states
    whose phase has no LAST bit and whose event is not a plain
    controller, in the order of the list. *)
Theorem statelist_done_frees_all (o : statelist) (free : nat) :
  statelist_empty o free =
    (mkstatelist [] (changed o) (serial o),
     (free + length (first o))%nat) /\
  statelist_done o free =
    (mkstatelist [] (changed o) (serial o),
     (free + length (first o))%nat,
     map st_ev
       (List.filter (fun i => negb (has (phase i) EV_PHASE_LAST) &&
                            negb (evcmd_eqb (cmd (st_ev i)) EV_CTL))
                    (first o))).
Proof.
  split.
  - unfold statelist_empty. by apply empty_loop_spec.
  - unfold statelist_done. by rewrite done_loop_spec.
Qed.

(** X17.  [statelist_outdate] on a list that is not marked changed does
    nothing, even if the list holds terminated states; a second call
    right after a first one changes nothing more; and the states kept
    together with the free entries of the pool are as many as before. *)
Theorem statelist_outdate_idempotent (o : statelist) (free : nat) :
  let r := statelist_outdate o free in
  statelist_outdate (mkstatelist (first o) 0 (serial o)) free
    = (mkstatelist (first o) 0 (serial o), free) /\
  statelist_outdate (fst r) (snd r) = r /\
  (length (first (fst r)) + snd r = length (first o) + free)%nat /\
  (length (first (fst r)) <= length (first o))%nat.
Proof.
  cbn zeta. split; [done|]. unfold statelist_outdate.
  destruct (changed o =? 0) eqn:Hc.
  - simpl. rewrite Hc. split; [done|]. lia.
  - rewrite outdate_loop_spec. simpl. split; [done|].
    rewrite length_map.
    pose proof (filter_length (fun s => phase s =? EV_PHASE_LAST) (first o))
      as Hl.
    cbn beta in Hl. lia.
Qed.

Lemma statelist_update_conserves_witness :
  (length (first two_notes_touched) + 8 = length (first two_notes) + 8)%nat /\
  (8 <= S 8)%nat /\
  (length (first two_notes_touched) <= S (length (first two_notes)))%nat.
Proof.
  apply (statelist_update_conserves ev_phase_spec ev_match_spec two_notes 8
           (key_at 60 30) two_notes_touched 8 1).
  reflexivity.
Defined.

Lemma statelist_update_panics_witness :
  statelist_update (fun _ => 0) ev_match_spec two_notes 8 (note_on 60 100)
    = Panic /\
  exists o' free' i,
    statelist_update ev_phase_spec ev_match_spec two_notes 1 (note_on 62 100)
      = Done (o', free', i).
Proof.
  split.
  - apply (proj1 (statelist_update_panics (fun _ => 0) ev_match_spec
                    two_notes 8 (note_on 60 100))).
    reflexivity.
  - apply (proj2 (statelist_update_panics ev_phase_spec ev_match_spec
                    two_notes 1 (note_on 62 100))).
    + reflexivity.
    + lia.
Defined.

Lemma statelist_lookup_after_update_witness :
  statelist_lookup ev_match_spec (first two_notes_touched) (key_at 60 30)
    = Some 1%nat /\
  (exists st, first two_notes_touched !! 1%nat = Some st /\
              st_ev st = key_at 60 30).
Proof.
  apply (statelist_lookup_after_update ev_phase_spec ev_match_spec two_notes 8
           (key_at 60 30) two_notes_touched 8 1); reflexivity.
Defined.

Lemma statelist_update_open_frame_witness :
  statelist_update ev_phase_spec ev_match_spec two_notes 8 (key_at 60 30) =
    Done (mkstatelist
            ([mkstate (note_on 61 100) EV_PHASE_FIRST
                      (Z.lor STATE_NEW STATE_CHANGED)]
             ++ mkstate (key_at 60 30) (ev_phase_spec (key_at 60 30))
                  (Z.lor (Z.land (Z.lor STATE_NEW STATE_CHANGED)
                                 (Z.lnot STATE_NEW)) STATE_CHANGED)
                :: []) 1 (serial two_notes),
          8%nat, length [mkstate (note_on 61 100) EV_PHASE_FIRST
                                 (Z.lor STATE_NEW STATE_CHANGED)]) /\
  statelist_update ev_phase_spec ev_match_spec two_notes 8 (note_on 60 90) =
    Done (mkstatelist
            (mkstate (note_on 60 90) EV_PHASE_FIRST
                     (Z.lor (Z.lor STATE_NEW STATE_NESTED) STATE_CHANGED)
             :: [mkstate (note_on 61 100) EV_PHASE_FIRST
                         (Z.lor STATE_NEW STATE_CHANGED)]
                ++ mkstate (note_on 60 100) EV_PHASE_FIRST
                     (Z.land (Z.lor STATE_NEW STATE_CHANGED) (Z.lnot STATE_NEW))
                   :: []) 1 (serial two_notes),
          pred 8, 0%nat).
Proof.
  split.
  - apply (proj1 (statelist_update_open_frame ev_phase_spec ev_match_spec
                    two_notes 8 (key_at 60 30)
                    [mkstate (note_on 61 100) EV_PHASE_FIRST
                             (Z.lor STATE_NEW STATE_CHANGED)]
                    (mkstate (note_on 60 100) EV_PHASE_FIRST
                             (Z.lor STATE_NEW STATE_CHANGED)) []
                    eq_refl ltac:(repeat constructor) eq_refl eq_refl)).
    left. reflexivity.
  - apply (proj2 (statelist_update_open_frame ev_phase_spec ev_match_spec
                    two_notes 8 (note_on 60 90)
                    [mkstate (note_on 61 100) EV_PHASE_FIRST
                             (Z.lor STATE_NEW STATE_CHANGED)]
                    (mkstate (note_on 60 100) EV_PHASE_FIRST
                             (Z.lor STATE_NEW STATE_CHANGED)) []
                    eq_refl ltac:(repeat constructor) eq_refl eq_refl)).
    + reflexivity.
    + lia.
Defined.

End StateMore.

(** ** track.c: counting, shifting, clearing *)
Section TrackMore.
Import State Track.

Lemma evcmd_eqb_eq (a b : evcmd) : evcmd_eqb a b = true <-> a = b.
Proof.
  split.
  - destruct a, b; simpl; try done. intros H. apply Nat.eqb_eq in H. by subst.
  - intros <-. destruct a; simpl; try done. apply Nat.eqb_refl.
Qed.

Lemma for_events_lseg (f : Z -> ev -> Z -> Z) (t : track) (l : list item) :
  forall sl p sl' q n acc,
  lseg t sl p l sl' q ->
  for_events f (length l + n) t p acc =
    for_events f n t q
      (fold_left (fun acc (x : item) => f (snd (fst x)) (snd x) acc) l acc).
Proof.
  induction l as [|[[a d] e] l IH]; intros sl p sl' q n acc H; simpl in H.
  - destruct H as [-> _]. done.
  - destruct H as (-> & s & Hs & Hd & He & _ & H).
    cbn [length Nat.add for_events]. rewrite (rd_node _ _ _ Hs). cbn [bind].
    rewrite (IH _ _ _ _ _ _ H). simpl. by rewrite Hd, He.
Qed.

Lemma for_events_track (f : Z -> ev -> Z -> Z) (t : track) (l : list item)
    (de : Z) :
  is_track t l de ->
  for_events f (S (size (heap t))) t (first t) 0 =
    Done (f de (sev (eot t))
            (fold_left (fun acc (x : item) => f (snd (fst x)) (snd x) acc) l 0)).
Proof.
  intros [Hnd (sl' & Hl & Hn & Hp & Hd)].
  pose proof (lseg_length _ _ _ _ _ _ Hnd Hl) as Hlen.
  replace (S (size (heap t)))
    with (length l + S (size (heap t) - length l))%nat by lia.
  rewrite (for_events_lseg f _ _ _ _ _ _ _ _ Hl).
  cbn [for_events rd bind]. rewrite Hn, Hd.
  by destruct (size (heap t) - length l)%nat.
Qed.


Lemma count_fold (g : item -> bool) (l : list item) : forall acc,
  0 <= acc < UINT_MOD ->
  fold_left (fun acc (x : item) => if g x then wrap32 (acc + 1) else acc) l acc =
    wrap32 (acc + Z.of_nat (length (List.filter g l))).
Proof.
  induction l as [|x l IH]; intros acc Hacc; simpl.
  - rewrite Z.add_0_r. unfold wrap32. by rewrite Z.mod_small.
  - destruct (g x); simpl.
    + rewrite IH by (unfold wrap32, UINT_MOD; apply Z.mod_pos_bound; lia).
      rewrite wrap32_add_idemp_l. f_equal. lia.
    + by apply IH.
Qed.

Lemma numev_fold (l : list item) : forall acc,
  0 <= acc < UINT_MOD ->
  fold_left (fun acc (_ : item) => wrap32 (acc + 1)) l acc =
    wrap32 (acc + Z.of_nat (length l)).
Proof.
  induction l as [|x l IH]; intros acc Hacc; simpl.
  - rewrite Z.add_0_r. unfold wrap32. by rewrite Z.mod_small.
  - rewrite IH by (unfold wrap32, UINT_MOD; apply Z.mod_pos_bound; lia).
    rewrite wrap32_add_idemp_l. f_equal. lia.
Qed.

Lemma track_init_is_track (h : gmap nat seqev) : is_track (track_init h) [] 0.
Proof.
  split; [constructor|]. exists SFirst. simpl. done.
Qed.

(** X18.  [track_isempty] on a track whose events all carry a command
    other than EV_NULL: the answer is true exactly when the track has no
    event and its sentinel has delta 0, that is when there is neither an
    event nor blank space.  A track fresh from [track_init] is a track
    without events and is empty. *)
Theorem track_isempty_spec (t : track) (l : list item) (de : Z)
    (h : gmap nat seqev) :
  (is_track t l de -> cmd (sev (eot t)) = EV_NULL ->
   Forall (fun x => cmd (snd x) <> EV_NULL) l ->
   track_isempty t = Done (match l with [] => de =? 0 | _ => false end)) /\
  is_track (track_init h) [] 0 /\
  track_isempty (track_init h) = Done true.
Proof.
  split; [|split; [apply track_init_is_track|done]].
  intros [Hnd (sl' & Hl & Hn & Hp & Hd)] He Hf. unfold track_isempty.
  destruct l as [|[[a d] e] l]; simpl in Hl.
  - destruct Hl as [-> _]. simpl. rewrite He, Hd. done.
  - destruct Hl as (-> & s & Hs & _ & Hse & _).
    rewrite (rd_node _ _ _ Hs). simpl. rewrite Hse.
    apply Forall_cons in Hf as [Hne _]. simpl in Hne.
    destruct (evcmd_eqb (cmd e) EV_NULL) eqn:E; [|done].
    apply evcmd_eqb_eq in E. done.
Qed.

Lemma track_isempty_spec_witness :
  track_isempty sample_track
    = Done (match sample_items with [] => 30 =? 0 | _ => false end) /\
  is_track (track_init ∅) [] 0 /\
  track_isempty (track_init ∅) = Done true.
Proof.
  destruct (track_isempty_spec sample_track sample_items 30 ∅) as [H1 H2].
  split; [|exact H2]. apply H1.
  - exact sample_is_track.
  - reflexivity.
  - repeat constructor; discriminate.
Defined.

(** X19.  [track_numev] counts the sentinel: on a track of [n] events it
    returns [n + 1].  So does [track_evcnt]: it returns the number of
    events with the command asked for, plus one when the command is
    EV_NULL, that of the sentinel (both as [unsigned], modulo [2^32]). *)
Theorem track_numev_evcnt (t : track) (l : list item) (de : Z) (c : evcmd) :
  is_track t l de -> cmd (sev (eot t)) = EV_NULL ->
  track_numev t = Done (wrap32 (Z.of_nat (length l) + 1)) /\
  track_evcnt c t =
    Done (wrap32 (Z.of_nat (count_cmd c l) +
                  (if evcmd_eqb EV_NULL c then 1 else 0))).
Proof.
  intros Ht He. split.
  - unfold track_numev. rewrite (for_events_track _ _ _ _ Ht). cbn beta.
    rewrite (numev_fold l 0) by (unfold UINT_MOD; lia).
    rewrite wrap32_add_idemp_l. done.
  - unfold track_evcnt. rewrite (for_events_track _ _ _ _ Ht). cbn beta.
    pose proof (count_fold (fun x : item => evcmd_eqb (cmd (snd x)) c) l 0) as Hc.
    cbn beta in Hc. rewrite Hc by (unfold UINT_MOD; lia).
    rewrite He. unfold count_cmd. simpl (0 + _).
    destruct (evcmd_eqb EV_NULL c).
    + by rewrite wrap32_add_idemp_l.
    + by rewrite Z.add_0_r.
Qed.

Lemma track_numev_evcnt_witness :
  track_numev sample_track = Done (wrap32 (Z.of_nat (length sample_items) + 1)) /\
  track_evcnt EV_NULL sample_track =
    Done (wrap32 (Z.of_nat (count_cmd EV_NULL sample_items) +
                  (if evcmd_eqb EV_NULL EV_NULL then 1 else 0))).
Proof.
  apply (track_numev_evcnt sample_track sample_items 30 EV_NULL).
  - exact sample_is_track.
  - reflexivity.
Defined.


(** X20.  [seqev_ins] of an unlinked event before a position, followed by
    [seqev_rm] of that event, gives the track back: the same events with
    the same deltas (the position gets its delta back), the same
    sentinel delta, the same traversal and the same number of ticks; the
    event taken out again has delta 0. *)
Theorem seqev_ins_rm_round_trip (debug : bool) (t : track)
    (l1 l2 : list item) (de : Z) (b : nat) (s0 : seqev) :
  is_track t (l1 ++ l2) de ->
  heap t !! b = Some s0 ->
  b ∉ addrs (l1 ++ l2) ->
  0 <= head_delta l2 de < UINT_MOD ->
  (debug = true -> cmd (sev s0) <> EV_NULL) ->
  exists t1 t2 s',
    seqev_ins (head_ptr l2) (Node b) t = Done t1 /\
    seqev_rm debug (Node b) t1 = Done t2 /\
    is_track t2 (l1 ++ l2) de /\
    heap t2 !! b = Some s' /\ delta s' = 0 /\
    track_walk t2 = track_walk t /\
    track_numtic t2 = track_numtic t.
Proof.
  intros Ht Hb Hnb Hd Hdbg.
  destruct (seqev_ins_spec t l1 l2 de b s0 Ht Hb Hnb) as (t1 & Hins & Ht1).
  destruct (seqev_rm_spec debug t1 l1 (zero l2) b (head_delta l2 de)
              (eot_delta l2 0 de) (sev s0) Ht1 Hdbg)
    as (t2 & s' & Hrm & Ht2 & Hs' & Hds').
  assert (Hw : wrap32 (head_delta l2 de) = head_delta l2 de)
    by (unfold wrap32; by apply Z.mod_small).
  assert (Hl : bump (head_delta l2 de) (zero l2) = l2).
  { destruct l2 as [|[[a d] e] l2]; [done|].
    unfold bump, zero. cbn [set_head head_delta] in *.
    rewrite Z.add_0_l. by rewrite Hw. }
  assert (He : eot_delta (zero l2)
                 (wrap32 (eot_delta l2 0 de + head_delta l2 de))
                 (eot_delta l2 0 de) = de).
  { destruct l2 as [|[[a d] e] l2]; cbn [zero set_head eot_delta head_delta] in *;
      [|done]. rewrite Z.add_0_l. exact Hw. }
  rewrite Hl, He in Ht2.
  exists t1, t2, s'. split; [done|]. split; [done|]. split; [done|].
  split; [done|]. split; [done|].
  destruct (is_track_walk _ _ _ Ht) as [-> ->].
  destruct (is_track_walk _ _ _ Ht2) as [-> ->]. done.
Qed.

Lemma seqev_ins_rm_round_trip_witness :
  exists t1 t2 s',
    seqev_ins (head_ptr [(2%nat, 20, note_off 60 0)]) (Node 3) sample_track
      = Done t1 /\
    seqev_rm true (Node 3) t1 = Done t2 /\
    is_track t2 ([(1%nat, 10, note_on 60 100)] ++ [(2%nat, 20, note_off 60 0)])
             30 /\
    heap t2 !! 3%nat = Some s' /\ delta s' = 0 /\
    track_walk t2 = track_walk sample_track /\
    track_numtic t2 = track_numtic sample_track.
Proof.
  apply (seqev_ins_rm_round_trip true sample_track
           [(1%nat, 10, note_on 60 100)] [(2%nat, 20, note_off 60 0)] 30 3
           (mkseqev 0 (note_on 64 90) None SFirst)).
  - exact sample_is_track.
  - reflexivity.
  - intros H. repeat (apply elem_of_cons in H as [H|H]; [discriminate|]).
    by apply elem_of_nil in H.
  - simpl. unfold UINT_MOD. lia.
  - intros _. discriminate.
Defined.


Lemma total_bump (l : list item) (de n : Z) :
  total (bump n l) (eot_delta l (wrap32 (de + n)) de) = wrap32 (total l de + n).
Proof.
  unfold total. destruct l as [|[[a d] e] l].
  - simpl. rewrite !Z.add_0_l. rewrite !wrap32_add_idemp_l.
    unfold wrap32. by rewrite Zmod_mod.
  - unfold bump, deltas. cbn [set_head head_delta eot_delta map fst snd fold_right].
    rewrite wrap32_add_idemp_l.
    rewrite <- Z.add_assoc, wrap32_add_idemp_l. f_equal. lia.
Qed.

(** X21.  [track_shift] adds the ticks to the delta of the first event,
    or to the delta of the sentinel when the track has no event, so that
    [track_numtic] grows by that amount (modulo [2^32]) and the events
    stay as they are.  [track_chomp] clears the delta of the sentinel
    only: the events keep their deltas and [track_numtic] becomes their
    sum. *)
Theorem track_shift_chomp (t : track) (l : list item) (de n : Z) :
  is_track t l de ->
  (exists t',
     track_shift n t = Done t' /\
     is_track t' (bump n l) (eot_delta l (wrap32 (de + n)) de) /\
     track_numtic t' = Done (wrap32 (total l de + n))) /\
  is_track (track_chomp t) l 0 /\
  track_numtic (track_chomp t) = Done (total l 0).
Proof.
  intros Ht. pose proof Ht as [Hnd Hseg]. split.
  - destruct (seg_head _ _ _ _ _ Hseg) as (Hf & nx & Hrd & Hdx & Hpx).
    unfold track_shift. rewrite Hf, Hrd. cbn [bind].
    set (t' := wr t (head_ptr l) _).
    assert (Ht' : is_track t' (bump n l) (eot_delta l (wrap32 (de + n)) de)).
    { split; [unfold bump; by rewrite addrs_set_head|].
      replace (first t') with (Some (head_ptr l))
        by (subst t'; rewrite first_wr; done).
      rewrite Hf in Hseg.
      assert (Hd' : wrap32 (delta nx + n) = wrap32 (head_delta l 0 + n)
                    \/ l = []).
      { destruct l as [|[[a d] e] l]; [by right|left].
        simpl in Hdx. by rewrite Hdx. }
      pose proof (seg_rebuild t t' SFirst SFirst (head_ptr l) l de
                    (wrap32 (delta nx + n)) nx Hseg Hrd) as Hreb.
      assert (Hgoal : seg t' SFirst (Some (head_ptr l))
                        (set_head (wrap32 (delta nx + n)) l)
                        (eot_delta l (wrap32 (delta nx + n)) de)).
      { apply Hreb.
        - subst t'. rewrite rd_wr_eq. unfold set_delta. by rewrite Hpx.
        - intros x Hx. subst t'. apply heap_wr_ne.
          destruct l as [|[[a d] e] l]; [done|]. simpl. intros [= ->].
          simpl in Hnd, Hx. apply NoDup_cons in Hnd as [Hna _]. done.
        - intros Hne. subst t'. destruct (head_ptr l); [done|]. done. }
      destruct l as [|[[a d] e] l].
      - simpl in *. by rewrite Hdx in Hgoal.
      - unfold bump. simpl in *. by rewrite Hdx in Hgoal. }
    exists t'. split; [done|]. split; [done|].
    destruct (is_track_walk _ _ _ Ht') as [_ ->]. by rewrite total_bump.
  - assert (Hc : is_track (track_chomp t) l 0).
    { split; [done|]. destruct Hseg as (sl' & Hl & Hn & Hp & _).
      exists sl'. unfold track_chomp. simpl. split; [|done].
      eapply lseg_frame; [|exact Hl]. done. }
    split; [done|]. by destruct (is_track_walk _ _ _ Hc) as [_ ->].
Qed.

Lemma track_shift_chomp_witness :
  (exists t',
     track_shift 5 sample_track = Done t' /\
     is_track t' (bump 5 sample_items)
              (eot_delta sample_items (wrap32 (30 + 5)) 30) /\
     track_numtic t' = Done (wrap32 (total sample_items 30 + 5))) /\
  is_track (track_chomp sample_track) sample_items 0 /\
  track_numtic (track_chomp sample_track) = Done (total sample_items 0).
Proof.
  apply (track_shift_chomp sample_track sample_items 30 5).
  exact sample_is_track.
Defined.


Lemma clear_loop_spec (l : list item) : forall t freed sl p sl' n,
  NoDup (addrs l) -> lseg t sl p l sl' (Some Eot) -> (length l <= n)%nat ->
  exists h',
    clear_loop n p (t, freed) =
      Done (mktrack (eot t) (first t) h', freed ++ addrs l) /\
    (forall a, a ∈ addrs l -> h' !! a = None) /\
    (forall a, a ∉ addrs l -> h' !! a = heap t !! a).
Proof.
  induction l as [|[[a d] e] l IH]; intros t freed sl p sl' n Hnd Hl Hlen.
  - simpl in Hl. destruct Hl as [-> _]. exists (heap t).
    rewrite app_nil_r. split; [destruct n, t; done|]. split; [|done].
    intros a Ha. by apply elem_of_nil in Ha.
  - simpl in Hl. destruct Hl as (-> & s & Hs & _ & _ & _ & Hl).
    simpl in Hnd. apply NoDup_cons in Hnd as [Hna Hnd].
    destruct n as [|n]; [simpl in Hlen; lia|].
    cbn [clear_loop fst]. rewrite (rd_node _ _ _ Hs). cbn [bind].
    unfold seqev_del. cbn [fst snd].
    set (t1 := mktrack (eot t) (first t) (delete a (heap t))).
    destruct (IH t1 (freed ++ [a]) (SNext (Node a)) (next s) sl' n)
      as (h' & Hrun & Hin & Hout).
    + done.
    + eapply lseg_frame; [|exact Hl]. intros x Hx. subst t1. simpl.
      apply lookup_delete_ne. intros ->. done.
    + simpl in Hlen. lia.
    + exists h'. split; [|split].
      * rewrite Hrun. subst t1. simpl. by rewrite <- app_assoc.
      * intros x Hx. simpl in Hx. apply elem_of_cons in Hx as [->|Hx].
        -- rewrite Hout by done. subst t1. simpl. apply lookup_delete_eq.
        -- by apply Hin.
      * intros x Hx. simpl in Hx. apply not_elem_of_cons in Hx as [Hxa Hx].
        rewrite Hout by done. subst t1. simpl. by apply lookup_delete_ne.
Qed.

(** X22.  [track_clear] gives every event of the track back to
    [seqev_pool], each once and in the order of the track, touches no
    other entry of the pool, and leaves the track as [track_init] makes
    it, without events and without blank space.  [track_done] gives back
    the same entries and leaves [first] pointing at the entry that was
    first. *)
Theorem track_clear_frees_all (t : track) (l : list item) (de : Z)
    (freed : list nat) :
  is_track t l de ->
  exists t' td,
    track_clear (t, freed) = Done (t', freed ++ addrs l) /\
    is_track t' [] 0 /\ sev (eot t') = sev (eot t) /\
    track_done (t, freed) = Done (td, freed ++ addrs l) /\
    first td = first t /\ heap td = heap t' /\
    (forall a, a ∈ addrs l -> heap t' !! a = None) /\
    (forall a, a ∉ addrs l -> heap t' !! a = heap t !! a).
Proof.
  intros [Hnd (sl' & Hl & Hn & Hp & Hd)].
  pose proof (lseg_length _ _ _ _ _ _ Hnd Hl) as Hlen.
  destruct (clear_loop_spec l t freed SFirst (first t) sl' (size (heap t))
              Hnd Hl Hlen) as (h' & Hrun & Hin & Hout).
  unfold track_clear, track_done. cbn [fst]. rewrite Hrun. cbn [bind fst snd].
  eexists _, _. split; [reflexivity|]. split; [|split; [done|]].
  - split; [constructor|]. exists SFirst. simpl. done.
  - split; [reflexivity|]. split; [done|]. split; [done|]. split; done.
Qed.

Lemma track_clear_frees_all_witness :
  exists t' td,
    track_clear (sample_track, [7%nat])
      = Done (t', [7%nat] ++ addrs sample_items) /\
    is_track t' [] 0 /\ sev (eot t') = sev (eot sample_track) /\
    track_done (sample_track, [7%nat])
      = Done (td, [7%nat] ++ addrs sample_items) /\
    first td = first sample_track /\ heap td = heap t' /\
    (forall a, a ∈ addrs sample_items -> heap t' !! a = None) /\
    (forall a, a ∉ addrs sample_items -> heap t' !! a = heap sample_track !! a).
Proof.
  apply (track_clear_frees_all sample_track sample_items 30 [7%nat]).
  exact sample_is_track.
Defined.

End TrackMore.

(** ** mux.c: clock rates, requests *)
Section MuxMore.
Import Mux.

Lemma with_clock_id (d : mididev) : with_clock d (ticdelta d) [] = d.
Proof. destruct d. unfold with_clock. simpl. by rewrite app_nil_r. Qed.

Lemma sendtic_loop_exact (n : nat) : forall rate d,
  0 < rate -> 0 <= ticdelta d < UINT_MOD ->
  (Z.to_nat (ticdelta d / rate) <= n)%nat ->
  sendtic_loop n rate d =
    Done (with_clock d (ticdelta d mod rate)
                     (repeat 0xf8 (Z.to_nat (ticdelta d / rate)))).
Proof.
  induction n as [|n IH]; intros rate d Hr Hd Hn.
  - assert (Hq : ticdelta d / rate = 0).
    { pose proof (Z.div_pos (ticdelta d) rate ltac:(lia) Hr). lia. }
    apply Z.div_small_iff in Hq as [Hq|Hq]; [|lia..].
    simpl. destruct (Z.leb_spec rate (ticdelta d)); [lia|].
    rewrite Z.div_small, Z.mod_small by lia. simpl.
    by rewrite with_clock_id.
  - cbn [sendtic_loop]. destruct (Z.leb_spec rate (ticdelta d)) as [Hle|Hlt].
    + set (d1 := set_ticdelta (mididev_puttic d) (wrap32 (ticdelta d - rate))).
      assert (Hd1 : ticdelta d1 = ticdelta d - rate).
      { subst d1. simpl. unfold wrap32, UINT_MOD in *.
        apply Z.mod_small. lia. }
      assert (Hdiv : ticdelta d / rate = ticdelta d1 / rate + 1).
      { rewrite Hd1. replace (ticdelta d) with ((ticdelta d - rate) + 1 * rate)
          at 1 by lia. rewrite Z.div_add by lia. done. }
      assert (Hmod : ticdelta d mod rate = ticdelta d1 mod rate).
      { rewrite Hd1. replace (ticdelta d) with ((ticdelta d - rate) + 1 * rate)
          at 1 by lia. rewrite Z.mod_add by lia. done. }
      pose proof (Z.div_pos (ticdelta d1) rate ltac:(lia) Hr) as Hpos.
      rewrite (IH rate d1) by (try done; unfold UINT_MOD in *; lia).
      rewrite Hdiv, Hmod. f_equal.
      replace (Z.to_nat (ticdelta d1 / rate + 1))
        with (S (Z.to_nat (ticdelta d1 / rate))) by lia.
      subst d1. unfold with_clock. simpl. by rewrite <- app_assoc.
    + rewrite Z.div_small, Z.mod_small by lia. simpl.
      by rewrite with_clock_id.
Qed.

Lemma for_devs_done (f : nat -> mididev -> outcome mididev)
    (g : nat -> mididev -> mididev) (l : list mididev) : forall i,
  (forall k d, l !! k = Some d -> f (i + k)%nat d = Done (g (i + k)%nat d)) ->
  for_devs f i l = Done (imap (fun k d => g (i + k)%nat d) l).
Proof.
  induction l as [|d l IH]; intros i H; simpl; [done|].
  rewrite <- (Nat.add_0_r i) at 1. rewrite (H 0%nat d) by done. simpl.
  rewrite (IH (S i)).
  - simpl. rewrite Nat.add_0_r. f_equal. f_equal.
    apply imap_ext. intros k x _. simpl. f_equal. lia.
  - intros k x Hk. replace (S i + k)%nat with (i + S k)%nat by lia.
    by apply H.
Qed.

Lemma imap_imap {A B C : Type} (f : nat -> B -> C) (g : nat -> A -> B)
    (l : list A) :
  imap f (imap g l) = imap (fun i x => f i (g i x)) l.
Proof.
  apply list_eq. intros i. rewrite !list_lookup_imap.
  by destruct (l !! i).
Qed.

Lemma mux_sendtic_once (s : mux) :
  0 < mux_ticrate (globals s) < 2 ^ 31 -> Forall clock_ok (mididev_list s) ->
  mux_sendtic s = Done (set_devs s (imap (after_tics s 0) (mididev_list s))).
Proof.
  intros HR Hok. unfold mux_sendtic.
  rewrite (for_devs_done _ (after_tics s 0)); [done|].
  intros k d Hk. simpl. unfold after_tics.
  rewrite Forall_forall in Hok.
  destruct (Hok d) as [Hd Hr]; [apply list_elem_of_lookup; eauto|].
  destruct (sends_clock s k d); [|done].
  pose proof (Z.div_pos (ticdelta d) (mux_ticrate (globals s)) ltac:(lia)
                ltac:(lia)) as Hq.
  rewrite sendtic_loop_exact; [|lia|done|].
  - simpl. rewrite Z.add_0_r. unfold with_clock, set_ticdelta. simpl.
    pose proof (Z.mod_pos_bound (ticdelta d) (mux_ticrate (globals s))
                  ltac:(lia)).
    unfold wrap32, UINT_MOD. rewrite (Z.mod_small (_ + _)) by lia. done.
  - apply Z2Nat.inj_le; [lia|lia|].
    apply Z.div_le_upper_bound; [lia|]. nia.
Qed.

(** X23.  [n + 1] calls of [mux_sendtic], on a sequencer with a tick rate
    between 1 and 2^31 - 1 and devices whose counters are in range,
    return, change nothing but the devices, and turn the device [d] at
    position [i] into [after_tics s n i d]: a device that is sent the clock
    has received [(ticdelta + n * ticrate) / mux_ticrate] clock bytes and
    keeps the remainder plus [ticrate] in its counter; any other device is
    untouched. *)
Theorem mux_sendtic_rate (n : nat) : forall s : mux,
  0 < mux_ticrate (globals s) < 2 ^ 31 -> Forall clock_ok (mididev_list s) ->
  sendtics (S n) s =
    Done (set_devs s (imap (after_tics s n) (mididev_list s))).
Proof.
  induction n as [|n IH]; intros s HR Hok.
  - cbn [sendtics]. rewrite mux_sendtic_once by done. done.
  - change (sendtics (S (S n)) s)
      with (let* s1 := mux_sendtic s in sendtics (S n) s1).
    rewrite mux_sendtic_once by done. cbn [bind].
    set (s1 := set_devs s _).
    assert (Hok1 : Forall clock_ok (mididev_list s1)).
    { subst s1. simpl. apply Forall_forall. intros d' Hd'.
      apply elem_of_lookup_imap_1 in Hd' as (i & d & -> & Hi).
      rewrite Forall_forall in Hok.
      destruct (Hok d) as [Hd Hr]; [apply list_elem_of_lookup; eauto|].
      unfold after_tics. destruct (sends_clock s i d); [|done].
      unfold clock_ok, with_clock. simpl. rewrite Z.add_0_r.
      pose proof (Z.mod_pos_bound (ticdelta d) (mux_ticrate (globals s))
                    ltac:(lia)).
      unfold UINT_MOD. lia. }
    rewrite (IH s1) by done. subst s1. simpl. unfold set_devs. simpl.
    f_equal. f_equal. rewrite imap_imap. apply imap_ext. intros i d Hi.
    rewrite Forall_forall in Hok.
    destruct (Hok d) as [Hd Hr]; [apply list_elem_of_lookup; eauto|].
    assert (Hsc : forall l', sends_clock (mkmux (globals s) l'
                     (mididev_clksrc s) (mididev_mtcsrc s) (song s) (sys s))
                    i (after_tics s 0 i d) = sends_clock s i d).
    { intros l'. assert (Hsk : sendclk (after_tics s 0 i d) = sendclk d)
        by (unfold after_tics; by destruct (sends_clock s i d)).
      unfold sends_clock. rewrite Hsk. done. }
    remember (after_tics s 0 i d) as d1 eqn:Hd1.
    unfold after_tics. rewrite Hsc. cbn [globals].
    destruct (sends_clock s i d) eqn:Hs; [|by rewrite Hd1; unfold after_tics; rewrite Hs].
    rewrite Hd1. unfold after_tics. rewrite Hs.
    unfold with_clock. simpl. rewrite Z.add_0_r.
    set (R := mux_ticrate (globals s)) in *.
    set (dl := ticdelta d) in *. set (r := ticrate d) in *.
    rewrite <- app_assoc, <- repeat_app.
    pose proof (Z.div_mod dl R ltac:(lia)) as Hdm.
    pose proof (Z.mod_pos_bound dl R ltac:(lia)) as Hmb.
    pose proof (Z.div_pos dl R ltac:(lia) ltac:(lia)) as Hq.
    assert (Heq : dl + Z.of_nat (S n) * r
                  = (dl mod R + r + Z.of_nat n * r) + (dl / R) * R) by lia.
    assert (Hnn : 0 <= dl mod R + r + Z.of_nat n * r) by nia.
    pose proof (Z.div_pos _ R Hnn ltac:(lia)) as Hq2.
    rewrite Heq, Z.div_add, Z.mod_add by lia.
    f_equal. f_equal. f_equal. lia.
Qed.

Lemma mux_sendtic_rate_witness :
  sendtics 8 (mux_open [clock_dev 0; slow_dev 1] None None) =
    Done (set_devs (mux_open [clock_dev 0; slow_dev 1] None None)
            (imap (after_tics (mux_open [clock_dev 0; slow_dev 1] None None) 7)
                  (mididev_list (mux_open [clock_dev 0; slow_dev 1] None None)))).
Proof.
  apply (mux_sendtic_rate 7 (mux_open [clock_dev 0; slow_dev 1] None None)).
  - vm_compute. split; reflexivity.
  - repeat constructor; vm_compute; congruence.
Defined.

Lemma lor_fps_id (h : Z) : 0 <= h < 24 -> Z.lor h FPS_ID = 32 + h.
Proof.
  intros Hh. replace h with (Z.of_nat (Z.to_nat h)) by lia.
  assert (Hn : (Z.to_nat h < 24)%nat) by lia.
  generalize dependent (Z.to_nat h). intros n Hn.
  do 24 (destruct n as [|n]; [reflexivity|]). lia.
Qed.

(** X24.  For a position below 2^32, the message of [mux_gotoreq] is the
    MMC locate header followed by [32 + hours], minutes, seconds, frames,
    a zero sub-frame byte and [0xf7], with hours below 24, minutes and
    seconds below 60 and frames below 25; these fields give back the
    position modulo 24 hours, rounded down to a whole frame (96 units).
    [mux_gotoreq] leaves the transport alone and sends the message to the
    devices with [sendmmc] set, and to no other device. *)
Theorem mux_gotoreq_message (mmcpos : Z) (s : mux) :
  0 <= mmcpos < UINT_MOD ->
  exists hr mn sc fr,
    mmc_reloc mmcpos =
      [0xf0; 0x7f; 0x7f; 0x06; 0x44; 0x06; 0x01; 32 + hr; mn; sc; fr; 0; 0xf7] /\
    0 <= hr < 24 /\ 0 <= mn < 60 /\ 0 <= sc < 60 /\ 0 <= fr < 25 /\
    ((hr * 60 + mn) * 60 + sc) * MTC_SEC + fr * (MTC_SEC / DEFAULT_FPS)
      = mmcpos mod MTC_PERIOD - mmcpos mod (MTC_SEC / DEFAULT_FPS) /\
    globals (mux_gotoreq mmcpos s) = globals s /\
    forall i d, mididev_list s !! i = Some d ->
      mididev_list (mux_gotoreq mmcpos s) !! i =
        Some (if sendmmc d =? 0 then d
              else mididev_sendraw d (mmc_reloc mmcpos)).
Proof.
  intros Hp.
  set (F := mmcpos / 96).
  assert (HF : 0 <= F) by (apply Z.div_pos; lia).
  assert (H1 : mmcpos / (MTC_SEC / DEFAULT_FPS) = F) by done.
  assert (H2 : mmcpos / MTC_SEC = F / 25).
  { change MTC_SEC with (96 * 25). by rewrite <- Z.div_div by lia. }
  assert (H3 : mmcpos / (60 * MTC_SEC) = F / 25 / 60).
  { change (60 * MTC_SEC) with (96 * 25 * 60).
    by rewrite <- !Z.div_div by lia. }
  assert (H4 : mmcpos / (3600 * MTC_SEC) = F / 25 / 60 / 60).
  { change (3600 * MTC_SEC) with (96 * 25 * 60 * 60).
    by rewrite <- !Z.div_div by lia. }
  pose proof (Z.mod_pos_bound F 25 ltac:(lia)) as Bfr.
  pose proof (Z.mod_pos_bound (F / 25) 60 ltac:(lia)) as Bsc.
  pose proof (Z.mod_pos_bound (F / 25 / 60) 60 ltac:(lia)) as Bmn.
  pose proof (Z.mod_pos_bound (F / 25 / 60 / 60) 24 ltac:(lia)) as Bhr.
  exists ((F / 25 / 60 / 60) mod 24), ((F / 25 / 60) mod 60),
         ((F / 25) mod 60), (F mod 25).
  split.
  { unfold mmc_reloc. rewrite H1, H2, H3, H4.
    rewrite lor_fps_id by done. change DEFAULT_FPS with 25.
    unfold to_uchar.
    repeat match goal with
           | |- context [?x mod 256] => rewrite (Z.mod_small x 256) by lia
           end.
    done. }
  split; [done|]. split; [done|]. split; [done|]. split; [done|].
  split.
  { change (MTC_SEC / DEFAULT_FPS) with 96. change MTC_SEC with 2400.
    change MTC_PERIOD with (96 * (25 * (60 * (60 * 24)))).
    rewrite (Z.rem_mul_r mmcpos 96) by lia. fold F.
    rewrite (Z.rem_mul_r F 25) by lia.
    rewrite (Z.rem_mul_r (F / 25) 60) by lia.
    rewrite (Z.rem_mul_r (F / 25 / 60) 60) by lia.
    lia. }
  split; [done|].
  intros i d Hi. unfold mux_gotoreq, send_mmc. simpl.
  rewrite lookup_map, Hi. done.
Qed.

Lemma mux_gotoreq_message_witness :
  exists hr mn sc fr,
    mmc_reloc 9000000 =
      [0xf0; 0x7f; 0x7f; 0x06; 0x44; 0x06; 0x01; 32 + hr; mn; sc; fr; 0; 0xf7] /\
    0 <= hr < 24 /\ 0 <= mn < 60 /\ 0 <= sc < 60 /\ 0 <= fr < 25 /\
    ((hr * 60 + mn) * 60 + sc) * MTC_SEC + fr * (MTC_SEC / DEFAULT_FPS)
      = 9000000 mod MTC_PERIOD - 9000000 mod (MTC_SEC / DEFAULT_FPS) /\
    globals (mux_gotoreq 9000000 (mux_open [slow_dev 1] None None))
      = globals (mux_open [slow_dev 1] None None) /\
    forall i d, mididev_list (mux_open [slow_dev 1] None None) !! i = Some d ->
      mididev_list (mux_gotoreq 9000000 (mux_open [slow_dev 1] None None)) !! i =
        Some (if sendmmc d =? 0 then d
              else mididev_sendraw d (mmc_reloc 9000000)).
Proof.
  apply (mux_gotoreq_message 9000000 (mux_open [slow_dev 1] None None)).
  unfold UINT_MOD. lia.
Defined.

(** X25.  [mux_chgtempo] sets the tick length and keeps the position and
    the phase.  In the phases FIRST_TIC and NEXT_TIC it moves the end of
    the running tick by the difference of the new and the old tick length
    (modulo 2^64); in the other phases it leaves it.  With [mux_nextpos]
    in the range of an [unsigned long], changing the tempo and then
    changing it back to the old tick length restores the state. *)
Theorem mux_chgtempo_round_trip (T : Z) (s : mux) :
  0 <= mux_nextpos (globals s) < ULONG_MOD ->
  let s' := mux_chgtempo T s in
  mux_ticlength (globals s') = T /\
  mux_curpos (globals s') = mux_curpos (globals s) /\
  mux_phase (globals s') = mux_phase (globals s) /\
  (mux_phase (globals s) = MUX_FIRST \/ mux_phase (globals s) = MUX_NEXT ->
   mux_nextpos (globals s') =
     wrap64 (mux_nextpos (globals s) + T - mux_ticlength (globals s))) /\
  (mux_phase (globals s) <> MUX_FIRST -> mux_phase (globals s) <> MUX_NEXT ->
   mux_nextpos (globals s') = mux_nextpos (globals s)) /\
  mux_chgtempo (mux_ticlength (globals s)) s' = s.
Proof.
  intros Hn. destruct s as [g l c m so sy]. destruct g as [tr tl cp np ct ph rq ms wc].
  unfold mux_chgtempo. simpl in *.
  assert (Hw : wrap64 (wrap64 (np + T) - tl) = wrap64 (np + T - tl))
    by (unfold wrap64; by rewrite Zminus_mod_idemp_l).
  assert (Hb : wrap64 (wrap64 (wrap64 (np + T - tl) + tl) - T) = np).
  { unfold wrap64. rewrite Zplus_mod_idemp_l, Zminus_mod_idemp_l.
    replace (np + T - tl + tl - T) with np by lia. by apply Z.mod_small. }
  unfold MUX_FIRST, MUX_NEXT in *.
  destruct (Z.eqb_spec ph 2) as [->|H1];
    [|destruct (Z.eqb_spec ph 3) as [->|H2]]; simpl.
  - rewrite Hw, Hb. repeat split; try done; try (intuition done).
  - rewrite Hw, Hb. repeat split; try done; try (intuition done).
  - apply Z.eqb_neq in H1 as E1. apply Z.eqb_neq in H2 as E2.
    unfold set_globals, set_ticlength. simpl. rewrite E1, E2. simpl.
    repeat split; try done; try (intuition done).
Qed.

Lemma mux_chgtempo_round_trip_witness :
  let s := mkmux (mktransport 96 500000 120000 500000 7 MUX_NEXT
                              MUX_STARTWAIT 0 0) [] None None [] [] in
  let s' := mux_chgtempo 250000 s in
  mux_ticlength (globals s') = 250000 /\
  mux_curpos (globals s') = mux_curpos (globals s) /\
  mux_phase (globals s') = mux_phase (globals s) /\
  (mux_phase (globals s) = MUX_FIRST \/ mux_phase (globals s) = MUX_NEXT ->
   mux_nextpos (globals s') =
     wrap64 (mux_nextpos (globals s) + 250000 - mux_ticlength (globals s))) /\
  (mux_phase (globals s) <> MUX_FIRST -> mux_phase (globals s) <> MUX_NEXT ->
   mux_nextpos (globals s') = mux_nextpos (globals s)) /\
  mux_chgtempo (mux_ticlength (globals s)) s' = s.
Proof.
  apply (mux_chgtempo_round_trip 250000
           (mkmux (mktransport 96 500000 120000 500000 7 MUX_NEXT
                               MUX_STARTWAIT 0 0) [] None None [] [])).
  simpl. unfold ULONG_MOD. lia.
Defined.

Lemma mux_startreq_returns (song_goto : Z -> Z -> Z) (ms : Z) (s : mux) :
  mux_phase (globals s) = MUX_STOP ->
  exists s1, mux_startreq song_goto ms s = Done s1.
Proof.
  intros Hp. destruct s as [g devs clk mtc sg sy]. destruct g.
  simpl in Hp. subst. unfold mux_startreq.
  destruct clk, mtc; simpl; eauto.
Qed.

(** X26.  From the phase STOP, [mux_startreq] followed by [mux_stopreq]
    returns, with the phase and the requested phase back at STOP, and the
    song has received [song_stopcb] and nothing else.  A device has
    received: on the internal clock, if it is sent the clock, a tick and a
    start; the MMC start if it has [sendmmc]; on the internal clock, if it
    is sent the clock, a stop; the MMC stop if it has [sendmmc].  A further
    [mux_startreq] then returns as well. *)
Theorem mux_start_stop_cycle (song_goto : Z -> Z -> Z) (ms ms' : Z) (s : mux) :
  mux_phase (globals s) = MUX_STOP ->
  exists s1 s3,
    mux_startreq song_goto ms s = Done s1 /\
    mux_phase (globals (mux_stopreq s1)) = MUX_STOP /\
    mux_reqphase (globals (mux_stopreq s1)) = MUX_STOP /\
    song (mux_stopreq s1) = song s ++ [song_stopcb] /\
    (forall i d, mididev_list s !! i = Some d ->
       exists d', mididev_list (mux_stopreq s1) !! i = Some d' /\
         out d' = out d
           ++ (if on_internal_clock s && sends_clock s i d
               then [0xf8; 0xfa] else [])
           ++ (if sendmmc d =? 0 then [] else mmc_start)
           ++ (if on_internal_clock s && sends_clock s i d
               then [0xfc] else [])
           ++ (if sendmmc d =? 0 then [] else mmc_stop)) /\
    mux_startreq song_goto ms' (mux_stopreq s1) = Done s3.
Proof.
  intros Hp.
  assert (Hs1 : exists s1, mux_startreq song_goto ms s = Done s1 /\
            mux_phase (globals (mux_stopreq s1)) = MUX_STOP /\
            mux_reqphase (globals (mux_stopreq s1)) = MUX_STOP /\
            song (mux_stopreq s1) = song s ++ [song_stopcb] /\
            (forall i d, mididev_list s !! i = Some d ->
               exists d', mididev_list (mux_stopreq s1) !! i = Some d' /\
                 out d' = out d
                   ++ (if on_internal_clock s && sends_clock s i d
                       then [0xf8; 0xfa] else [])
                   ++ (if sendmmc d =? 0 then [] else mmc_start)
                   ++ (if on_internal_clock s && sends_clock s i d
                       then [0xfc] else [])
                   ++ (if sendmmc d =? 0 then [] else mmc_stop))).
  { destruct s as [g devs clk mtc sg sy]. destruct g.
    simpl in Hp. subst. unfold mux_startreq, on_internal_clock.
    destruct clk as [c|]; destruct mtc as [m|]; simpl;
      (eexists; split; [reflexivity|]);
      (split; [reflexivity|]); (split; [reflexivity|]);
      (split; [reflexivity|]);
      intros i d Hi; unfold mux_stopreq, mux_stopcb, mux_sendstop, mux_flush,
        send_mmc, mux_chgphase; simpl;
      rewrite ?lookup_map, ?list_lookup_imap, ?lookup_map, ?list_lookup_imap,
        ?lookup_map, Hi; simpl;
      unfold sends_clock, is_clksrc, mididev_flush, mididev_putstop,
        mididev_putstart, mididev_puttic, mididev_sendraw, set_ticdelta; simpl;
      destruct (sendclk d =? 0) eqn:Ek, (sendmmc d =? 0) eqn:Em; simpl;
      rewrite ?Ek, ?Em; simpl;
      try destruct (Nat.eqb c i); simpl; rewrite ?Ek, ?Em; simpl;
      (eexists; split; [reflexivity|]); simpl;
      repeat (rewrite ?Ek, ?Em; simpl);
      rewrite <- ?app_assoc; simpl; rewrite ?app_nil_r; reflexivity. }
  destruct Hs1 as (s1 & H1 & H2 & H3 & H4 & H5).
  destruct (mux_startreq_returns song_goto ms' (mux_stopreq s1) H2) as [s3 H6].
  exists s1, s3. done.
Qed.

Lemma mux_start_stop_cycle_witness :
  let s := mux_open [clock_dev 0; slow_dev 1] None None in
  exists s1 s3,
    mux_startreq (fun _ _ => 0) 0 s = Done s1 /\
    mux_phase (globals (mux_stopreq s1)) = MUX_STOP /\
    mux_reqphase (globals (mux_stopreq s1)) = MUX_STOP /\
    song (mux_stopreq s1) = song s ++ [song_stopcb] /\
    (forall i d, mididev_list s !! i = Some d ->
       exists d', mididev_list (mux_stopreq s1) !! i = Some d' /\
         out d' = out d
           ++ (if on_internal_clock s && sends_clock s i d
               then [0xf8; 0xfa] else [])
           ++ (if sendmmc d =? 0 then [] else mmc_start)
           ++ (if on_internal_clock s && sends_clock s i d
               then [0xfc] else [])
           ++ (if sendmmc d =? 0 then [] else mmc_stop)) /\
    mux_startreq (fun _ _ => 0) 1 (mux_stopreq s1) = Done s3.
Proof.
  apply (mux_start_stop_cycle (fun _ _ => 0) 0 1
           (mux_open [clock_dev 0; slow_dev 1] None None)).
  reflexivity.
Defined.

Lemma after_tics_ok (s : mux) (n i : nat) (d : mididev) :
  0 < mux_ticrate (globals s) < 2 ^ 31 -> clock_ok d ->
  clock_ok (after_tics s n i d).
Proof.
  intros HR [Hd Hr]. unfold after_tics. destruct (sends_clock s i d); [|done].
  unfold clock_ok, with_clock. simpl.
  pose proof (Z.mod_pos_bound (ticdelta d + Z.of_nat n * ticrate d)
                (mux_ticrate (globals s)) ltac:(lia)).
  unfold UINT_MOD. lia.
Qed.

Lemma after_tics_compose (s s' : mux) (n i : nat) (d : mididev) :
  mux_ticrate (globals s') = mux_ticrate (globals s) ->
  mididev_clksrc s' = mididev_clksrc s ->
  0 < mux_ticrate (globals s) < 2 ^ 31 -> clock_ok d ->
  after_tics s' n i (after_tics s 0 i d) = after_tics s (S n) i d.
Proof.
  intros HR' Hc HR [Hd Hr].
  assert (Hsc : sends_clock s' i (after_tics s 0 i d) = sends_clock s i d).
  { assert (Hsk : sendclk (after_tics s 0 i d) = sendclk d)
      by (unfold after_tics; by destruct (sends_clock s i d)).
    unfold sends_clock, is_clksrc. by rewrite Hsk, Hc. }
  remember (after_tics s 0 i d) as d1 eqn:Hd1.
  unfold after_tics. rewrite Hsc, HR'.
  destruct (sends_clock s i d) eqn:Hs;
    [|by rewrite Hd1; unfold after_tics; rewrite Hs].
  rewrite Hd1. unfold after_tics. rewrite Hs.
  unfold with_clock. simpl. rewrite Z.add_0_r.
  set (R := mux_ticrate (globals s)) in *.
  set (dl := ticdelta d) in *. set (r := ticrate d) in *.
  rewrite <- app_assoc, <- repeat_app.
  pose proof (Z.div_mod dl R ltac:(lia)) as Hdm.
  pose proof (Z.mod_pos_bound dl R ltac:(lia)) as Hmb.
  pose proof (Z.div_pos dl R ltac:(lia) ltac:(lia)) as Hq.
  assert (Heq : dl + Z.of_nat (S n) * r
                = (dl mod R + r + Z.of_nat n * r) + (dl / R) * R) by lia.
  assert (Hnn : 0 <= dl mod R + r + Z.of_nat n * r) by nia.
  pose proof (Z.div_pos _ R Hnn ltac:(lia)) as Hq2.
  rewrite Heq, Z.div_add, Z.mod_add by lia.
  f_equal. f_equal. f_equal. lia.
Qed.

Lemma ticcb_loop_eq (n : nat) (s : mux) :
  ticcb_loop n s =
  match clksrc_dev s with
  | None => ticcb_body s
  | Some (c, r) =>
      let* d := r in
      if ticdelta d <? ticrate d then
        Done (set_devs s
                (<[c := set_ticdelta d
                          (wrap32 (ticdelta d + mux_ticrate (globals s)))]>
                   (mididev_list s)))
      else
        let* s := ticcb_body s in
        match mididev_list s !! c with
        | None => Undefined
        | Some d =>
            let s := set_devs s
                       (<[c := set_ticdelta d (wrap32 (ticdelta d - ticrate d))]>
                          (mididev_list s)) in
            match n with
            | O => Diverge
            | S n' => ticcb_loop n' s
            end
        end
  end.
Proof. by destruct n. Qed.

Lemma after_tics_clksrc (s : mux) (n c : nat) (d : mididev) :
  mididev_clksrc s = Some c -> after_tics s n c d = d.
Proof.
  intros Hc. unfold after_tics, sends_clock, is_clksrc.
  rewrite Hc, Nat.eqb_refl. by rewrite andb_false_r.
Qed.

Lemma after_tics_ext (s s' : mux) (n i : nat) (d : mididev) :
  mux_ticrate (globals s') = mux_ticrate (globals s) ->
  mididev_clksrc s' = mididev_clksrc s ->
  after_tics s' n i d = after_tics s n i d.
Proof.
  intros HR Hc. unfold after_tics, sends_clock, is_clksrc. by rewrite HR, Hc.
Qed.

Lemma forwarded_step (s s' : mux) (c k : nat) (x y : mididev)
    (l : list mididev) :
  mux_ticrate (globals s') = mux_ticrate (globals s) ->
  mididev_clksrc s' = mididev_clksrc s ->
  0 < mux_ticrate (globals s) < 2 ^ 31 -> Forall clock_ok l ->
  <[c := x]> (forwarded s' k (<[c := y]> (imap (after_tics s 0) l)))
  = <[c := x]> (forwarded s (S k) l).
Proof.
  intros HR' Hc HR Hok. destruct k as [|k]; simpl.
  - by rewrite list_insert_insert_eq.
  - apply list_eq. intros i. rewrite !list_lookup_insert.
    rewrite !length_imap, length_insert, length_imap.
    destruct (decide (c = i /\ (c < length l)%nat)) as [[-> Hi]|Hn]; [done|].
    rewrite !list_lookup_imap, list_lookup_insert, length_imap.
    rewrite decide_False by done. rewrite list_lookup_imap.
    destruct (l !! i) as [d|] eqn:Hi; [|done]. simpl. f_equal.
    apply after_tics_compose; try done.
    rewrite Forall_forall in Hok. apply Hok. apply list_elem_of_lookup; eauto.
Qed.

Lemma ticcb_loop_external (c : nat) (n : nat) : forall (s : mux) (d : mididev),
  mididev_clksrc s = Some c -> mididev_list s !! c = Some d ->
  mux_phase (globals s) = MUX_NEXT ->
  0 < mux_ticrate (globals s) < 2 ^ 31 -> 0 < ticrate d ->
  0 <= mux_curtic (globals s) < UINT_MOD ->
  Forall clock_ok (mididev_list s) ->
  (Z.to_nat (ticdelta d / ticrate d) <= n)%nat ->
  ticcb_loop n s =
    Done (mkmux
      (set_curtic (globals s)
         (wrap32 (mux_curtic (globals s) + ticdelta d / ticrate d)))
      (<[c := set_ticdelta d (ticdelta d mod ticrate d + mux_ticrate (globals s))]>
         (forwarded s (Z.to_nat (ticdelta d / ticrate d)) (mididev_list s)))
      (Some c) (mididev_mtcsrc s)
      (song s ++ repeat song_movecb (Z.to_nat (ticdelta d / ticrate d)))
      (sys s)).
Proof.
  induction n as [|n IH]; intros s d Hc Hd Hph HR Hr Hct Hok Hn.
  all: rewrite ticcb_loop_eq; unfold clksrc_dev; rewrite Hc, Hd; cbn [bind].
  all: assert (Hdok : clock_ok d)
         by (rewrite Forall_forall in Hok; apply Hok;
             apply list_elem_of_lookup; eauto).
  all: destruct Hdok as [Hdt Hdr].
  all: pose proof (Z.div_pos (ticdelta d) (ticrate d) ltac:(lia) Hr) as Hq.
  all: destruct (Z.ltb_spec (ticdelta d) (ticrate d)) as [Hlt|Hge].
  - rewrite Z.div_small, Z.mod_small by lia.
    destruct s as [g l clk mtc sg sy]; destruct g; simpl in *. subst clk.
    unfold set_devs, set_curtic, wrap32, UINT_MOD in *. simpl.
    rewrite app_nil_r, Z.add_0_r, !Z.mod_small by lia. done.
  - assert (1 <= ticdelta d / ticrate d)
      by (apply Z.div_le_lower_bound; lia). lia.
  - rewrite Z.div_small, Z.mod_small by lia.
    destruct s as [g l clk mtc sg sy]; destruct g; simpl in *. subst clk.
    unfold set_devs, set_curtic, wrap32, UINT_MOD in *. simpl.
    rewrite app_nil_r, Z.add_0_r, !Z.mod_small by lia. done.
  - unfold ticcb_body. rewrite Hph.
    change (MUX_NEXT =? MUX_FIRST) with false.
    change (MUX_NEXT =? MUX_START) with false. cbv iota. rewrite Hph.
    change (MUX_NEXT =? MUX_NEXT) with true. cbv iota.
    rewrite mux_sendtic_once by done. cbn [bind].
    set (s1 := set_globals s (set_curtic (globals s)
                                (wrap32 (mux_curtic (globals s) + 1)))).
    cbn [call_song set_devs mididev_list globals mididev_clksrc
         mididev_mtcsrc song sys].
    change (mididev_list s1) with (mididev_list s).
    rewrite list_lookup_imap, Hd. cbn [fmap option_fmap option_map].
    rewrite after_tics_clksrc by done.
    set (db := set_ticdelta d (wrap32 (ticdelta d - ticrate d))).
    assert (Htb : ticdelta db = ticdelta d - ticrate d).
    { subst db. simpl. unfold wrap32, UINT_MOD in *.
      apply Z.mod_small. lia. }
    assert (Hdiv : ticdelta d / ticrate d = ticdelta db / ticrate d + 1).
    { rewrite Htb. replace (ticdelta d)
        with ((ticdelta d - ticrate d) + 1 * ticrate d) at 1 by lia.
      rewrite Z.div_add by lia. done. }
    assert (Hmod : ticdelta d mod ticrate d = ticdelta db mod ticrate d).
    { rewrite Htb. replace (ticdelta d)
        with ((ticdelta d - ticrate d) + 1 * ticrate d) at 1 by lia.
      rewrite Z.mod_add by lia. done. }
    pose proof (Z.div_pos (ticdelta db) (ticrate d) ltac:(lia) Hr) as Hqb.
    assert (Hlen : (c < length (mididev_list s))%nat)
      by (eapply lookup_lt_Some; eauto).
    assert (Hrb : ticrate db = ticrate d) by done.
    assert (Hset : forall x, set_ticdelta db x = set_ticdelta d x)
      by (intros; by destruct d).
    clearbody db.
    set (l1 := imap (after_tics s1 0) (mididev_list s)).
    set (sb := set_devs _ _).
    assert (Hgb : globals sb = globals s1) by done.
    assert (Hlb : mididev_list sb = <[c := db]> l1) by done.
    assert (Hsb : song sb = song s ++ [song_movecb]) by done.
    assert (Hyb : sys sb = sys s) by done.
    assert (Hmb : mididev_mtcsrc sb = mididev_mtcsrc s) by done.
    assert (Hcb : mididev_clksrc sb = Some c) by done.
    assert (HRb : mux_ticrate (globals sb) = mux_ticrate (globals s))
      by (rewrite Hgb; subst s1; by destruct s as [[] ?]).
    assert (Hph1 : mux_phase (globals sb) = MUX_NEXT)
      by (rewrite Hgb; subst s1; by destruct s as [[] ?]).
    assert (Hcur : mux_curtic (globals sb)
                   = wrap32 (mux_curtic (globals s) + 1))
      by (rewrite Hgb; subst s1; by destruct s as [[] ?]).
    assert (Hgg : forall x, set_curtic (globals sb) x
                            = set_curtic (globals s) x)
      by (intros; rewrite Hgb; subst s1; by destruct s as [[] ?]).
    subst l1. clearbody sb.
    rewrite (IH sb db).
    + f_equal. rewrite Hgg, Hcur, HRb, Hlb, Hsb, Hyb, Hmb, Hrb.
      replace (Z.to_nat (ticdelta d / ticrate d))
        with (S (Z.to_nat (ticdelta db / ticrate d))) by lia.
      f_equal.
      * f_equal. unfold wrap32.
        rewrite Hdiv, Zplus_mod_idemp_l. f_equal. lia.
      * rewrite Hset, <- Hmod.
        rewrite (imap_ext _ (after_tics s 0))
          by (intros; by apply after_tics_ext).
        apply forwarded_step; [done|congruence|done|done].
      * by rewrite <- app_assoc.
    + done.
    + rewrite Hlb. apply list_lookup_insert_eq. by rewrite length_imap.
    + done.
    + by rewrite HRb.
    + by rewrite Hrb.
    + rewrite Hcur. unfold wrap32, UINT_MOD. apply Z.mod_pos_bound. lia.
    + rewrite Hlb. apply Forall_insert.
      * apply Forall_forall. intros d' Hd'.
        apply elem_of_lookup_imap_1 in Hd' as (i & d0 & -> & Hi).
        apply after_tics_ok; [done|].
        rewrite Forall_forall in Hok. apply Hok.
        apply list_elem_of_lookup; eauto.
      * split; [lia|by rewrite Hrb].
    + rewrite Hrb. lia.
Qed.

(** X28.  A tick of the external clock source in the phase NEXT_TIC.
    With the clock source [d] at position [c], a tick rate of the source of
    1 or more, a tick rate of the sequencer between 1 and 2^31 - 1 and
    counters in range, [mux_ticcb] returns after [k = ticdelta d / ticrate d]
    ticks of the sequencer: the tick counter has advanced by [k] (modulo
    2^32), the song has received [k] times [song_movecb], the clock source
    keeps [ticdelta d mod ticrate d + mux_ticrate] in its counter, and the
    other devices are as [k] calls of [mux_sendtic] leave them. *)
Theorem mux_ticcb_external (s : mux) (c : nat) (d : mididev) :
  mididev_clksrc s = Some c -> mididev_list s !! c = Some d ->
  mux_phase (globals s) = MUX_NEXT ->
  0 < mux_ticrate (globals s) < 2 ^ 31 -> 0 < ticrate d ->
  0 <= mux_curtic (globals s) < UINT_MOD ->
  Forall clock_ok (mididev_list s) ->
  let k := ticdelta d / ticrate d in
  mux_ticcb s =
    Done (mkmux
      (set_curtic (globals s) (wrap32 (mux_curtic (globals s) + k)))
      (<[c := set_ticdelta d (ticdelta d mod ticrate d + mux_ticrate (globals s))]>
         (forwarded s (Z.to_nat k) (mididev_list s)))
      (Some c) (mididev_mtcsrc s)
      (song s ++ repeat song_movecb (Z.to_nat k))
      (sys s)).
Proof.
  intros Hc Hd Hph HR Hr Hct Hok k. subst k.
  unfold mux_ticcb, clksrc_dev. rewrite Hc, Hd.
  apply ticcb_loop_external; try done.
  assert (Hdok : clock_ok d)
    by (rewrite Forall_forall in Hok; apply Hok;
        apply list_elem_of_lookup; eauto).
  destruct Hdok as [Hdt _].
  apply Z2Nat.inj_le; [apply Z.div_pos; lia|lia|].
  apply Z.div_le_upper_bound; [lia|]. nia.
Qed.

Lemma mux_ticcb_external_witness :
  let d := mkdev 0 24 60 0 0 0 0 0 [] in
  let s := mkmux (mktransport 96 500000 0 500000 5 MUX_NEXT MUX_STARTWAIT 0 0)
                 [d; clock_dev 1; slow_dev 2] (Some 0%nat) None [] [] in
  mux_ticcb s =
    Done (mkmux
      (mktransport 96 500000 0 500000 7 MUX_NEXT MUX_STARTWAIT 0 0)
      [mkdev 0 24 108 0 0 0 0 0 [];
       mkdev 1 96 96 1 0 0 0 0 [0xf8];
       mkdev 2 24 48 1 1 0 0 0 []]
      (Some 0%nat) None [song_movecb; song_movecb] []).
Proof.
  apply (mux_ticcb_external
           (mkmux (mktransport 96 500000 0 500000 5 MUX_NEXT MUX_STARTWAIT 0 0)
                  [mkdev 0 24 60 0 0 0 0 0 []; clock_dev 1; slow_dev 2]
                  (Some 0%nat) None [] [])
           0%nat (mkdev 0 24 60 0 0 0 0 0 [])).
  - reflexivity.
  - reflexivity.
  - reflexivity.
  - simpl. lia.
  - simpl. lia.
  - simpl. unfold UINT_MOD. lia.
  - repeat constructor; simpl; unfold UINT_MOD; lia.
Defined.

End MuxMore.

(** ** mdep.c *)
Section MdepFacts.
Import Mux Mdep.

Lemma elapsed_spec (ts l : timespec) :
  match elapsed ts l with
  | (l', Advance d) =>
      l' = ts /\ 0 < nsec_of ts - nsec_of l < 1000000000 /\
      d = 24 * (nsec_of ts - nsec_of l) / 1000
  | (l', Ignored dn) =>
      l' = ts /\ dn = nsec_of ts - nsec_of l /\ 1000000000 <= dn
  | (l', Stalled) => l' = l /\ nsec_of ts <= nsec_of l
  end.
Proof.
  unfold elapsed, nsec_of.
  destruct (Z.ltb_spec 0
    (1000000000 * (tv_sec ts - tv_sec l) + (tv_nsec ts - tv_nsec l)));
    [destruct (Z.ltb_spec
       (1000000000 * (tv_sec ts - tv_sec l) + (tv_nsec ts - tv_nsec l))
       1000000000)|].
  - split; [done|]. split; [lia|]. f_equal. lia.
  - split; [done|]. split; lia.
  - split; [done|]. lia.
Qed.

Lemma advances_cons (k : tick) (ks : list tick) :
  advances (k :: ks) =
    match k with Advance d => d :: advances ks | _ => advances ks end.
Proof. by destruct k. Qed.

Lemma dropped_cons (k : tick) (ks : list tick) :
  dropped (k :: ks) =
    match k with Ignored d => d + dropped ks | _ => dropped ks end.
Proof. by destruct k. Qed.

(** X27.  A sequence of wake-ups of [mux_mdep_wait] with the multiplexer
    open, for clock readings with [tv_sec] below 2^32 and [tv_nsec] below
    10^9 (where [delta_nsec] does not overflow).  Every wake-up is
    accounted for; every delta handed to [mux_timercb] is below 24000000
    (one second); [ts_last] never moves backwards and is the initial value
    or one of the readings; and the deltas handed to [mux_timercb] add up
    to the time that [ts_last] advanced by, less the huge deltas that were
    ignored, in 24ths of a microsecond, short by less than one unit for
    each call. *)
Theorem wakeups_account (tss : list timespec) :
  forall (l0 l' : timespec) (ks : list tick),
  Forall (fun ts => 0 <= tv_sec ts < 2 ^ 32 /\ 0 <= tv_nsec ts < 1000000000)
         (l0 :: tss) ->
  wakeups tss l0 = (l', ks) ->
  length ks = length tss /\
  Forall (fun d => 0 <= d < 24000000) (advances ks) /\
  nsec_of l0 <= nsec_of l' /\
  (l' = l0 \/ l' ∈ tss) /\
  let span := nsec_of l' - nsec_of l0 - dropped ks in
  let total := fold_right Z.add 0 (advances ks) in
  1000 * total <= 24 * span <= 1000 * total + 999 * Z.of_nat (length (advances ks)).
Proof.
  induction tss as [|ts r IH]; intros l0 l' ks Hr Hw.
  - simpl in Hw. injection Hw as <- <-. simpl.
    unfold dropped. simpl.
    split; [done|]. split; [done|]. split; [lia|]. split; [by left|]. lia.
  - simpl in Hw.
    pose proof (elapsed_spec ts l0) as He.
    destruct (elapsed ts l0) as [l1 k].
    destruct (wakeups r l1) as [l2 ks2] eqn:Hw2.
    injection Hw as <- <-.
    apply Forall_cons in Hr as [H0 Hr]. apply Forall_cons in Hr as [Hts Hr].
    assert (Hl1 : l1 = ts \/ l1 = l0) by (destruct k; intuition).
    assert (Hr1 : Forall (fun ts => 0 <= tv_sec ts < 2 ^ 32 /\
                            0 <= tv_nsec ts < 1000000000) (l1 :: r)).
    { apply Forall_cons. split; [|done]. by destruct Hl1 as [-> | ->]. }
    destruct (IH l1 l2 ks2 Hr1 Hw2) as (Hlen & Hb & Hmono & Hin & Hacc).
    cbv zeta in Hacc.
    assert (Hin' : l2 = l0 \/ l2 ∈ ts :: r).
    { destruct Hin as [-> | Hin]; [|right; by apply elem_of_cons; right].
      destruct Hl1 as [-> | ->]; [right; by apply elem_of_cons; left|by left]. }
    destruct k as [d | dn |].
    all: cbv zeta; rewrite advances_cons, dropped_cons.
    all: cbn [fold_right length].
    + rewrite Nat2Z.inj_succ.
      destruct He as (-> & Hd & ->).
      pose proof (Z.div_mod (24 * (nsec_of ts - nsec_of l0)) 1000 ltac:(lia)).
      pose proof (Z.mod_pos_bound (24 * (nsec_of ts - nsec_of l0)) 1000
                    ltac:(lia)).
      split; [by rewrite Hlen|]. split.
      { apply Forall_cons. split; [|done]. lia. }
      split; [lia|]. split; [done|]. lia.
    + destruct He as (-> & -> & Hd).
      split; [by rewrite Hlen|]. split; [done|].
      split; [lia|]. split; [done|].
      lia.
    + destruct He as (-> & Hd).
      split; [by rewrite Hlen|]. split; [done|].
      split; [lia|]. split; [done|].
      lia.
Qed.

Lemma wakeups_account_witness :
  let tss := [mktimespec 1 500; mktimespec 1 400; mktimespec 3 0;
              mktimespec 3 1000] in
  let l0 := mktimespec 1 0 in
  let l' := mktimespec 3 1000 in
  let ks := [Advance 12; Stalled; Ignored 1999999500; Advance 24] in
  length ks = length tss /\
  Forall (fun d => 0 <= d < 24000000) (advances ks) /\
  nsec_of l0 <= nsec_of l' /\
  (l' = l0 \/ l' ∈ tss) /\
  let span := nsec_of l' - nsec_of l0 - dropped ks in
  let total := fold_right Z.add 0 (advances ks) in
  1000 * total <= 24 * span <= 1000 * total + 999 * Z.of_nat (length (advances ks)).
Proof.
  apply (wakeups_account
           [mktimespec 1 500; mktimespec 1 400; mktimespec 3 0;
            mktimespec 3 1000] (mktimespec 1 0)).
  - repeat constructor; simpl; lia.
  - reflexivity.
Defined.

End MdepFacts.
